(** * leetcode-fetch-cli: the download pipeline of [download.js]

    A shallow embedding of the functions of [download.js] that decide how
    items are fetched, retried, transcoded, laid out on disk and recorded in
    the progress file, with the properties of the specification stated and
    settled against them.

    Conventions of the embedding.
    - A JavaScript string is a [list ascii] of code units; code units above
      255 are outside the model.
    - An [async] function is run to completion in program order; where
      several workers are in flight the interleaving is an explicit schedule.
    - A call that can [throw] returns a sum or a dedicated completion type.
    - The network and the clock are the environment: each remote answer is
      an input of the model, each wait is recorded in a trace. *)

From Stdlib Require Import Ascii String List ZArith NArith Lia Bool Arith.
From Stdlib Require Import DecimalString DecimalPos.
From stdpp Require Import base gmap strings list.
Import ListNotations.

#[local] Open Scope list_scope.

(** JavaScript strings as sequences of code units. *)
Definition str := list ascii.

Definition txt (s : string) : str := list_ascii_of_string s.

(* ================================================================== *)
(** ** Retry executor: [retryAsync] *)
(* ================================================================== *)

Module Retry.

Definition MAX_RETRIES : nat := 3.
Definition RETRY_DELAY : nat := 1000.

(** What the executor does to the outside: it invokes the operation and it
    sleeps. *)
Inductive event : Type :=
| Called
| Slept (ms : nat).

(** How a call of an [async] function ends. [Fellthrough] is the loop
    running out without [return] or [throw]: the promise resolves to
    [undefined]. *)
Inductive completion (E A : Type) : Type :=
| Returned (v : A)
| Thrown (e : E)
| Fellthrough.
Arguments Returned {E A} v.
Arguments Thrown {E A} e.
Arguments Fellthrough {E A}.

Section retryAsync.
Context {W E A : Type}.

(** One invocation of the operation [fn]: it acts on the world and either
    throws ([inl]) or returns ([inr]). *)
Variable fn : W -> (E + A) * W.

(** The body of [for (let i = 0; i < retries; i++)], with [left] the
    number of iterations still to run ([left = retries - i]). *)
Fixpoint attempts (retries delay : nat) (left i : nat) (w : W)
  : completion E A * W * list event :=
  match left with
  | 0 => (Fellthrough, w, [])
  | S left' =>
    match fn w with
    | (inr v, w1) => (Returned v, w1, [Called])
    | (inl error, w1) =>
      if i =? retries - 1 then (Thrown error, w1, [Called])
      else
        let '(c, w2, tr) := attempts retries delay left' (S i) w1 in
        (c, w2, Called :: Slept (delay * (i + 1)) :: tr)
    end
  end.

Definition retryAsync (retries delay : nat) (w : W)
  : completion E A * W * list event :=
  attempts retries delay retries 0 w.

(** The world after [j] invocations and the outcome of invocation [j+1]. *)
Fixpoint world_after (j : nat) (w : W) : W :=
  match j with
  | 0 => w
  | S j' => world_after j' (snd (fn w))
  end.

Definition outcome (j : nat) (w : W) : E + A := fst (fn (world_after j w)).

Definition fails (j : nat) (w : W) : Prop :=
  match outcome j w with inl _ => True | inr _ => False end.

Fixpoint calls (tr : list event) : nat :=
  match tr with
  | [] => 0
  | Called :: tr' => S (calls tr')
  | Slept _ :: tr' => calls tr'
  end.

Fixpoint waits (tr : list event) : list nat :=
  match tr with
  | [] => []
  | Called :: tr' => waits tr'
  | Slept ms :: tr' => ms :: waits tr'
  end.

(** [k] failed attempts numbered from [from], each followed by its wait. *)
Fixpoint backoff (delay from k : nat) : list event :=
  match k with
  | 0 => []
  | S k' => Called :: Slept (delay * from) :: backoff delay (S from) k'
  end.

Definition result_of (r : completion E A * W * list event) : completion E A :=
  fst (fst r).
Definition trace_of (r : completion E A * W * list event) : list event :=
  snd r.

End retryAsync.

End Retry.

(* ================================================================== *)
(** ** JavaScript strings and regular expressions *)
(* ================================================================== *)

Module Js.

#[local] Open Scope char_scope.

Definition code (c : ascii) : N := N_of_ascii c.

Definition in_range (lo hi c : ascii) : bool :=
  ((code lo <=? code c) && (code c <=? code hi))%N.

Definition is_char (a c : ascii) : bool := Ascii.eqb a c.
Definition not_char (a c : ascii) : bool := negb (Ascii.eqb a c).

(** [[\s\S]] *)
Definition any_char (c : ascii) : bool := true.
(** [\d] *)
Definition is_digit (c : ascii) : bool := in_range "0" "9" c.
(** [[a-zA-Z0-9]] *)
Definition is_alnum (c : ascii) : bool :=
  in_range "a" "z" c || in_range "A" "Z" c || in_range "0" "9" c.
(** [[\dA-Fa-f]] *)
Definition is_hex (c : ascii) : bool :=
  is_digit c || in_range "A" "F" c || in_range "a" "f" c.
(** [\s], also the characters removed by [trim]: tab, line feed, vertical
    tab, form feed, carriage return, space and no-break space. *)
Definition is_space (c : ascii) : bool :=
  in_range "009" "013" c || is_char " " c || is_char "160" c.
(** [.] matches anything but a line terminator. *)
Definition is_dot (c : ascii) : bool :=
  negb (is_char "010" c || is_char "013" c).

(** *** Matching *)

Fixpoint strip_prefix (p s : str) : option str :=
  match p, s with
  | [], _ => Some s
  | _ :: _, [] => None
  | a :: p', b :: s' => if Ascii.eqb a b then strip_prefix p' s' else None
  end.

(** The regular expressions of the program are sequences of these atoms,
    with alternation only at the top. *)
Inductive atom : Type :=
| Lit (l : str)                          (* literal text *)
| Opt (l : str)                          (* l? *)
| One (p : ascii -> bool)                (* one character of a class *)
| Greedy (p : ascii -> bool) (lo : nat)  (* p{lo,} *)
| Lazy (p : ascii -> bool) (lo : nat)    (* p{lo,}? *)
| Eol.                                   (* $ *)

(** A successful match of a sequence of atoms: the text each atom consumed,
    in order, and what is left of the input. *)
Definition matched : Type := list str * str.
Definition cont : Type := str -> option matched.

Definition push (sl : str) (o : option matched) : option matched :=
  match o with
  | Some (sls, rest) => Some (sl :: sls, rest)
  | None => None
  end.

Definition grow (c : ascii) (o : option (str * matched)) : option (str * matched) :=
  match o with
  | Some (sl, m) => Some (c :: sl, m)
  | None => None
  end.

(** Leave a repetition at this point, if it has consumed enough. *)
Definition stop (k : cont) (need : nat) (t : str) : option (str * matched) :=
  match need with
  | 0 => match k t with Some m => Some ([], m) | None => None end
  | S _ => None
  end.

(** Greedy repetition: consume while possible, give back on failure. *)
Fixpoint greedy (p : ascii -> bool) (k : cont) (need : nat) (t : str)
  : option (str * matched) :=
  match t with
  | c :: t' =>
    if p c then
      match grow c (greedy p k (pred need) t') with
      | Some r => Some r
      | None => stop k need t
      end
    else stop k need t
  | [] => stop k need t
  end.

(** Lazy repetition: leave as soon as the rest matches. *)
Fixpoint lazy (p : ascii -> bool) (k : cont) (need : nat) (t : str)
  : option (str * matched) :=
  match stop k need t with
  | Some r => Some r
  | None =>
    match t with
    | c :: t' => if p c then grow c (lazy p k (pred need) t') else None
    | [] => None
    end
  end.

Definition unpack (o : option (str * matched)) : option matched :=
  match o with
  | Some (sl, (sls, rest)) => Some (sl :: sls, rest)
  | None => None
  end.

(** Backtracking match of a sequence of atoms at the head of the input. *)
Fixpoint rmatch (r : list atom) : cont :=
  match r with
  | [] => fun s => Some ([], s)
  | a :: r' =>
    let k := rmatch r' in
    match a with
    | Lit l => fun s =>
      match strip_prefix l s with
      | Some t => push l (k t)
      | None => None
      end
    | Opt l => fun s =>
      match
        match strip_prefix l s with
        | Some t => push l (k t)
        | None => None
        end
      with
      | Some m => Some m
      | None => push [] (k s)
      end
    | One p => fun s =>
      match s with
      | c :: t => if p c then push [c] (k t) else None
      | [] => None
      end
    | Greedy p lo => fun s => unpack (greedy p k lo s)
    | Lazy p lo => fun s => unpack (lazy p k lo s)
    | Eol => fun s =>
      match s with
      | [] => push [] (k s)
      | _ :: _ => None
      end
    end
  end.

(** One alternative of a regular expression; [bol] is a leading [^]. *)
Record alt : Type := Alt { bol : bool; atoms : list atom }.
Definition regex : Type := list alt.

(** The first alternative, from number [i] on, that matches at position
    [pos] of the input, where [s] is the input from [pos]. *)
Fixpoint match_here (re : regex) (i pos : nat) (s : str)
  : option (nat * list str * str) :=
  match re with
  | [] => None
  | a :: re' =>
    match (if bol a then if Nat.eqb pos 0 then rmatch (atoms a) s else None
           else rmatch (atoms a) s) with
    | Some (sls, rest) => Some (i, sls, rest)
    | None => match_here re' (S i) pos s
    end
  end.

(** *** Global search *)

(** A match found by a global search. *)
Record hit : Type := Hit {
  h_alt : nat;          (* which alternative matched *)
  h_slices : list str;  (* the text consumed by each atom *)
  h_index : nat;        (* position of the match *)
  h_after : str         (* the input after the match *)
}.

Definition h_text (h : hit) : str := concat (h_slices h).

Inductive piece : Type :=
| Keep (c : ascii)
| Found (h : hit).

(** Left-to-right search with the [g] flag: the input is cut into the
    matches and the characters between them. [skip] counts the characters
    still covered by the last match. After an empty match the search
    advances by one character. *)
Fixpoint scan (re : regex) (pos skip : nat) (s : str) : list piece :=
  match skip with
  | S skip' =>
    match s with
    | _ :: s' => scan re (S pos) skip' s'
    | [] => []
    end
  | 0 =>
    match match_here re 0 pos s with
    | Some (i, sls, rest) =>
      Found (Hit i sls pos rest) ::
      match s with
      | c :: s' =>
        match length (concat sls) with
        | 0 => Keep c :: scan re (S pos) 0 s'
        | S n => scan re (S pos) n s'
        end
      | [] => []
      end
    | None =>
      match s with
      | c :: s' => Keep c :: scan re (S pos) 0 s'
      | [] => []
      end
    end
  end.

(** The successive results of [re.exec(input)] until it returns [null]. *)
Fixpoint hits (ps : list piece) : list hit :=
  match ps with
  | [] => []
  | Keep _ :: ps' => hits ps'
  | Found h :: ps' => h :: hits ps'
  end.

Definition exec_all (re : regex) (input : str) : list hit :=
  hits (scan re 0 0 input).

(** [input.replace(re, f)] with a replacer function. *)
Fixpoint splice (f : hit -> str) (ps : list piece) : str :=
  match ps with
  | [] => []
  | Keep c :: ps' => c :: splice f ps'
  | Found h :: ps' => f h ++ splice f ps'
  end.

Definition replace_fn (re : regex) (f : hit -> str) (input : str) : str :=
  splice f (scan re 0 0 input).

(** *** Replacement templates *)

Definition digit_val (c : ascii) : nat := N.to_nat (code c - code "0").

Definition capture (captures : list (option str)) (index : nat) : str :=
  match nth_error captures (index - 1) with
  | Some (Some s) => s
  | _ => []
  end.

(** ECMAScript [GetSubstitution] without named captures: [$$], [$&],
    [$`], [$'], [$n] and [$nn]; any other [$] stands for itself. *)
Fixpoint GetSubstitution (text before after : str) (captures : list (option str))
    (template : str) : str :=
  let m := length captures in
  match template with
  | [] => []
  | c :: t =>
    if negb (Ascii.eqb c "$") then c :: GetSubstitution text before after captures t
    else
      match t with
      | [] => ["$"]
      | d1 :: t1 =>
        if Ascii.eqb d1 "$" then "$" :: GetSubstitution text before after captures t1
        else if Ascii.eqb d1 "&" then text ++ GetSubstitution text before after captures t1
        else if Ascii.eqb d1 "`" then before ++ GetSubstitution text before after captures t1
        else if Ascii.eqb d1 "'" then after ++ GetSubstitution text before after captures t1
        else if is_digit d1 then
          match t1 with
          | d2 :: t2 =>
            if is_digit d2 && Nat.leb (10 * digit_val d1 + digit_val d2) m then
              (if Nat.leb 1 (10 * digit_val d1 + digit_val d2)
               then capture captures (10 * digit_val d1 + digit_val d2)
               else ["$"; d1; d2])
              ++ GetSubstitution text before after captures t2
            else
              (if Nat.leb 1 (digit_val d1) && Nat.leb (digit_val d1) m
               then capture captures (digit_val d1)
               else ["$"; d1])
              ++ GetSubstitution text before after captures t1
          | [] =>
            if Nat.leb 1 (digit_val d1) && Nat.leb (digit_val d1) m
            then capture captures (digit_val d1)
            else ["$"; d1]
          end
        else "$" :: GetSubstitution text before after captures t
      end
  end.

(** [input.replace(re, template)] with a replacement string; [caps] gives
    the capture groups of a match. *)
Definition replace_tpl (re : regex) (caps : hit -> list (option str))
    (template : str) (input : str) : str :=
  replace_fn re
    (fun h => GetSubstitution (h_text h) (firstn (h_index h) input) (h_after h)
                              (caps h) template)
    input.

(** Capture groups of a regular expression without alternation: group [n]
    is the text of the atoms numbered [from .. from+len-1]. *)
Definition group (from len : nat) (h : hit) : option str :=
  Some (concat (firstn len (skipn from (h_slices h)))).

Definition no_groups (h : hit) : list (option str) := [].

(** *** [input.replace(pattern, template)] with a string pattern: the first
    occurrence only *)
Fixpoint replace_first_from (pat template input : str) (pos : nat) (s : str)
  : option str :=
  match strip_prefix pat s with
  | Some rest =>
    Some (GetSubstitution pat (firstn pos input) rest [] template ++ rest)
  | None =>
    match s with
    | c :: s' =>
      match replace_first_from pat template input (S pos) s' with
      | Some r => Some (c :: r)
      | None => None
      end
    | [] => None
    end
  end.

Definition replace_first (pat template input : str) : str :=
  match replace_first_from pat template input 0 input with
  | Some r => r
  | None => input
  end.

(** *** Other string methods *)

Fixpoint includes (pat s : str) : bool :=
  match strip_prefix pat s with
  | Some _ => true
  | None => match s with _ :: s' => includes pat s' | [] => false end
  end.

Definition startsWith (pat s : str) : bool :=
  match strip_prefix pat s with Some _ => true | None => false end.

Fixpoint trim_start (s : str) : str :=
  match s with
  | c :: s' => if is_space c then trim_start s' else s
  | [] => []
  end.

Definition trim (s : str) : str := rev (trim_start (rev (trim_start s))).

(** The lower case of a code unit below 256: the letters A to Z, and the
    Latin-1 capitals from 192 to 222 but for the multiplication sign. *)
Definition lower (c : ascii) : ascii :=
  if in_range "A" "Z" c then ascii_of_N (code c + 32)
  else if in_range "192" "222" c && negb (is_char "215" c) then ascii_of_N (code c + 32)
  else c.

Definition toLowerCase (s : str) : str := map lower s.

(** [s.split(sep)] for a one-character separator. *)
Fixpoint split (sep : ascii) (s : str) : list str :=
  match s with
  | [] => [[]]
  | c :: s' =>
    if Ascii.eqb c sep then [] :: split sep s'
    else match split sep s' with
         | seg :: segs => (c :: seg) :: segs
         | [] => [[c]]
         end
  end.

(** [s.substring(s.lastIndexOf(sep))] when [sep] occurs in [s]. *)
Fixpoint from_last (sep : ascii) (s : str) : option str :=
  match s with
  | [] => None
  | c :: s' =>
    match from_last sep s' with
    | Some r => Some r
    | None => if Ascii.eqb c sep then Some s else None
    end
  end.

(** [s.slice(-n)] *)
Definition slice_last (n : nat) (s : str) : str := skipn (length s - n) s.

(** [path.join] on segments that hold no separator and no dot segment:
    the segments that are not empty, joined by the separator. *)
Fixpoint path_join (segments : list str) : str :=
  match segments with
  | [] => []
  | seg :: rest =>
    match seg, path_join rest with
    | [], r => r
    | _, [] => seg
    | _, r => seg ++ "/" :: r
    end
  end.

(** Template interpolation of a number. *)
Definition of_nat (n : nat) : str := txt (NilEmpty.string_of_uint (Nat.to_uint n)).
Definition of_Z (z : Z) : str := txt (NilEmpty.string_of_int (Z.to_int z)).

(** The longest prefix of digits of [s] read in base [radix]; [None] when
    [s] does not start with a digit. *)
Fixpoint read_digits (radix : Z) (isd : ascii -> bool) (val : ascii -> Z)
    (acc : option Z) (s : str) : option Z :=
  match s with
  | c :: s' =>
    if isd c then
      read_digits radix isd val
        (Some (radix * (match acc with Some a => a | None => 0 end) + val c)%Z) s'
    else acc
  | [] => acc
  end.

Definition dec_val (c : ascii) : Z := Z.of_N (code c - code "0").

Definition hex_val (c : ascii) : Z :=
  if is_digit c then dec_val c
  else if in_range "A" "F" c then Z.of_N (code c - code "A" + 10)
  else Z.of_N (code c - code "a" + 10).

(** [parseInt(s, 10)]: leading white space, an optional sign, then digits;
    [None] is [NaN]. *)
Definition parseInt10 (s : str) : option Z :=
  let s1 := trim_start s in
  let '(neg, s2) :=
    match s1 with
    | "-" :: t => (true, t)
    | "+" :: t => (false, t)
    | _ => (false, s1)
    end in
  match read_digits 10 is_digit dec_val None s2 with
  | Some n => Some (if neg : bool then (- n)%Z else n)
  | None => None
  end.

(** [parseInt(s, 16)] on a string of hexadecimal digits. *)
Definition parseInt16 (s : str) : option Z :=
  read_digits 16 is_hex hex_val None s.

(** [String.fromCharCode(n)]; the documents of the model have their numeric
    character references below 256. *)
Definition fromCharCode (n : Z) : str := [ascii_of_N (Z.to_N n)].

End Js.

(* ================================================================== *)
(** ** Command line of the downloader: [parseArgs] *)
(* ================================================================== *)

Module Args.

Record config : Type := Config {
  problemId : option str;
  formats : list str;
  fetchTemplates : bool;
  fetchSolutions : bool;
  fetchOfficialSolution : bool;
  concurrency : Z
}.

Definition default_config : config := {|
  problemId := None;
  formats := [txt "html"; txt "md"; txt "raw"];
  fetchTemplates := true;
  fetchSolutions := true;
  fetchOfficialSolution := true;
  concurrency := 5
|}.

Definition set_problemId (c : config) (v : str) : config :=
  Config (Some v) (formats c) (fetchTemplates c) (fetchSolutions c)
         (fetchOfficialSolution c) (concurrency c).
Definition set_formats (c : config) (v : list str) : config :=
  Config (problemId c) v (fetchTemplates c) (fetchSolutions c)
         (fetchOfficialSolution c) (concurrency c).
Definition set_fetchTemplates (c : config) (v : bool) : config :=
  Config (problemId c) (formats c) v (fetchSolutions c)
         (fetchOfficialSolution c) (concurrency c).
Definition set_fetchSolutions (c : config) (v : bool) : config :=
  Config (problemId c) (formats c) (fetchTemplates c) v
         (fetchOfficialSolution c) (concurrency c).
Definition set_fetchOfficialSolution (c : config) (v : bool) : config :=
  Config (problemId c) (formats c) (fetchTemplates c) (fetchSolutions c)
         v (concurrency c).
Definition set_concurrency (c : config) (v : Z) : config :=
  Config (problemId c) (formats c) (fetchTemplates c) (fetchSolutions c)
         (fetchOfficialSolution c) v.

(** How a call of [parseArgs] ends: it returns the configuration, prints
    the help and exits, or throws the [TypeError] of [undefined.split]. *)
Inductive completion : Type :=
| Returned (c : config)
| Exited (status : Z)
| TypeError.

Definition arg_is (name : string) (arg : str) : bool :=
  if decide (arg = txt name) then true else false.

(** The [for] loop over [args]; a flag with a value consumes the next
    element through [args[++i]]. *)
Fixpoint parse_loop (config : config) (args : list str) : completion :=
  match args with
  | [] => Returned config
  | arg :: rest =>
    if arg_is "--help" arg || arg_is "-h" arg then Exited 0
    else if arg_is "--formats" arg || arg_is "-f" arg then
      match rest with
      | v :: rest' =>
        parse_loop
          (set_formats config
             (map (fun f => Js.toLowerCase (Js.trim f)) (Js.split "," v)))
          rest'
      | [] => TypeError
      end
    else if arg_is "--no-templates" arg then
      parse_loop (set_fetchTemplates config false) rest
    else if arg_is "--no-solutions" arg then
      parse_loop (set_fetchSolutions config false) rest
    else if arg_is "--no-official" arg then
      parse_loop (set_fetchOfficialSolution config false) rest
    else if arg_is "--concurrency" arg || arg_is "-c" arg then
      match rest with
      | v :: rest' =>
        match Js.parseInt10 v with
        | Some concurrency =>
          if (0 <? concurrency)%Z
          then parse_loop (set_concurrency config concurrency) rest'
          else parse_loop config rest'
        | None => parse_loop config rest'
        end
      | [] => Returned config
      end
    else if negb (Js.startsWith (txt "-") arg) then
      parse_loop (set_problemId config arg) rest
    else parse_loop config rest
  end.

Definition parseArgs (args : list str) : completion :=
  parse_loop default_config args.

(** The flags that introduce the number of concurrent downloads. *)
Definition concurrency_flag (arg : str) : bool :=
  arg_is "--concurrency" arg || arg_is "-c" arg.

(** A value after the flag that is not a number above zero. *)
Definition rejected (v : str) : Prop :=
  match Js.parseInt10 v with
  | Some z => (z <= 0)%Z
  | None => True
  end.

(** An argument on which the parser neither exits nor reads a list of
    formats. *)
Definition plain (arg : str) : Prop :=
  (arg_is "--help" arg || arg_is "-h" arg || arg_is "--formats" arg || arg_is "-f" arg) = false.

End Args.

(* ================================================================== *)
(** ** Items and their place on disk *)
(* ================================================================== *)

Module Layout.

#[local] Open Scope char_scope.

(** An item of the catalogue, as [listProblems] builds it. *)
Record problem : Type := Problem {
  id : str;
  name : str;
  slug : str;
  difficulty : str;
  locked : bool;
  tags : list str;
  companies : list str
}.

(** [/[^a-zA-Z0-9]/g] *)
Definition re_not_alnum : Js.regex :=
  [Js.Alt false [Js.One (fun c => negb (Js.is_alnum c))]].
(** [/-+/g] *)
Definition re_hyphens : Js.regex :=
  [Js.Alt false [Js.Greedy (Js.is_char "-") 1]].
(** [/^-|-$/g] *)
Definition re_edge_hyphen : Js.regex :=
  [Js.Alt true [Js.Lit (txt "-")]; Js.Alt false [Js.Lit (txt "-"); Js.Eol]].

Definition sanitizeFolderName (name : str) : str :=
  Js.replace_tpl re_edge_hyphen Js.no_groups (txt "")
    (Js.replace_tpl re_hyphens Js.no_groups (txt "-")
       (Js.replace_tpl re_not_alnum Js.no_groups (txt "-") name)).

(** [problem.tags[0] || 'uncategorized'] *)
Definition first_tag (p : problem) : str :=
  match tags p with
  | t :: _ => if decide (t = []) then txt "uncategorized" else t
  | [] => txt "uncategorized"
  end.

Definition tagFolder (p : problem) : str := sanitizeFolderName (first_tag p).

Definition problemName (p : problem) : str :=
  Js.toLowerCase (sanitizeFolderName (name p)).

(** [('0000' + problem.id).slice(-4)] *)
Definition id_component (p : problem) : str :=
  Js.slice_last 4 (txt "0000" ++ id p).

Definition problemFolder (p : problem) : str :=
  id_component p ++ txt "_" ++ difficulty p ++ txt "_" ++ problemName p.

Definition problemPath (outputFolder : str) (p : problem) : str :=
  Js.path_join [outputFolder; tagFolder p; problemFolder p].

(** The layout of the specification: the identifier padded with zeros to
    at least four digits, and the slug as last component. *)
Definition zero_padded (width : nat) (s : str) : str :=
  repeat "0" (width - length s) ++ s.

Definition specified_folder (p : problem) : str :=
  zero_padded 4 (id p) ++ txt "_" ++ difficulty p ++ txt "_" ++ slug p.

(** The characters of a sanitized name. *)
Definition name_char (c : ascii) : Prop :=
  Js.is_alnum c = true \/ c = "-".

(** Where the hyphens of a name stand: never two in a row, none at the
    start, none at the end. *)
Definition is_hyphen (c : ascii) : bool := Js.is_char "-" c.

Fixpoint no_double (hyphens : list bool) : bool :=
  match hyphens with
  | a :: (b :: _) as rest => negb (a && b) && no_double rest
  | _ => true
  end.

Definition tidy (s : str) : Prop :=
  no_double (map is_hyphen s) = true
  /\ hd false (map is_hyphen s) = false
  /\ List.last (map is_hyphen s) false = false.

(** What the third replacement of [sanitizeFolderName] leaves of a text
    after its first character: the text without its last character when
    that is a hyphen. *)
Fixpoint drop_last_hyphen (s : str) : str :=
  match s with
  | [] => []
  | c :: r =>
    match r with
    | [] => if is_hyphen c then [] else [c]
    | _ :: _ => c :: drop_last_hyphen r
    end
  end.

(** What the second replacement of [sanitizeFolderName] makes of a text
    that starts at index [pos] of the input. *)
Definition squeezed (s : str) (pos : nat) : str :=
  Js.splice (fun _ => txt "-") (Js.scan re_hyphens pos 0 s).

(** The characters of a folder name made from a display name. *)
Definition folder_char (c : ascii) : bool :=
  Js.in_range "a" "z" c || Js.in_range "0" "9" c || Js.is_char "-" c.

(** Item 50 of the catalogue. *)
Definition pow_x_n : problem :=
  Problem (txt "50") (txt "Pow(x, n)") (txt "powx-n") (txt "Medium") false
          [txt "math"; txt "recursion"] [].

End Layout.

(* ================================================================== *)
(** ** Media rewriter: [downloadImageFromMarkdown] *)
(* ================================================================== *)

Module Media.

#[local] Open Scope char_scope.

(** [/!\[.*?\]\((https?:\/\/[^\)]+)\)/g] *)
Definition imgRegex : Js.regex :=
  [Js.Alt false
     [Js.Lit (txt "!["); Js.Lazy Js.is_dot 0; Js.Lit (txt "](");
      Js.Lit (txt "http"); Js.Opt (txt "s"); Js.Lit (txt "://");
      Js.Greedy (Js.not_char ")") 1; Js.Lit (txt ")")]].

(** [match[1]] *)
Definition url_of (h : Js.hit) : str :=
  concat (firstn 4 (skipn 3 (Js.h_slices h))).

(** The extension of the last path segment, or [.png]. *)
Definition extension (imgUrl : str) : str :=
  let urlFileName := List.last (Js.split "/" imgUrl) [] in
  if Js.includes (txt ".") urlFileName then
    match Js.from_last "." urlFileName with
    | Some ext => ext
    | None => txt ".png"
    end
  else txt ".png".

(** A JavaScript [Map] from strings to strings: [set] on a key already
    there keeps its place. *)
Fixpoint map_set (k v : str) (m : list (str * str)) : list (str * str) :=
  match m with
  | [] => [(k, v)]
  | (k', v') :: m' =>
    if decide (k = k') then (k, v) :: m' else (k', v') :: map_set k v m'
  end.

Fixpoint map_get (k : str) (m : list (str * str)) : option str :=
  match m with
  | [] => None
  | (k', v') :: m' => if decide (k = k') then Some v' else map_get k m'
  end.

(** The variables of the [while] loop, the number of requests sent so far
    and the downloads started, oldest first. *)
Record progress : Type := Progress {
  imageMap : list (str * str);
  imageIndex : nat;
  requests : nat;
  downloads : list str
}.

Section rewriter.
(** [net n url]: the n-th request of the run, for [url], brings the image
    back and the file is written. *)
Variable net : nat -> str -> bool.
Variable relativeImagePath : str.

(** [retryAsync(async () => { axios.get(imgUrl); fs.writeFile(...) })] *)
Definition download (imgUrl : str) (w : nat)
  : Retry.completion unit unit * nat * list Retry.event :=
  Retry.retryAsync (fun w => (if net w imgUrl then inr tt else inl tt, S w))
                   Retry.MAX_RETRIES Retry.RETRY_DELAY w.

(** One turn of the loop, for one match of [imgRegex]. *)
Definition visit (st : progress) (imgUrl : str) : progress :=
  let ext := extension imgUrl in
  let imageName := Js.of_nat (imageIndex st) ++ ext in
  match download imgUrl (requests st) with
  | (Retry.Thrown _, w, _) =>
    Progress (map_set imgUrl imgUrl (imageMap st)) (imageIndex st) w
             (downloads st ++ [imgUrl])
  | (_, w, _) =>
    Progress (map_set imgUrl (relativeImagePath ++ txt "/" ++ imageName) (imageMap st))
             (S (imageIndex st)) w (downloads st ++ [imgUrl])
  end.

(** The pattern built for one entry of the map, with the [g] flag: an
    exclamation mark, the alternative text between square brackets as
    group 1 (any characters but a closing bracket), and the URL between
    parentheses; the URL is escaped and so stands for itself. *)
Definition re_image (originalUrl : str) : Js.regex :=
  [Js.Alt false
     [Js.Lit (txt "!["); Js.Greedy (Js.not_char "]") 0; Js.Lit (txt "](");
      Js.Lit originalUrl; Js.Lit (txt ")")]].

Definition substitute (processedMarkdown : str) (entry : str * str) : str :=
  let '(originalUrl, localPath) := entry in
  Js.replace_tpl (re_image originalUrl) (fun h => [Js.group 1 1 h])
                 (txt "![$1](" ++ localPath ++ txt ")")
                 processedMarkdown.

Definition found (markdown : str) : list str :=
  map url_of (Js.exec_all imgRegex markdown).

Definition scanned (markdown : str) : progress :=
  fold_left visit (found markdown) (Progress [] 0 0 []).

Definition downloadImageFromMarkdown (markdown : str) : str :=
  fold_left substitute (imageMap (scanned markdown)) markdown.

End rewriter.

Definition occurrences (url : str) (l : list str) : nat :=
  length (List.filter (fun u => if decide (u = url) then true else false) l).

(** The specification's reading: every URL found is downloaded once. *)
Definition downloads_each_url_once (net : nat -> str -> bool) (rel markdown : str) : Prop :=
  forall url, In url (found markdown) ->
    occurrences url (downloads (scanned net rel markdown)) = 1.

(** A reference to an image in markdown. *)
Definition image (alt url : str) : str :=
  txt "![" ++ alt ++ txt "](" ++ url ++ txt ")".

(** Alternative texts and URLs on which the two patterns agree. *)
Definition plain_alt (alt : str) : Prop :=
  Forall (fun c => c <> "]" /\ Js.is_dot c = true) alt.

Definition plain_url (url : str) : Prop :=
  (exists host, host <> [] /\ (url = txt "http://" ++ host \/ url = txt "https://" ++ host))
  /\ Forall (fun c => c <> ")" /\ c <> "$") url.

(** A document that names the same image twice. *)
Definition twice : str :=
  txt "See ![a](https://x.org/p/fig.svg) and again ![b](https://x.org/p/fig.svg).".

End Media.

(* ================================================================== *)
(** ** Document transcoder: [convertHtmlToMarkdown] *)
(* ================================================================== *)

Module Transcoder.

#[local] Open Scope char_scope.

Definition newline : str := ["010"].
Definition quote : str := ["034"].

(** *** The patterns *)

Definition one (atoms : list Js.atom) : Js.regex := [Js.Alt false atoms].

(** A literal pattern. *)
Definition literal (l : string) : Js.regex := one [Js.Lit (txt l)].

(** An opening tag with any attributes: the name, characters other than
    the closing angle bracket, the bracket. *)
Definition opening (name : string) : Js.regex :=
  one [Js.Lit (txt "<" ++ txt name); Js.Greedy (Js.not_char ">") 0; Js.Lit (txt ">")].

(** An element without attributes and its content, as short as can be;
    the content is the text of atom 1. *)
Definition element (name : string) : Js.regex :=
  one [Js.Lit (txt "<" ++ txt name ++ txt ">"); Js.Lazy Js.any_char 0;
       Js.Lit (txt "</" ++ txt name ++ txt ">")].

(** An element with any attributes and its content, as short as can be;
    the content is the text of atom 3. *)
Definition element_with_attributes (name : string) : Js.regex :=
  one [Js.Lit (txt "<" ++ txt name); Js.Greedy (Js.not_char ">") 0; Js.Lit (txt ">");
       Js.Lazy Js.any_char 0; Js.Lit (txt "</" ++ txt name ++ txt ">")].

(** Any tag: an opening angle bracket, one character or more other than
    the closing bracket, the closing bracket. *)
Definition re_tag : Js.regex :=
  one [Js.Lit (txt "<"); Js.Greedy (Js.not_char ">") 1; Js.Lit (txt ">")].

(** A code block, with or without an inner [code] element. *)
Definition re_pre : Js.regex :=
  [Js.Alt false [Js.Lit (txt "<pre><code>"); Js.Lazy Js.any_char 0;
                 Js.Lit (txt "</code></pre>")];
   Js.Alt false [Js.Lit (txt "<pre>"); Js.Lazy Js.any_char 0; Js.Lit (txt "</pre>")]].

(** An image: the tag name, one character or more up to the source
    attribute, its value between double quotes as group 1, the rest of the
    tag. *)
Definition re_img : Js.regex :=
  one [Js.Lit (txt "<img"); Js.Greedy (Js.not_char ">") 1; Js.Lit (txt "src=" ++ quote);
       Js.Greedy (Js.not_char "034") 1; Js.Lit quote; Js.Greedy (Js.not_char ">") 0;
       Js.Lit (txt ">")].

(** A line break, with optional white space and slash. *)
Definition re_br : Js.regex :=
  one [Js.Lit (txt "<br"); Js.Greedy Js.is_space 0; Js.Opt (txt "/"); Js.Lit (txt ">")].

(** Numeric character references, hexadecimal and decimal. *)
Definition re_hex : Js.regex :=
  one [Js.Lit (txt "&#x"); Js.Greedy Js.is_hex 1; Js.Lit (txt ";")].
Definition re_dec : Js.regex :=
  one [Js.Lit (txt "&#"); Js.Greedy Js.is_digit 1; Js.Lit (txt ";")].

(** Three line feeds or more. *)
Definition re_blank : Js.regex := one [Js.Greedy (Js.is_char "010") 3].

Definition slice (n : nat) (h : Js.hit) : str := nth n (Js.h_slices h) [].

(** [s.replace(re, template)] where group 1 is the text of atom [n]. *)
Definition sub1 (re : Js.regex) (n : nat) (template : str) (s : str) : str :=
  Js.replace_tpl re (fun h => [Js.group n 1 h]) template s.

(** [s.replace(re, template)] for a pattern without groups. *)
Definition sub0 (re : Js.regex) (template : str) (s : str) : str :=
  Js.replace_tpl re Js.no_groups template s.

(** *** Step 1: the code blocks *)

(** The text kept of a code block: [strong] and [em] markers are removed
    around their content, then every tag is removed. *)
Definition cleanContent (content : str) : str :=
  sub0 re_tag (txt "")
    (sub1 (element "em") 1 (txt "$1")
       (sub1 (element_with_attributes "strong") 3 (txt "$1") content)).

Definition fence (text : str) : str := txt "```" ++ newline ++ text ++ newline ++ txt "```".

Definition placeholder (preIndex : nat) : str :=
  txt "___PRE_BLOCK_" ++ Js.of_nat preIndex ++ txt "___".

(** [codeContent || preContent]: the group of the alternative that
    matched, the other group being [undefined]; an empty [codeContent] is
    falsy and leaves [undefined]. *)
Definition content_of (h : Js.hit) : option str :=
  match Js.h_alt h with
  | 0 => if decide (slice 1 h = []) then None else Some (slice 1 h)
  | _ => Some (slice 1 h)
  end.

(** The replacer of the first [replace], run over the matches from left to
    right: it fills [preBlocks] and leaves a placeholder for each block.
    [None] is the [TypeError] of calling [replace] on [undefined]. *)
Fixpoint extract (ps : list Js.piece) (preIndex : nat) (preBlocks : list str)
  : option (str * list str) :=
  match ps with
  | [] => Some ([], preBlocks)
  | Js.Keep c :: ps' =>
    match extract ps' preIndex preBlocks with
    | Some (s, blocks) => Some (c :: s, blocks)
    | None => None
    end
  | Js.Found h :: ps' =>
    match content_of h with
    | None => None
    | Some content =>
      match extract ps' (S preIndex) (preBlocks ++ [fence (cleanContent content)]) with
      | Some (s, blocks) => Some (placeholder preIndex ++ s, blocks)
      | None => None
      end
    end
  end.

(** *** Steps 2 to 6: the chain of replacements *)

(** [imageMap.get(src) || src] *)
Definition local_path (imageMap : list (str * str)) (src : str) : str :=
  match Media.map_get src imageMap with
  | Some p => if decide (p = []) then src else p
  | None => src
  end.

Definition inline_code (h : Js.hit) : str :=
  txt "`"
  ++ sub0 re_tag (txt "")
       (sub1 (element "sub") 1 (txt "_$1")
          (sub1 (element "sup") 1 (txt "^$1") (slice 1 h)))
  ++ txt "`".

Definition char_of (parse : str -> option Z) (h : Js.hit) : str :=
  match parse (slice 1 h) with
  | Some n => Js.fromCharCode n
  | None => []
  end.

Definition rewrite (imageMap : list (str * str)) (htmlWithPlaceholders : str) : str :=
  let s := htmlWithPlaceholders in
  let s := Js.replace_fn re_img
             (fun h => txt "![image](" ++ local_path imageMap (slice 3 h) ++ txt ")") s in
  let s := Js.replace_fn (element "code") inline_code s in
  let s := sub1 (element_with_attributes "strong") 3 (txt "**$1**") s in
  let s := sub1 (element "em") 1 (txt "*$1*") s in
  let s := sub0 (opening "ul") (txt "") s in
  let s := sub0 (literal "</ul>") (txt "") s in
  let s := sub0 (opening "ol") (txt "") s in
  let s := sub0 (literal "</ol>") (txt "") s in
  let s := sub1 (element "li") 1 (txt "- $1" ++ newline) s in
  let s := sub0 (opening "p") newline s in
  let s := sub0 (literal "</p>") newline s in
  let s := sub0 re_br newline s in
  let s := sub1 (element_with_attributes "h1") 3 (txt "# $1" ++ newline) s in
  let s := sub1 (element_with_attributes "h2") 3 (txt "## $1" ++ newline) s in
  let s := sub1 (element_with_attributes "h3") 3 (txt "### $1" ++ newline) s in
  let s := sub0 (opening "div") (txt "") s in
  let s := sub0 (literal "</div>") (txt "") s in
  let s := sub0 (opening "span") (txt "") s in
  let s := sub0 (literal "</span>") (txt "") s in
  let s := sub0 (opening "font") (txt "") s in
  let s := sub0 (literal "</font>") (txt "") s in
  let s := sub0 (literal "&nbsp;") (txt " ") s in
  let s := sub0 (literal "&lt;") (txt "<") s in
  let s := sub0 (literal "&gt;") (txt ">") s in
  let s := sub0 (literal "&le;") (txt "<=") s in
  let s := sub0 (literal "&ge;") (txt ">=") s in
  let s := sub0 (literal "&amp;") (txt "&") s in
  let s := sub0 (literal "&quot;") quote s in
  let s := sub0 (literal "&#39;") (txt "'") s in
  let s := sub0 (literal "&times;") ["215"] s in
  let s := sub0 (literal "&divide;") ["247"] s in
  let s := Js.replace_fn re_hex (fun h => char_of Js.parseInt16 h) s in
  let s := Js.replace_fn re_dec
             (fun h => char_of (Js.read_digits 10 Js.is_digit Js.dec_val None) h) s in
  let s := sub0 re_tag (txt "") s in
  let s := sub0 re_blank (newline ++ newline) s in
  Js.trim s.

(** *** Step 7: the blocks come back *)

(** [for (i = 0; i < preBlocks.length; i++)], with [i] counted from
    [preIndex]. *)
Fixpoint reinsert (preIndex : nat) (preBlocks : list str) (markdown : str) : str :=
  match preBlocks with
  | [] => markdown
  | block :: rest =>
    reinsert (S preIndex) rest (Js.replace_first (placeholder preIndex) block markdown)
  end.

(** [convertHtmlToMarkdown]; [None] is the promise rejected. *)
Definition convertHtmlToMarkdown (html : str) (imageMap : list (str * str)) : option str :=
  match extract (Js.scan re_pre 0 0 html) 0 [] with
  | Some (htmlWithPlaceholders, preBlocks) =>
    Some (reinsert 0 preBlocks (rewrite imageMap htmlWithPlaceholders))
  | None => None
  end.

(** *** The specification's reading of step 1 *)

(** Only the emphasis markers go. *)
Definition strip_emphasis (content : str) : str :=
  sub1 (element "em") 1 (txt "$1")
    (sub1 (element_with_attributes "strong") 3 (txt "$1") content).

Definition specified_block (content : str) : str := fence (strip_emphasis content).

(** A code block of a document. *)
Definition pre_block (content : str) : str := txt "<pre>" ++ content ++ txt "</pre>".
Definition pre_code_block (content : str) : str :=
  txt "<pre><code>" ++ content ++ txt "</code></pre>".

(** A content that holds no markup and no dollar sign. *)
Definition plain_content (content : str) : Prop :=
  Forall (fun c => c <> "<" /\ c <> "$") content.

(** A text in which no tag is left. *)
Definition tagless (s : str) : Prop := Js.exec_all re_tag s = [].

(** The body of a tag: characters other than the closing bracket, at
    least [need] of them, then the bracket. *)
Definition tag_body (need : nat) (t : str) : option (str * Js.matched) :=
  Js.greedy (Js.not_char ">") (Js.rmatch [Js.Lit (txt ">")]) need t.

(** No tag starts anywhere in a text. *)
Definition no_tag_in (t : str) : Prop :=
  forall p pre suf, t = pre ++ suf -> Js.match_here re_tag 0 p suf = None.

End Transcoder.

(* ================================================================== *)
(** ** One item: [downloadProblem] and the functions it queries *)
(* ================================================================== *)

Module Download.
Import Layout.

(** *** Answers of the remote catalogue *)

Record snippet : Type := Snippet { langSlug : str; code : str }.

(** The fields of a detail answer that decide the status of an item; an
    absent or [null] document is the empty string, which is as falsy. *)
Record question : Type := Question {
  content : str;
  codeSnippets : list snippet
}.

(** A request either fails in transport or brings back data. *)
Inductive reply (A : Type) : Type :=
| Unreachable (message : str)
| Data (d : A).
Arguments Unreachable {A} message.
Arguments Data {A} d.

(** What the outside answers while one item is downloaded. *)
Record remote : Type := Remote {
  cookies : bool;                                (* getSessionCookies() is not null *)
  paid : option bool;                            (* getUser(): null, or its [paid] field *)
  detail : nat -> reply (option question);       (* answer to the n-th detail query *)
  official : reply (option str);                 (* the official solution, when there is one *)
  community : str -> reply (option (list str));  (* the community solutions for a language *)
  images : list (str * str)                      (* the image map that processHtmlBody builds *)
}.

(** *** The queries *)

Definition fetchFromLeetCodeAPI {A} (r : remote) (answer : reply A) : str + A :=
  if negb (cookies r) then inl (txt "No session cookies found. Please login first.")
  else match answer with
       | Unreachable message => inl (txt "LeetCode API request failed: " ++ message)
       | Data d => inr d
       end.

Definition getProblemDescription (r : remote) (problemSlug : str) (attempt : nat)
  : str + question :=
  match fetchFromLeetCodeAPI r (detail r attempt) with
  | inl e => inl e
  | inr None => inl (txt "Failed to fetch problem: " ++ problemSlug)
  | inr (Some q) => inr q
  end.

(** [null], or the solution found. The markdown saved is this content
    after the rewriting of its images, which the status does not read. *)
Definition getOfficialSolution (r : remote) (problemSlug : str) : option str :=
  if decide (problemSlug = []) then None
  else if negb (cookies r) then None
  else match official r with
       | Data (Some solution) => Some solution
       | Data None => None
       | Unreachable _ => None
       end.

Inductive discuss : Type :=
| success (markdown : str)
| no_solution
| error.

Definition getDiscussSolution (r : remote) (problemSlug language : str) : discuss :=
  if decide (problemSlug = []) then no_solution
  else if negb (cookies r) then error
  else match community r language with
       | Data (Some (solution :: _)) => success solution
       | Data (Some []) => no_solution
       | Data None => no_solution
       | Unreachable _ => error
       end.

(** [await retryAsync(() => f(attempt))] with the default bounds; the
    world of the operation is the number of attempts made. *)
Definition retried {A} (f : nat -> str + A) : str + A :=
  match Retry.result_of
          (Retry.retryAsync (fun w => (f w, S w)) Retry.MAX_RETRIES Retry.RETRY_DELAY 0)
  with
  | Retry.Returned v => inr v
  | Retry.Thrown e => inl e
  | Retry.Fellthrough => inl (txt "TypeError")
  end.

(** *** The status of a download *)

Record tally : Type := Tally {
  success_flag : bool;
  count : Z;
  total : Z;
  languages : list str
}.

Record downloadStatus : Type := Status {
  problemId : str;
  problemName : str;
  description_success : bool;
  description_formats : list str;
  templates : tally;
  officialSolution : tally;
  communitySolutions : tally
}.

Definition with_templates (s : downloadStatus) (t : tally) : downloadStatus :=
  Status (problemId s) (problemName s) (description_success s) (description_formats s)
         t (officialSolution s) (communitySolutions s).
Definition with_officialSolution (s : downloadStatus) (t : tally) : downloadStatus :=
  Status (problemId s) (problemName s) (description_success s) (description_formats s)
         (templates s) t (communitySolutions s).
Definition with_communitySolutions (s : downloadStatus) (t : tally) : downloadStatus :=
  Status (problemId s) (problemName s) (description_success s) (description_formats s)
         (templates s) (officialSolution s) t.

(** The message of the [TypeError] that [convertHtmlToMarkdown] throws. *)
Definition type_error : str :=
  txt "Cannot read properties of undefined (reading 'replace')".

Definition session_expired_premium : str :=
  txt "SESSION_EXPIRED: Download premium content failed. Please re-login: leetcode-fetch logout && leetcode-fetch login".
Definition premium_required : str :=
  txt "Premium problem requires premium account".
Definition session_expired : str :=
  txt "SESSION_EXPIRED: Download failed. Session may have expired. Please re-login: leetcode-fetch logout && leetcode-fetch login".

(** [user && user.paid] *)
Definition isPremiumUser (r : remote) : bool :=
  match paid r with Some b => b | None => false end.

(** One turn of [for (const lang of filteredLanguages)] on the two tallies. *)
Definition language_step (CONFIG : Args.config) (r : remote) (problemSlug : str)
    (availableLanguages : list snippet) (acc : tally * tally) (lang : str)
  : tally * tally :=
  let '(tpl, com) := acc in
  let tpl' :=
    if Args.fetchTemplates CONFIG then
      match List.find (fun s => if decide (langSlug s = lang) then true else false)
                      availableLanguages with
      | Some s =>
        if decide (code s = []) then tpl
        else Tally (success_flag tpl) (count tpl + 1) (total tpl) (languages tpl ++ [lang])
      | None => tpl
      end
    else tpl in
  let com' :=
    if Args.fetchSolutions CONFIG && negb (if decide (problemSlug = []) then true else false) then
      match getDiscussSolution r problemSlug lang with
      | success _ =>
        Tally (success_flag com) (count com + 1) (total com) (languages com ++ [lang])
      | no_solution =>
        Tally (success_flag com) (count com) (total com - 1) (languages com)
      | error => com
      end
    else com in
  (tpl', com').

Definition mark (t : tally) : tally :=
  Tally (if (0 <? count t)%Z then true else success_flag t) (count t) (total t) (languages t).

(** [downloadProblem]: the status returned, or the message of the error
    thrown. The description is transcoded whatever the formats asked for;
    the files written are not part of the model, and writing them is taken
    to succeed. *)
Definition downloadProblem (r : remote) (problem : problem) (CONFIG : Args.config)
  : str + downloadStatus :=
  match retried (getProblemDescription r (slug problem)) with
  | inl e => inl e
  | inr questionData =>
    if decide (content questionData = []) then
      if locked problem && isPremiumUser r then inl session_expired_premium
      else if locked problem then inl premium_required
      else inl session_expired
    else
      match Transcoder.convertHtmlToMarkdown (content questionData) (images r) with
      | None => inl type_error
      | Some markdownBody =>
      let availableLanguages := codeSnippets questionData in
      let filteredLanguages := map langSlug availableLanguages in
      let problemSlug := slug problem in
      let officialSolution :=
        if Args.fetchOfficialSolution CONFIG
           && negb (if decide (problemSlug = []) then true else false) then
          match retried (fun _ => inr (getOfficialSolution r problemSlug)) with
          | inr (Some _) => Tally true 1 1 []
          | _ => Tally false 0 0 []
          end
        else Tally false 0 0 [] in
      let n := Z.of_nat (length filteredLanguages) in
      let '(tpl, com) :=
        fold_left (language_step CONFIG r problemSlug availableLanguages)
                  filteredLanguages
                  (Tally false 0 n [], Tally false 0 n []) in
      inr (Status (id problem) (name problem) true (Args.formats CONFIG)
                  (mark tpl) officialSolution (mark com))
      end
  end.

(** The variants of an item and, among them, those without an authored
    community answer. *)
Definition variants (q : question) : list str := map langSlug (codeSnippets q).

Definition answers (r : remote) (problemSlug : str) (langs : list str) (which : discuss -> bool)
  : Z :=
  Z.of_nat (length (List.filter (fun l => which (getDiscussSolution r problemSlug l)) langs)).

Definition is_success (d : discuss) : bool :=
  match d with success _ => true | _ => false end.
Definition is_no_solution (d : discuss) : bool :=
  match d with no_solution => true | _ => false end.
Definition is_error (d : discuss) : bool :=
  match d with error => true | _ => false end.

End Download.

(* ================================================================== *)
(** ** The batch run of [main]: progress store, workers and chunks *)
(* ================================================================== *)

Module Scheduler.
Import Layout Download.

(** *** Completion of an item *)

Definition isFullyComplete (CONFIG : Args.config) (status : downloadStatus) : bool :=
  description_success status
  && (negb (Args.fetchTemplates CONFIG)
      || (count (templates status) =? total (templates status))%Z)
  && (negb (Args.fetchOfficialSolution CONFIG)
      || (count (officialSolution status) =? total (officialSolution status))%Z)
  && (negb (Args.fetchSolutions CONFIG)
      || (count (communitySolutions status) =? total (communitySolutions status))%Z).

Definition ratio (t : tally) : str := Js.of_Z (count t) ++ txt "/" ++ Js.of_Z (total t).

Definition description_reason : str := txt "Description download failed".
Definition templates_reason (status : downloadStatus) : str :=
  txt "Templates incomplete: " ++ ratio (templates status).
Definition official_reason (status : downloadStatus) : str :=
  txt "Official solution incomplete: " ++ ratio (officialSolution status).
Definition community_reason (status : downloadStatus) : str :=
  txt "Community solutions incomplete: " ++ ratio (communitySolutions status).

Definition failureReasons (CONFIG : Args.config) (status : downloadStatus) : list str :=
  (if negb (description_success status) then [description_reason] else [])
  ++ (if Args.fetchTemplates CONFIG
         && (count (templates status) <? total (templates status))%Z
      then [templates_reason status] else [])
  ++ (if Args.fetchOfficialSolution CONFIG
         && (count (officialSolution status) <? total (officialSolution status))%Z
      then [official_reason status] else [])
  ++ (if Args.fetchSolutions CONFIG
         && (count (communitySolutions status) <? total (communitySolutions status))%Z
      then [community_reason status] else []).

(** *** The progress store *)

(** An entry of [failedProblems]; the time stamp is left out. *)
Record failure : Type := Failure {
  f_name : str;
  f_slug : str;
  f_reasons : list str;
  f_status : option (str * str * str * str)
}.

(** The object given to [fs.writeJson]. *)
Record progress : Type := Progress {
  p_completed : gset str;
  p_failed : gmap str failure
}.

(** What can be seen of a run, newest first. *)
Inductive observation : Type :=
| Dispatched (id : str)   (* downloadProblem was called for the item *)
| Merged (id : str)       (* the result of the item went into the store *)
| Fatal (id : str)        (* the item threw SESSION_EXPIRED *)
| Written (id : str)      (* the write started by the item's worker is done *)
| Exit.                   (* process.exit(1) *)

(** The variables that the workers of [main] share. *)
Record state : Type := State {
  completedProblems : gset str;
  failedProblems : gmap str failure;
  completed : nat;
  failed : nat;
  shouldStop : bool;
  progressFile : option progress;   (* what the last finished write left on disk *)
  exited : bool;
  trace : list observation
}.

Definition snapshot (st : state) : progress :=
  Progress (completedProblems st) (failedProblems st).

(** *** A worker *)

(** Where a worker of the current chunk stands. *)
Inductive phase : Type :=
| Returned_early                     (* it saw [shouldStop] and returned *)
| Downloading                        (* [await downloadProblem(...)] *)
| Writing (p : progress) (fatal : bool)  (* [await fs.writeJson(...)] *)
| Finished.

Definition failure_of_status (CONFIG : Args.config) (problem : problem) (status : downloadStatus)
  : failure :=
  Failure (name problem) (slug problem) (failureReasons CONFIG status)
          (Some (txt (if description_success status then "1/1" else "0/1"),
                 ratio (templates status),
                 ratio (officialSolution status),
                 ratio (communitySolutions status))).

Definition failure_of_exception (problem : problem) (message : str) : failure :=
  Failure (name problem) (slug problem) [txt "Exception: " ++ message] None.

Definition is_session_expired (message : str) : bool :=
  Js.startsWith (txt "SESSION_EXPIRED:") message.

(** The worker from the moment [downloadProblem] settles to its call of
    [fs.writeJson]: it merges the outcome into the shared variables and
    hands the store to the write. *)
Definition settle (CONFIG : Args.config) (problem : problem)
    (outcome : str + downloadStatus) (st : state) : state * phase :=
  match outcome with
  | inr status =>
    let st' :=
      if isFullyComplete CONFIG status then
        State ({[ id problem ]} ∪ completedProblems st)
              (delete (id problem) (failedProblems st))
              (S (completed st)) (failed st) (shouldStop st) (progressFile st)
              (exited st) (Merged (id problem) :: trace st)
      else
        State (completedProblems st)
              (<[ id problem := failure_of_status CONFIG problem status ]> (failedProblems st))
              (completed st) (S (failed st)) (shouldStop st) (progressFile st)
              (exited st) (Merged (id problem) :: trace st) in
    (st', Writing (snapshot st') false)
  | inl message =>
    if is_session_expired message then
      let st' :=
        State (completedProblems st) (failedProblems st) (completed st) (failed st)
              true (progressFile st) (exited st) (Fatal (id problem) :: trace st) in
      (st', Writing (snapshot st') true)
    else
      let st' :=
        State (completedProblems st)
              (<[ id problem := failure_of_exception problem message ]> (failedProblems st))
              (completed st) (S (failed st)) (shouldStop st) (progressFile st)
              (exited st) (Merged (id problem) :: trace st) in
      (st', Writing (snapshot st') false)
  end.

(** The worker once its write is done: it ends, or it leaves the process
    when the write was that of a fatal error. A write of the progress file
    is taken to succeed, and the file to hold what the last finished write
    was given. *)
Definition written (problem : problem) (p : progress) (fatal : bool) (st : state)
  : state * phase :=
  (State (completedProblems st) (failedProblems st) (completed st) (failed st)
         (shouldStop st) (Some p) fatal
         (if fatal then Exit :: Written (id problem) :: trace st
          else Written (id problem) :: trace st),
   Finished).

(** *** A chunk *)

(** The event loop resumes one worker at a time: worker [i] of the chunk
    when its download settles, or when its write is done. *)
Inductive event : Type :=
| Settle (i : nat)
| Done (i : nat).

Definition worker_of (e : event) : nat :=
  match e with Settle i => i | Done i => i end.

(** [batch.map(downloadWorker)]: every worker runs to its first [await]. *)
Fixpoint dispatch (batch : list problem) (st : state) : state * list phase :=
  match batch with
  | [] => (st, [])
  | problem :: batch' =>
    if shouldStop st then
      let '(st', phases) := dispatch batch' st in (st', Returned_early :: phases)
    else
      let '(st', phases) :=
        dispatch batch'
          (State (completedProblems st) (failedProblems st) (completed st) (failed st)
                 (shouldStop st) (progressFile st) (exited st)
                 (Dispatched (id problem) :: trace st)) in
      (st', Downloading :: phases)
  end.

Section chunk.
Variable CONFIG : Args.config.
(** What the outside answers for each item. *)
Variable outside : problem -> remote.

Definition step (batch : list problem) (st : state) (phases : list phase) (e : event)
  : state * list phase :=
  if exited st then (st, phases)
  else
    match batch !! worker_of e, phases !! worker_of e, e with
    | Some problem, Some Downloading, Settle i =>
      let '(st', ph) :=
        settle CONFIG problem (downloadProblem (outside problem) problem CONFIG) st in
      (st', <[ i := ph ]> phases)
    | Some problem, Some (Writing p fatal), Done i =>
      let '(st', ph) := written problem p fatal st in
      (st', <[ i := ph ]> phases)
    | _, _, _ => (st, phases)
    end.

(** What one event of the schedule can do. *)
Inductive stepped (batch : list problem) (st : state) (phases : list phase)
  : state -> list phase -> Prop :=
| stepped_idle : stepped batch st phases st phases
| stepped_settle i problem st' ph :
    exited st = false ->
    batch !! i = Some problem ->
    phases !! i = Some Downloading ->
    settle CONFIG problem (downloadProblem (outside problem) problem CONFIG) st = (st', ph) ->
    stepped batch st phases st' (<[ i := ph ]> phases)
| stepped_written i problem p fatal :
    exited st = false ->
    batch !! i = Some problem ->
    phases !! i = Some (Writing p fatal) ->
    stepped batch st phases (fst (written problem p fatal st)) (<[ i := Finished ]> phases).

Fixpoint run_events (batch : list problem) (st : state) (phases : list phase)
    (schedule : list event) : state * list phase :=
  match schedule with
  | [] => (st, phases)
  | e :: schedule' =>
    let '(st', phases') := step batch st phases e in
    run_events batch st' phases' schedule'
  end.

Definition ended (ph : phase) : bool :=
  match ph with
  | Returned_early | Finished => true
  | Downloading | Writing _ _ => false
  end.

(** [for (i = 0; i < length; i += concurrency)]: the chunks are
    dispatched one after the other, each under its own schedule; the loop
    goes on to the next chunk when [Promise.all] has resolved and
    [shouldStop] is not set. A schedule that leaves a worker in flight
    leaves the run waiting. *)
Fixpoint run_chunks (batches : list (list problem)) (schedules : list (list event))
    (st : state) : state :=
  match batches with
  | [] => st
  | batch :: batches' =>
    let '(st1, phases) := dispatch batch st in
    let '(st2, phases') :=
      run_events batch st1 phases (hd [] schedules) in
    if exited st2 then st2
    else if forallb ended phases' then
      if shouldStop st2 then st2
      else run_chunks batches' (tl schedules) st2
    else st2
  end.

End chunk.

(** [problemsToDownload.slice(i, i + concurrency)] for the successive [i],
    for a concurrency above zero, which is what [parseArgs] returns. *)
Fixpoint chunks_upto {A} (fuel : nat) (concurrency : nat) (l : list A) : list (list A) :=
  match fuel with
  | 0 => []
  | S fuel' =>
    match l with
    | [] => []
    | _ :: _ => firstn concurrency l :: chunks_upto fuel' concurrency (skipn concurrency l)
    end
  end.

Definition chunks {A} (concurrency : nat) (l : list A) : list (list A) :=
  chunks_upto (length l) concurrency l.

(** The items left after the locked ones are skipped and those already in
    [completedProblems] passed over. *)
Definition problemsToDownload (isPremiumUser : bool) (done : gset str)
    (problems : list problem) : list problem :=
  List.filter
    (fun problem =>
       negb (locked problem && negb isPremiumUser)
       && negb (if decide (id problem ∈ done) then true else false))
    problems.

(** The state of [main] once the progress file has been read. *)
Definition initial (p : progress) : state :=
  State (p_completed p) (p_failed p) 0 0 false None false [].

(** The batch mode of [main], from the catalogue listed and the progress
    read to the state in which the run stands at the end of the schedules. *)
Definition main (CONFIG : Args.config) (outside : problem -> remote)
    (isPremiumUser : bool) (problems : list problem) (read : progress)
    (schedules : list (list event)) : state :=
  run_chunks CONFIG outside
    (chunks (Z.to_nat (Args.concurrency CONFIG))
            (problemsToDownload isPremiumUser (p_completed read) problems))
    schedules (initial read).

(** The identifiers in a trace. *)
Definition dispatched (tr : list observation) : list str :=
  flat_map (fun o => match o with Dispatched i => [i] | _ => [] end) tr.
Definition merged (tr : list observation) : list str :=
  flat_map (fun o => match o with Merged i => [i] | _ => [] end) tr.

Arguments dispatched : simpl never.
Arguments merged : simpl never.

(** An identifier has its result in a progress object. *)
Definition recorded (i : str) (p : progress) : Prop :=
  i ∈ p_completed p \/ i ∈ dom (p_failed p).

(** The two halves of a progress object do not overlap. *)
Definition exclusive (p : progress) : Prop :=
  p_completed p ## dom (p_failed p).

(** What the run keeps true of the progress store, for the chunk [batch]
    in flight and the items [rest] of the chunks to come: the store, the
    file and every object handed to a write are exclusive; no item still to
    be merged is in the completed set; nothing that the progress read had as
    completed was dispatched. *)
Definition kept (read : progress) (batch rest : list problem)
    (st : state) (phases : list phase) : Prop :=
  exclusive (snapshot st)
  /\ (forall p, progressFile st = Some p -> exclusive p)
  /\ (forall i p fatal, phases !! i = Some (Writing p fatal) -> exclusive p)
  /\ (forall i problem, batch !! i = Some problem -> phases !! i = Some Downloading ->
      id problem ∉ completedProblems st)
  /\ (forall problem, In problem rest -> id problem ∉ completedProblems st)
  /\ (forall j, In j (dispatched (trace st)) -> j ∉ p_completed read).

(** How a run stands once a worker has left the process on a fatal error:
    the exit is the last thing observed, the file is the one written by the
    worker of the fatal item, and it holds the results merged before the
    fatal error, and nothing that was not read or merged before it. *)
Definition fatal_end (read : progress) (st : state) : Prop :=
  exists fatal mid before p,
    trace st = Exit :: Written fatal :: mid ++ Fatal fatal :: before
    /\ progressFile st = Some p
    /\ shouldStop st = true
    /\ (forall j, In j (merged before) -> recorded j p)
    /\ (forall j, recorded j p -> recorded j read \/ In j (merged before)).

(** What the run keeps true of the trace: the results merged are in the
    store, the store holds nothing else beyond what was read, and a write
    pending for a fatal error carries the store as it was when the error
    was seen. *)
Definition tracked (read : progress) (batch : list problem)
    (st : state) (phases : list phase) : Prop :=
  (forall j, In j (merged (trace st)) -> recorded j (snapshot st))
  /\ (forall j, recorded j (snapshot st) -> recorded j read \/ In j (merged (trace st)))
  /\ (forall i problem p,
        batch !! i = Some problem -> phases !! i = Some (Writing p true) ->
        shouldStop st = true
        /\ exists mid before,
             trace st = mid ++ Fatal (id problem) :: before
             /\ (forall j, In j (merged before) -> recorded j p)
             /\ (forall j, recorded j p -> recorded j read \/ In j (merged before)))
  /\ (exited st = true -> fatal_end read st).

(** The abort as the specification words it: at the exit, every item that
    was dispatched, other than the one with the fatal error, has its result
    in the progress file. *)
Definition finishes_dispatched (st : state) : Prop :=
  exited st = true ->
  forall j, In j (dispatched (trace st)) -> ~ In (Fatal j) (trace st) ->
  exists p, progressFile st = Some p /\ recorded j p.

End Scheduler.

(* ================================================================== *)
(** ** What a match can hold *)
(* ================================================================== *)

Module Matching.

(** The text that an atom of a pattern can consume. *)
Definition consumes (a : Js.atom) (sl : str) : Prop :=
  match a with
  | Js.Lit l => sl = l
  | Js.Opt l => sl = l \/ sl = []
  | Js.One p => exists c, sl = [c] /\ p c = true
  | Js.Greedy p lo => Forall (fun c => p c = true) sl /\ lo <= length sl
  | Js.Lazy p lo => Forall (fun c => p c = true) sl /\ lo <= length sl
  | Js.Eol => sl = []
  end.

(** A match of the regular expression [re] inside the text [s]: what is
    before it, the alternative that matched and the text of each atom. *)
Definition occurs (re : Js.regex) (s : str) (h : Js.hit) : Prop :=
  exists pre a,
    s = pre ++ Js.h_text h ++ Js.h_after h
    /\ Js.h_index h = length pre
    /\ re !! Js.h_alt h = Some a
    /\ Forall2 consumes (Js.atoms a) (Js.h_slices h)
    /\ (Js.bol a = true -> pre = [])
    /\ (In Js.Eol (Js.atoms a) -> Js.h_after h = []).

End Matching.

(* ================================================================== *)
(** ** Links of a saved description *)
(* ================================================================== *)

Module Links.

Definition getTagLink (tag : str) : str :=
  txt "https://leetcode.com/tag/" ++ Js.toLowerCase (Layout.sanitizeFolderName tag).

(** [url.replace('/description/', '/submissions/')]: a string pattern, so
    the first occurrence only. *)
Definition getSubmissionLink (url : str) : str :=
  Js.replace_first (txt "/description/") (txt "/submissions/") url.

Definition getSolutionLink (url : str) : str :=
  Js.replace_first (txt "/description/") (txt "/solutions/") url.

(** The [url] that [downloadProblem] hands to the writers of the
    description. *)
Definition problem_url (slug : str) : str :=
  txt "https://leetcode.com/problems/" ++ slug ++ txt "/".

(** A slug as the catalogue writes them: lower-case letters, digits and
    hyphens, the hyphens alone and inside. *)
Definition is_slug (s : str) : Prop :=
  Forall (fun c => Layout.folder_char c = true) s /\ Layout.tidy s.

End Links.

(* ================================================================== *)
(** ** The counters of a batch run *)
(* ================================================================== *)

Module Summary.
Import Layout Scheduler.

(** The variables of the loop of [main] that fills [problemsToDownload]. *)
Record selection : Type := Selection {
  skipped : nat;
  alreadyDownloaded : nat;
  toDownload : list problem
}.

(** One turn of [for (let i = 0; i < problems.length; i++)]. *)
Definition select (isPremiumUser : bool) (completedProblems : gset str)
    (acc : selection) (problem : problem) : selection :=
  if locked problem && negb isPremiumUser then
    Selection (S (skipped acc)) (alreadyDownloaded acc) (toDownload acc)
  else if decide (id problem ∈ completedProblems) then
    Selection (skipped acc) (S (alreadyDownloaded acc)) (toDownload acc)
  else
    Selection (skipped acc) (alreadyDownloaded acc) (toDownload acc ++ [problem]).

Definition selected (isPremiumUser : bool) (completedProblems : gset str)
    (problems : list problem) : selection :=
  fold_left (select isPremiumUser completedProblems) problems (Selection 0 0 []).

(** The workers of a chunk whose download has not settled. *)
Definition in_flight (phases : list phase) : nat :=
  length (List.filter (fun ph => match ph with Downloading => true | _ => false end) phases).

(** What every event keeps true of the counters: the items counted are
    the results merged, and with the downloads in flight they are at most
    the items dispatched. *)
Definition counted (st : state) (phases : list phase) : Prop :=
  completed st + failed st = length (merged (trace st))
  /\ length (merged (trace st)) + in_flight phases <= length (dispatched (trace st)).

(** A run in which no session error has been met: no worker has left
    the process, the stop flag is down and no write is that of a fatal
    error. *)
Definition calm (st : state) (phases : list phase) : Prop :=
  exited st = false
  /\ shouldStop st = false
  /\ (forall i p fatal, phases !! i = Some (Writing p fatal) -> fatal = false)
  /\ (forall o, In o (trace st) -> o <> Exit /\ forall j, o <> Fatal j).

End Summary.

(* ================================================================== *)
(** ** The command line: [leetcode-fetch download] *)
(* ================================================================== *)

(** The entry point parses the arguments of the [download] command a
    first time, builds a second list of arguments from what it read, and
    gives that list to [main] of [download.js], which parses it with
    [parseArgs]. A number is an exact integer here, which a JavaScript
    number is below 2^53: arguments of at most fifteen characters. *)
Module Cli.

(** The object that [parseDownloadArgs] fills. A field that is [null],
    [undefined] or [NaN] is [None]: the handler only tests its truth. *)
Record parsed : Type := Parsed {
  problemId : option Z;
  formats : option str;
  skipTemplates : bool;
  skipSolutions : bool;
  skipOfficial : bool;
  concurrency : option Z
}.

Definition initial : parsed := Parsed None None false false false None.

Definition set_problemId (r : parsed) (v : option Z) : parsed :=
  Parsed v (formats r) (skipTemplates r) (skipSolutions r) (skipOfficial r) (concurrency r).
Definition set_formats (r : parsed) (v : option str) : parsed :=
  Parsed (problemId r) v (skipTemplates r) (skipSolutions r) (skipOfficial r) (concurrency r).
Definition set_skipTemplates (r : parsed) : parsed :=
  Parsed (problemId r) (formats r) true (skipSolutions r) (skipOfficial r) (concurrency r).
Definition set_skipSolutions (r : parsed) : parsed :=
  Parsed (problemId r) (formats r) (skipTemplates r) true (skipOfficial r) (concurrency r).
Definition set_skipOfficial (r : parsed) : parsed :=
  Parsed (problemId r) (formats r) (skipTemplates r) (skipSolutions r) true (concurrency r).
Definition set_concurrency (r : parsed) (v : option Z) : parsed :=
  Parsed (problemId r) (formats r) (skipTemplates r) (skipSolutions r) (skipOfficial r) v.

(** How [parseDownloadArgs] ends: it returns, or it prints the help and
    exits. *)
Inductive completion : Type :=
| Returned (r : parsed)
| Exited (status : Z).

(** The [for] loop over [args]; [args[++i]] past the end is [undefined],
    of which [parseInt] makes [NaN]. *)
Fixpoint parse_loop (result : parsed) (args : list str) : completion :=
  match args with
  | [] => Returned result
  | arg :: rest =>
    if Args.arg_is "--help" arg || Args.arg_is "-h" arg then Exited 0
    else if Args.arg_is "--formats" arg || Args.arg_is "-f" arg then
      match rest with
      | v :: rest' => parse_loop (set_formats result (Some v)) rest'
      | [] => Returned (set_formats result None)
      end
    else if Args.arg_is "--concurrency" arg || Args.arg_is "-c" arg then
      match rest with
      | v :: rest' => parse_loop (set_concurrency result (Js.parseInt10 v)) rest'
      | [] => Returned (set_concurrency result None)
      end
    else if Args.arg_is "--no-templates" arg then parse_loop (set_skipTemplates result) rest
    else if Args.arg_is "--no-solutions" arg then parse_loop (set_skipSolutions result) rest
    else if Args.arg_is "--no-official" arg then parse_loop (set_skipOfficial result) rest
    else if negb (Js.startsWith (txt "-") arg) then
      parse_loop (set_problemId result (Js.parseInt10 arg)) rest
    else parse_loop result rest
  end.

Definition parseDownloadArgs (args : list str) : completion := parse_loop initial args.

(** [if (n) push(n.toString())]: zero is as false as [NaN]. *)
Definition number_arg (flag : list str) (n : option Z) : list str :=
  match n with
  | Some z => if (z =? 0)%Z then [] else flag ++ [Js.of_Z z]
  | None => []
  end.

(** The list that the handler of [download] builds for [main]. *)
Definition downloadArgs (parsedArgs : parsed) : list str :=
  number_arg [] (problemId parsedArgs)
  ++ (match formats parsedArgs with
      | Some f => if decide (f = []) then [] else [txt "-f"; f]
      | None => []
      end)
  ++ number_arg [txt "-c"] (concurrency parsedArgs)
  ++ (if skipTemplates parsedArgs then [txt "--no-templates"] else [])
  ++ (if skipSolutions parsedArgs then [txt "--no-solutions"] else [])
  ++ (if skipOfficial parsedArgs then [txt "--no-official"] else []).

(** The handler: the configuration with which [main] of [download.js]
    runs, when both parsers return. *)
Definition download (args : list str) : Args.completion :=
  match parseDownloadArgs args with
  | Exited status => Args.Exited status
  | Returned parsedArgs => Args.parseArgs (downloadArgs parsedArgs)
  end.

(** The number that the second parser keeps of what the first one read. *)
Definition positive (n : option Z) : option Z :=
  match n with
  | Some z => if (0 <? z)%Z then Some z else None
  | None => None
  end.

End Cli.

(* ================================================================== *)
(** ** The catalogue: [listProblems] *)
(* ================================================================== *)

Module Catalogue.
Import Layout Download.

(** An entry of a page of the catalogue; of the tags only the slugs are
    read. *)
Record entry : Type := Entry {
  questionFrontendId : str;
  title : str;
  titleSlug : str;
  e_difficulty : str;
  isPaidOnly : bool;
  topicTags : list str;
  companyTags : option (list str)
}.

(** [data.data.problemsetQuestionList] *)
Record page : Type := Page {
  total : Z;
  questions : list entry
}.

Definition problem_of (q : entry) : problem :=
  Problem (questionFrontendId q) (title q) (titleSlug q) (e_difficulty q) (isPaidOnly q)
          (topicTags q)
          (match companyTags q with Some companies => companies | None => [] end).

Definition limit : Z := 100.

(** The [do ... while (skip < total)] loop, [answer skip] being what the
    query for the page that starts at [skip] brings back. The loop goes on
    for as long as the totals announced say; [None] is the fuel of the
    model running out. *)
Fixpoint pages (fuel : nat) (r : remote) (answer : Z -> reply (option page))
    (skip : Z) (problems : list problem) : option (str + list problem) :=
  match fuel with
  | 0 => None
  | S fuel' =>
    match fetchFromLeetCodeAPI r (answer skip) with
    | inl e => Some (inl e)
    | inr None => Some (inl (txt "Failed to fetch problems list"))
    | inr (Some result) =>
      let problems' := problems ++ map problem_of (questions result) in
      if (skip + limit <? total result)%Z
      then pages fuel' r answer (skip + limit)%Z problems'
      else Some (inr problems')
    end
  end.

Definition listProblems (fuel : nat) (r : remote) (answer : Z -> reply (option page))
  : option (str + list problem) :=
  pages fuel r answer 0 [].

(** The number of pages of a catalogue of [total] entries: one at least. *)
Definition page_count (total : Z) : nat := Z.to_nat (Z.max 1 ((total + 99) / 100)).

End Catalogue.

(* ================================================================== *)
(** ** The session file: [session.js] *)
(* ================================================================== *)

Module Session.

(** The object kept in the session file. A field is absent or holds a
    value of its kind; values of other kinds are outside the model. *)
Record userData : Type := UserData {
  sessionId : option str;
  sessionCSRF : option str;
  name : option str;
  paid : option bool
}.

(** The session file: not there, there with a content that cannot be
    read as an object, or there with an object. *)
Inductive file : Type :=
| Missing
| Unreadable
| Stored (d : userData).

(** A string that is there and not empty. *)
Definition truthy (s : option str) : option str :=
  match s with
  | Some v => if decide (v = []) then None else Some v
  | None => None
  end.

Record cookies : Type := Cookies { session : str; csrf : str }.

Definition getSessionCookies (f : file) : option cookies :=
  match f with
  | Stored d =>
    match truthy (sessionId d), truthy (sessionCSRF d) with
    | Some s, Some c => Some (Cookies s c)
    | _, _ => None
    end
  | _ => None
  end.

Record user : Type := User { u_name : str; u_paid : bool }.

Definition getUser (f : file) : option user :=
  match f with
  | Stored d =>
    Some (User (match truthy (name d) with Some n => n | None => txt "Unknown" end)
               (match paid d with Some b => b | None => false end))
  | _ => None
  end.

Definition existsSync (f : file) : bool :=
  match f with Missing => false | _ => true end.

Definition isLoggedIn (f : file) : bool :=
  existsSync f && match getSessionCookies f with Some _ => true | None => false end.

(** [saveSession]: the file after the call and the value returned;
    [writable] is whether the directory can be made and the file written,
    and a write that fails is taken to leave the file as it was. *)
Definition saveSession (data : userData) (writable : bool) (f : file) : file * bool :=
  if writable then (Stored data, true) else (f, false).

(** [clearSession]; [removable] is whether the file can be unlinked. *)
Definition clearSession (removable : bool) (f : file) : file * bool :=
  if existsSync f then
    if removable then (Missing, true) else (f, false)
  else (f, true).

(** [verifySession]: the value returned and the number of requests sent;
    [answer] is what the query brings back, [Some b] being an answer that
    holds [userStatus] with [isSignedIn] equal to [b]. *)
Definition verifySession (f : file) (answer : Download.reply (option bool)) : bool * nat :=
  match getSessionCookies f with
  | None => (false, 0)
  | Some _ =>
    match answer with
    | Download.Data (Some isSignedIn) => (isSignedIn, 1)
    | _ => (false, 1)
    end
  end.

(** What [download.js] sees of the session file. *)
Definition seen (f : file) : bool * option bool :=
  (match getSessionCookies f with Some _ => true | None => false end,
   match getUser f with Some u => Some (u_paid u) | None => None end).

End Session.

(* ================================================================== *)
(** ** The line printed for an item: [displayDownloadStatus] *)
(* ================================================================== *)

Module Display.
Import Layout Download.

(** [problem.tags && problem.tags.length > 0 ? problem.tags[0] :
    'uncategorized'] *)
Definition tag (problem : problem) : str :=
  match tags problem with
  | t :: _ => t
  | [] => txt "uncategorized"
  end.

Definition relativePath (problem : problem) : str :=
  Js.path_join [txt "downloads"; sanitizeFolderName (tag problem); problemFolder problem].

Definition descSuccess (status : downloadStatus) : bool := description_success status.
Definition templatesSuccess (status : downloadStatus) : bool :=
  (count (templates status) =? total (templates status))%Z.
Definition officialSuccess (status : downloadStatus) : bool :=
  (count (officialSolution status) =? total (officialSolution status))%Z.
Definition communitySuccess (status : downloadStatus) : bool :=
  (count (communitySolutions status) =? total (communitySolutions status))%Z.

(** The line shows the check mark when this holds, the warning sign when
    it does not. *)
Definition allSuccess (status : downloadStatus) : bool :=
  descSuccess status && templatesSuccess status && officialSuccess status
  && communitySuccess status.

End Display.
(* ================================================================== *)
(** ** The description as HTML: [processHtmlBody] *)
(* ================================================================== *)

(** As for the images of a markdown document, the folder of the images
    is taken to be there when it is asked for. *)
Module Html.
Import Media.

#[local] Open Scope char_scope.

(** The pattern of an image tag, with the [g] flag: the one that the
    transcoder uses as well. *)
Definition imgRegex : Js.regex := Transcoder.re_img.

(** [match[1]], the text of atom 3. *)
Definition src_of (h : Js.hit) : str := Transcoder.slice 3 h.

(** A carriage return or a line feed. *)
Definition is_break (c : ascii) : bool := Js.is_char "013" c || Js.is_char "010" c.

(** [/<pre>[\r\n]*([^]+?)[\r\n]*<\/pre>/g]; group 1 is the text of
    atom 2. *)
Definition re_block : Js.regex :=
  Transcoder.one
    [Js.Lit (txt "<pre>"); Js.Greedy is_break 0; Js.Lazy Js.any_char 1;
     Js.Greedy is_break 0; Js.Lit (txt "</pre>")].

(** A source that starts with a slash is taken on the site. *)
Definition fullUrl (imgUrl : str) : str :=
  if Js.startsWith (txt "/") imgUrl then txt "https://leetcode.com" ++ imgUrl else imgUrl.

(** The path, from the document, of the image saved under [imageIndex]. *)
Definition saved_as (imageIndex : nat) (imgUrl : str) : str :=
  txt "./images/" ++ Js.of_nat imageIndex ++ extension (fullUrl imgUrl).

Section processor.
(** [net n url]: the n-th request of the run, for [url], brings the image
    back and the file is written. *)
Variable net : nat -> str -> bool.

(** One turn of the [while] loop, for one match of [imgRegex]. *)
Definition visit (st : progress) (imgUrl : str) : progress :=
  match download net (fullUrl imgUrl) (requests st) with
  | (Retry.Thrown _, w, _) =>
    Progress (map_set imgUrl (fullUrl imgUrl) (imageMap st)) (imageIndex st) w
             (downloads st ++ [fullUrl imgUrl])
  | (_, w, _) =>
    Progress (map_set imgUrl (saved_as (imageIndex st) imgUrl) (imageMap st))
             (S (imageIndex st)) w (downloads st ++ [fullUrl imgUrl])
  end.

Definition found (html : str) : list str :=
  map src_of (Js.exec_all imgRegex html).

Definition scanned (html : str) : progress :=
  fold_left visit (found html) (Progress [] 0 0 []).

(** The replacer of the images: the tag is written anew with its source
    alone. *)
Definition img (imageMap : list (str * str)) (h : Js.hit) : str :=
  txt "<img src=" ++ Transcoder.quote
  ++ Transcoder.local_path imageMap (src_of h)
  ++ Transcoder.quote ++ txt ">".

(** [processHtmlBody]: the document rewritten and the map of the images. *)
Definition processHtmlBody (html : str) : str * list (str * str) :=
  let imageMap := imageMap (scanned html) in
  (Transcoder.sub1 re_block 2 (txt "<pre><code>$1</code></pre>")
     (Js.replace_fn imgRegex (img imageMap) html),
   imageMap).

End processor.

(** A text that neither starts nor ends with a line break, and is not
    empty. *)
Definition trimmed (core : str) : Prop :=
  match core with c :: _ => is_break c = false | [] => False end
  /\ is_break (List.last core "010") = false.

(** The tails of a literal start with characters that are neither an
    opening bracket nor a line break. *)
Definition tails_clear (l : str) : Prop :=
  forall l1 l2, l = l1 ++ l2 -> l1 <> [] -> l2 <> [] ->
    exists h t, l2 = h :: t /\ h <> "<" /\ is_break h = false.

(** What the map holds for a source: the address on the site when the
    download failed, the path of the file saved when it came. *)
Definition resolved (imageIndex : nat) (imgUrl v : str) : Prop :=
  v = fullUrl imgUrl \/ exists n, n < imageIndex /\ v = saved_as n imgUrl.

End Html.


(* ================================================================== *)
(** ** Concrete runs *)
(* ================================================================== *)

Module Scenario.
Import Layout Download Scheduler.

(** An operation that fails twice and then returns 42; its world is the
    number of invocations so far. *)
Definition flaky (w : nat) : (nat + nat) * nat :=
  (if w <? 2 then inl w else inr 42, S w).

Definition item (i n s : string) : problem :=
  Problem (txt i) (txt n) (txt s) (txt "Easy") false [txt "array"] [].

Definition two_sum : problem := item "1" "Two Sum" "two-sum".
Definition add_two : problem := item "2" "Add Two Numbers" "add-two-numbers".
Definition longest : problem := item "3" "Longest Substring" "longest-substring".

(** The session has silently expired: the detail query answers, with an
    empty document. *)
Definition expired : remote :=
  Remote true (Some false)
         (fun _ => Data (Some (Question [] [])))
         (Data None)
         (fun _ => Data (Some []))
         [].

(** A healthy answer: a document, templates for two languages, an official
    solution, a community answer for cpp and none for java. *)
Definition healthy : remote :=
  Remote true (Some false)
         (fun _ => Data (Some (Question (txt "<p>Given an array</p>")
                                        [Snippet (txt "cpp") (txt "class Solution {};");
                                         Snippet (txt "java") (txt "class Solution {}")])))
         (Data (Some (txt "## Approach")))
         (fun language =>
            if decide (language = txt "cpp") then Data (Some [txt "Use a hash map"])
            else Data (Some []))
         [].

(** The first item meets the expired session, the others a healthy one. *)
Definition outside (p : problem) : remote :=
  if decide (id p = txt "1") then expired else healthy.

Definition nothing_read : progress := Progress ∅ ∅.

(** The download of the first item settles and its write finishes before
    the download of the second item settles. *)
Definition first_fails_first : list (list event) :=
  [[Settle 0; Done 0; Settle 1; Done 1]].

Definition aborted : state :=
  main Args.default_config outside false [two_sum; add_two] nothing_read first_fails_first.

(** A progress read from an earlier run: item 9 completed, item 2 failed. *)
Definition earlier : progress :=
  Progress {[ txt "9" ]}
           (<[ txt "2" := Failure (txt "Add Two Numbers") (txt "add-two-numbers")
                                  [txt "Templates incomplete: 1/2"] None ]> ∅).

Definition resumed : state :=
  main Args.default_config (fun _ => healthy) false [add_two; longest] earlier
       [[Settle 1; Settle 0; Done 0; Done 1]].

(** The status that [downloadProblem] returns for the second item. *)
Definition add_two_status : downloadStatus :=
  Status (txt "2") (txt "Add Two Numbers") true [txt "html"; txt "md"; txt "raw"]
         (Tally true 2 2 [txt "cpp"; txt "java"])
         (Tally true 1 1 [])
         (Tally true 1 1 [txt "cpp"]).

(** Two templates saved out of three. *)
Definition partial : downloadStatus :=
  Status (txt "1") (txt "Two Sum") true [txt "md"]
         (Tally true 2 3 [txt "cpp"; txt "java"])
         (Tally true 1 1 [])
         (Tally true 2 2 [txt "cpp"; txt "java"]).

(** Three variants, one of which has no community answer. *)
Definition one_absent : downloadStatus :=
  Status (txt "1") (txt "Two Sum") true [txt "md"]
         (Tally true 3 3 [txt "cpp"; txt "java"; txt "c"])
         (Tally true 1 1 [])
         (Tally true 2 2 [txt "cpp"; txt "java"]).

End Scenario.

(* ================================================================== *)
(** ** More concrete cases *)
(* ================================================================== *)

Module Cases.
Import Layout Download Scheduler.

(** The download without templates. *)
Definition no_templates : Args.config :=
  Args.set_fetchTemplates Args.default_config false.

(** What [downloadProblem] returns for the second item of the scenarios
    when the templates are switched off. *)
Definition add_two_without_templates : downloadStatus :=
  Status (txt "2") (txt "Add Two Numbers") true [txt "html"; txt "md"; txt "raw"]
         (Tally false 0 2 [])
         (Tally true 1 1 [])
         (Tally true 1 1 [txt "cpp"]).

(** A description with an empty code block. *)
Definition empty_block : question :=
  Question (txt "Run it: <pre><code></code></pre> and see.") [].

Definition with_empty_block : remote :=
  Remote true (Some false) (fun _ => Data (Some empty_block)) (Data None)
         (fun _ => Data (Some [])) [].

(** A remote without session cookies. *)
Definition logged_out : remote :=
  Remote false None (fun _ => Data None) (Data None) (fun _ => Data (Some [])) [].

(** A catalogue of 150 entries, of which every page shows the same one. *)
Definition two_sum_entry : Catalogue.entry :=
  Catalogue.Entry (txt "1") (txt "Two Sum") (txt "two-sum") (txt "Easy") false
                  [txt "array"; txt "hash-table"] None.

Definition steady (skip : Z) : reply (option Catalogue.page) :=
  Data (Some (Catalogue.Page 150 [two_sum_entry])).

(** The same catalogue, of which the second page cannot be fetched. *)
Definition broken (skip : Z) : reply (option Catalogue.page) :=
  if (skip =? 0)%Z then Data (Some (Catalogue.Page 150 [two_sum_entry]))
  else Unreachable (txt "timeout").

(** A description with a figure taken on the site. *)
Definition figure : str :=
  txt "<p><img alt=" ++ Transcoder.quote ++ txt "tree" ++ Transcoder.quote
  ++ txt " src=" ++ Transcoder.quote ++ txt "/static/tree.png" ++ Transcoder.quote
  ++ txt "></p>".

End Cases.

(* ================================================================== *)
(** * Properties *)
(* ================================================================== *)

(** ** Retry executor *)

Section retry_facts.
Import Retry.
Context {W E A : Type}.
Variable fn : W -> (E + A) * W.

Lemma attempts_calls_le retries delay left i w :
  calls (trace_of (attempts fn retries delay left i w)) <= left.
Proof.
  revert i w. induction left as [|left IH]; intros i w; simpl; [lia|].
  destruct (fn w) as [[e|v] w1]; simpl; [|lia].
  destruct (i =? retries - 1); simpl; [lia|].
  specialize (IH (S i) w1).
  destruct (attempts fn retries delay left (S i) w1) as [[c w2] tr].
  unfold trace_of in *. simpl in *. lia.
Qed.

Lemma attempts_head_called retries delay left i w :
  1 <= left ->
  exists tl, trace_of (attempts fn retries delay left i w) = Called :: tl.
Proof.
  intros Hl. destruct left as [|left]; [lia|]. simpl.
  destruct (fn w) as [[e|v] w1]; [|eexists; reflexivity].
  destruct (i =? retries - 1); [eexists; reflexivity|].
  destruct (attempts fn retries delay left (S i) w1) as [[c w2] tr].
  eexists; reflexivity.
Qed.

Lemma calls_backoff delay from k tr :
  calls (backoff delay from k ++ tr) = k + calls tr.
Proof.
  revert from. induction k as [|k IH]; intros from; simpl; [reflexivity|].
  rewrite IH. reflexivity.
Qed.

(** After [k] failures that are not the last attempt, the loop is where it
    would be had it started at iteration [i + k], and it has produced [k]
    calls each followed by its linear wait. *)
Lemma attempts_skip_failures retries delay k :
  forall left i w,
    i + left = retries -> k < left ->
    (forall j, j < k -> fails fn j w) ->
    attempts fn retries delay left i w =
    let '(c, w2, tr) :=
      attempts fn retries delay (left - k) (i + k) (world_after fn k w) in
    (c, w2, backoff delay (i + 1) k ++ tr).
Proof.
  induction k as [|k IH]; intros left i w Hsum Hk Hfail.
  - simpl. rewrite Nat.sub_0_r, Nat.add_0_r.
    destruct (attempts fn retries delay left i w) as [[c w2] tr]. reflexivity.
  - destruct left as [|left]; [lia|].
    assert (H0 : fails fn 0 w) by (apply Hfail; lia).
    unfold fails, outcome in H0. simpl in H0.
    simpl attempts at 1.
    destruct (fn w) as [[e|v] w1] eqn:Hfn; simpl in H0; [|contradiction].
    assert (Hne : (i =? retries - 1) = false) by (apply Nat.eqb_neq; lia).
    rewrite Hne.
    rewrite (IH left (S i) w1); [|lia|lia|].
    + replace (S left - S k) with (left - k) by lia.
      replace (i + S k) with (S i + k) by lia.
      simpl world_after. rewrite Hfn. simpl snd.
      destruct (attempts fn retries delay (left - k) (S i + k) (world_after fn k w1))
        as [[c w2] tr].
      simpl. replace (S i + 1) with (S (i + 1)) by lia. reflexivity.
    + intros j Hj. specialize (Hfail (S j) ltac:(lia)).
      unfold fails, outcome in *. simpl in Hfail. rewrite Hfn in Hfail. exact Hfail.
Qed.

(** C3. For every operation and every maxAttempts n >= 1: the executor
    calls the operation at most n times; when attempts 1..i (i < n) have
    failed, the trace is i calls each followed by a wait of
    baseDelay * (its 1-based index), then the next call; an operation
    failing on attempts 1 and 2 and succeeding on attempt 3 returns the
    success value after exactly the waits baseDelay and 2 * baseDelay;
    and when all n attempts fail the error of attempt n is thrown
    unchanged. *)
Theorem retryAsync_contract (n delay : nat) (w : W) :
  1 <= n ->
  let r := retryAsync fn n delay w in
  calls (trace_of r) <= n
  /\ (forall i, 1 <= i -> i < n -> (forall j, j < i -> fails fn j w) ->
      exists tl, trace_of r = backoff delay 1 i ++ Called :: tl)
  /\ (forall v, 3 <= n -> fails fn 0 w -> fails fn 1 w -> outcome fn 2 w = inr v ->
      result_of r = Returned v
      /\ waits (trace_of r) = [delay; 2 * delay]
      /\ calls (trace_of r) = 3)
  /\ (forall e, (forall j, j < n -> fails fn j w) -> outcome fn (n - 1) w = inl e ->
      result_of r = Thrown e /\ calls (trace_of r) = n).
Proof.
  intros Hn r. subst r. unfold retryAsync.
  split; [apply attempts_calls_le|].
  split; [|split].
  - intros i Hi Hin Hfail.
    rewrite (attempts_skip_failures n delay i n 0 w); [|lia|lia|exact Hfail].
    destruct (attempts_head_called n delay (n - i) (0 + i) (world_after fn i w)) as [tl Htl];
      [lia|].
    destruct (attempts fn n delay (n - i) (0 + i) (world_after fn i w)) as [[c w2] tr].
    unfold trace_of in *. simpl in *. subst tr. exists tl. reflexivity.
  - intros v H3 F0 F1 Hok.
    rewrite (attempts_skip_failures n delay 2 n 0 w); [|lia|lia|].
    + destruct (n - 2) as [|m] eqn:Hm; [lia|].
      cbn [attempts]. unfold outcome in Hok.
      destruct (fn (world_after fn 2 w)) as [[e|v'] w1]; simpl in Hok; [discriminate|].
      injection Hok as ->. unfold result_of, trace_of. simpl.
      split; [reflexivity|]. split; [|reflexivity].
      rewrite Nat.mul_1_r, (Nat.mul_comm delay 2). reflexivity.
    + intros j Hj. destruct j as [|[|j]]; [exact F0|exact F1|lia].
  - intros e Hfail Hlast.
    rewrite (attempts_skip_failures n delay (n - 1) n 0 w); [|lia|lia|].
    + replace (n - (n - 1)) with 1 by lia. cbn [attempts].
      unfold outcome in Hlast.
      destruct (fn (world_after fn (n - 1) w)) as [[e'|v] w1]; simpl in Hlast; [|discriminate].
      injection Hlast as ->.
      rewrite Nat.eqb_refl. unfold result_of, trace_of. simpl. split; [reflexivity|].
      rewrite calls_backoff. simpl. lia.
    + intros j Hj. apply Hfail. lia.
Qed.

End retry_facts.

Lemma retryAsync_contract_witness :
  let r := Retry.retryAsync Scenario.flaky 3 1000 0 in
  Retry.calls (Retry.trace_of r) <= 3
  /\ (forall i, 1 <= i -> i < 3 -> (forall j, j < i -> Retry.fails Scenario.flaky j 0) ->
      exists tl, Retry.trace_of r = Retry.backoff 1000 1 i ++ Retry.Called :: tl)
  /\ (forall v, 3 <= 3 -> Retry.fails Scenario.flaky 0 0 -> Retry.fails Scenario.flaky 1 0 ->
      Retry.outcome Scenario.flaky 2 0 = inr v ->
      Retry.result_of r = Retry.Returned v
      /\ Retry.waits (Retry.trace_of r) = [1000; 2 * 1000]
      /\ Retry.calls (Retry.trace_of r) = 3)
  /\ (forall e, (forall j, j < 3 -> Retry.fails Scenario.flaky j 0) ->
      Retry.outcome Scenario.flaky (3 - 1) 0 = inl e ->
      Retry.result_of r = Retry.Thrown e /\ Retry.calls (Retry.trace_of r) = 3).
Proof. apply (retryAsync_contract Scenario.flaky 3 1000 0). lia. Defined.

(** ** Command line *)

Section args_facts.
Import Args.

Lemma parse_loop_positive n :
  forall args config,
    length args <= n ->
    (0 < concurrency config)%Z ->
    forall c, parse_loop config args = Returned c -> (0 < concurrency c)%Z.
Proof.
  induction n as [|n IH]; intros args config Hlen Hpos c.
  - destruct args; [|simpl in Hlen; lia]. simpl. intros [= <-]. exact Hpos.
  - destruct args as [|arg rest]; [simpl; intros [= <-]; exact Hpos|].
    simpl in Hlen. simpl.
    destruct (arg_is "--help" arg || arg_is "-h" arg); [discriminate|].
    destruct (arg_is "--formats" arg || arg_is "-f" arg).
    { destruct rest as [|v rest']; [discriminate|].
      apply IH; [simpl in Hlen; lia | exact Hpos]. }
    destruct (arg_is "--no-templates" arg); [apply IH; [lia|exact Hpos]|].
    destruct (arg_is "--no-solutions" arg); [apply IH; [lia|exact Hpos]|].
    destruct (arg_is "--no-official" arg); [apply IH; [lia|exact Hpos]|].
    destruct (arg_is "--concurrency" arg || arg_is "-c" arg).
    { destruct rest as [|v rest']; [intros [= <-]; exact Hpos|].
      simpl in Hlen.
      destruct (Js.parseInt10 v) as [z|]; [|apply IH; [lia|exact Hpos]].
      destruct (0 <? z)%Z eqn:Hz; [|apply IH; [lia|exact Hpos]].
      apply IH; [lia|]. simpl. apply Z.ltb_lt. exact Hz. }
    destruct (negb _); apply IH; solve [lia | exact Hpos].
Qed.

Lemma parse_loop_returns n :
  forall args config,
    length args <= n ->
    Forall plain args ->
    exists c, parse_loop config args = Returned c.
Proof.
  induction n as [|n IH]; intros args config Hlen Hplain.
  - destruct args; [|simpl in Hlen; lia]. eexists; reflexivity.
  - destruct args as [|arg rest]; [eexists; reflexivity|].
    simpl in Hlen. inversion Hplain as [|? ? Harg Hrest]; subst.
    unfold plain in Harg.
    apply orb_false_elim in Harg as [Harg Hf2].
    apply orb_false_elim in Harg as [Harg Hf1].
    apply orb_false_elim in Harg as [Hh1 Hh2].
    simpl. rewrite Hh1, Hh2, Hf1, Hf2. simpl.
    destruct (arg_is "--no-templates" arg); [apply IH; [lia|exact Hrest]|].
    destruct (arg_is "--no-solutions" arg); [apply IH; [lia|exact Hrest]|].
    destruct (arg_is "--no-official" arg); [apply IH; [lia|exact Hrest]|].
    destruct (arg_is "--concurrency" arg || arg_is "-c" arg).
    { destruct rest as [|v rest']; [eexists; reflexivity|].
      simpl in Hlen. inversion Hrest; subst.
      destruct (Js.parseInt10 v) as [z|]; [|apply IH; [lia|assumption]].
      destruct (0 <? z)%Z; apply IH; solve [lia | assumption]. }
    destruct (negb _); apply IH; solve [lia | assumption].
Qed.

Lemma concurrency_flag_step config flag rest :
  concurrency_flag flag = true ->
  parse_loop config (flag :: rest) =
  match rest with
  | v :: rest' =>
    match Js.parseInt10 v with
    | Some z => if (0 <? z)%Z then parse_loop (set_concurrency config z) rest'
                else parse_loop config rest'
    | None => parse_loop config rest'
    end
  | [] => Returned config
  end.
Proof.
  unfold concurrency_flag, arg_is. intros Hflag.
  assert (Hcases : flag = txt "--concurrency" \/ flag = txt "-c").
  { destruct (decide (flag = txt "--concurrency")); [left; assumption|].
    destruct (decide (flag = txt "-c")); [right; assumption|].
    simpl in Hflag. discriminate. }
  destruct Hcases as [-> | ->]; reflexivity.
Qed.


End args_facts.

Example parseArgs_ten :
  option_map Args.concurrency
    (match Args.parseArgs [txt "-c"; txt "10"; txt "--no-official"] with
     | Args.Returned c => Some c
     | _ => None
     end) = Some 10%Z.
Proof. vm_compute. reflexivity. Qed.

Example parseArgs_rejects :
  map (fun v => match Args.parseArgs [txt "2"; txt "--concurrency"; v] with
                | Args.Returned c => Some (Args.concurrency c)
                | _ => None
                end)
      [txt "0"; txt "-3"; txt "abc"; txt ""; txt "--no-templates"; txt " 7x"]
  = [Some 5; Some 5; Some 5; Some 5; Some 5; Some 7]%Z.
Proof. vm_compute. reflexivity. Qed.

(** ** Completion of an item *)

Section verdict_facts.
Import Layout Download Scheduler.

Lemma requested_iff (flag : bool) (a b : Z) :
  negb flag || (a =? b)%Z = true <-> (flag = true -> a = b).
Proof.
  destruct flag; simpl.
  - rewrite Z.eqb_eq. split; [intros H _; exact H | intros H; apply H; reflexivity].
  - split; [intros _ H; discriminate | reflexivity].
Qed.

Lemma isFullyComplete_iff CONFIG status :
  isFullyComplete CONFIG status = true <->
  description_success status = true
  /\ (Args.fetchTemplates CONFIG = true ->
      count (templates status) = total (templates status))
  /\ (Args.fetchOfficialSolution CONFIG = true ->
      count (officialSolution status) = total (officialSolution status))
  /\ (Args.fetchSolutions CONFIG = true ->
      count (communitySolutions status) = total (communitySolutions status)).
Proof.
  unfold isFullyComplete. rewrite !andb_true_iff, !requested_iff. tauto.
Qed.

Lemma settle_incomplete CONFIG problem status st :
  isFullyComplete CONFIG status = false ->
  failedProblems (fst (settle CONFIG problem (inr status) st)) !! id problem
  = Some (failure_of_status CONFIG problem status).
Proof.
  intros H. unfold settle. rewrite H. simpl. apply lookup_insert_eq.
Qed.


End verdict_facts.

(** ** One item *)

Section download_facts.
Import Layout Download Scheduler.

Lemma downloadProblem_returned r problem CONFIG status :
  downloadProblem r problem CONFIG = inr status ->
  exists q official_tally,
    retried (getProblemDescription r (slug problem)) = inr q
    /\ content q <> []
    /\ Transcoder.convertHtmlToMarkdown (content q) (images r) <> None
    /\ count official_tally = total official_tally
    /\ status =
       let acc := fold_left (language_step CONFIG r (slug problem) (codeSnippets q))
                            (variants q)
                            (Tally false 0 (Z.of_nat (length (variants q))) [],
                             Tally false 0 (Z.of_nat (length (variants q))) []) in
       Status (id problem) (name problem) true (Args.formats CONFIG)
              (mark (fst acc)) official_tally (mark (snd acc)).
Proof.
  unfold downloadProblem. intros Hstatus.
  destruct (retried (getProblemDescription r (slug problem))) as [e|q]; [discriminate|].
  exists q.
  destruct (decide (content q = [])) as [Hempty|Hcontent].
  { destruct (locked problem && _); [discriminate|]. destruct (locked problem); discriminate. }
  destruct (Transcoder.convertHtmlToMarkdown (content q) (images r)) as [markdownBody|];
    [|discriminate].
  unfold variants.
  destruct (fold_left _ _ _) as [tpl com].
  injection Hstatus as <-. eexists.
  split; [reflexivity|]. split; [exact Hcontent|]. split; [discriminate|].
  split; [|reflexivity].
  destruct (Args.fetchOfficialSolution CONFIG && _); [|reflexivity].
  destruct (getOfficialSolution r (slug problem)); reflexivity.
Qed.

Lemma language_step_community CONFIG r problemSlug available acc lang :
  Args.fetchSolutions CONFIG = true -> problemSlug <> [] ->
  snd (language_step CONFIG r problemSlug available acc lang) =
  match getDiscussSolution r problemSlug lang with
  | success _ =>
    Tally (success_flag (snd acc)) (count (snd acc) + 1) (total (snd acc))
          (languages (snd acc) ++ [lang])
  | no_solution =>
    Tally (success_flag (snd acc)) (count (snd acc)) (total (snd acc) - 1)
          (languages (snd acc))
  | error => snd acc
  end.
Proof.
  intros Hf Hs. destruct acc as [tpl com]. unfold language_step. rewrite Hf.
  destruct (decide _) as [Heq|_]; [contradiction|]. simpl.
  destruct (getDiscussSolution r problemSlug lang); reflexivity.
Qed.

Lemma answers_cons r problemSlug lang langs which :
  answers r problemSlug (lang :: langs) which =
  ((if which (getDiscussSolution r problemSlug lang) then 1 else 0)
   + answers r problemSlug langs which)%Z.
Proof.
  unfold answers. cbn [List.filter].
  destruct (which _); cbn [length]; lia.
Qed.

Lemma fold_community CONFIG r problemSlug available langs :
  Args.fetchSolutions CONFIG = true -> problemSlug <> [] ->
  forall acc,
    let com := snd (fold_left (language_step CONFIG r problemSlug available) langs acc) in
    count com = (count (snd acc) + answers r problemSlug langs is_success)%Z
    /\ total com = (total (snd acc) - answers r problemSlug langs is_no_solution)%Z.
Proof.
  intros Hf Hs. induction langs as [|lang langs IH]; intros acc.
  - unfold answers. simpl. lia.
  - cbn [fold_left]. cbv zeta in *. 
    destruct (IH (language_step CONFIG r problemSlug available acc lang)) as [Hc Ht].
    rewrite Hc, Ht, !answers_cons.
    rewrite (language_step_community CONFIG r problemSlug available acc lang Hf Hs).
    destruct (getDiscussSolution r problemSlug lang); simpl; lia.
Qed.

Lemma answers_partition r problemSlug langs :
  Z.of_nat (length langs) =
  (answers r problemSlug langs is_success
   + answers r problemSlug langs is_no_solution
   + answers r problemSlug langs is_error)%Z.
Proof.
  induction langs as [|lang langs IH]; [reflexivity|].
  rewrite !answers_cons. cbn [length]. rewrite Nat2Z.inj_succ, IH.
  destruct (getDiscussSolution r problemSlug lang); simpl; lia.
Qed.

Lemma community_reason_absent CONFIG status :
  (count (communitySolutions status) <? total (communitySolutions status))%Z = false ->
  ~ In (community_reason status) (failureReasons CONFIG status).
Proof.
  intros Hge. unfold failureReasons. rewrite Hge, andb_false_r, app_nil_r.
  rewrite !in_app_iff.
  intros [H | [H | H]].
  - destruct (negb _); simpl in H; [destruct H as [H|[]]; discriminate H | destruct H].
  - destruct (_ && _); simpl in H; [destruct H as [H|[]]; discriminate H | destruct H].
  - destruct (_ && _); simpl in H; [destruct H as [H|[]]; discriminate H | destruct H].
Qed.

(** C8. For every item and every variant of its community answers: a
    variant for which the query reports no authored answer lowers the
    total of the community tally by one and leaves its count alone, so
    that after the download the total is the number of variants minus the
    variants without an answer and the count is the number of answers
    saved; when no variant failed, the count equals the total, the
    community kind gives no failure reason, and the item is judged fully
    complete as soon as its templates are. *)
Theorem absent_answer_lowers_total r problem CONFIG q status :
  retried (getProblemDescription r (slug problem)) = inr q ->
  downloadProblem r problem CONFIG = inr status ->
  Args.fetchSolutions CONFIG = true ->
  slug problem <> [] ->
  let langs := variants q in
  (forall acc lang,
      getDiscussSolution r (slug problem) lang = no_solution ->
      let com' := snd (language_step CONFIG r (slug problem) (codeSnippets q) acc lang) in
      total com' = (total (snd acc) - 1)%Z /\ count com' = count (snd acc))
  /\ total (communitySolutions status)
     = (Z.of_nat (length langs) - answers r (slug problem) langs is_no_solution)%Z
  /\ count (communitySolutions status) = answers r (slug problem) langs is_success
  /\ (answers r (slug problem) langs is_error = 0%Z ->
      count (communitySolutions status) = total (communitySolutions status)
      /\ ~ In (community_reason status) (failureReasons CONFIG status)
      /\ ((Args.fetchTemplates CONFIG = true ->
           count (templates status) = total (templates status)) ->
          isFullyComplete CONFIG status = true
          /\ forall st,
               let st' := fst (settle CONFIG problem (inr status) st) in
               id problem ∈ completedProblems st'
               /\ failedProblems st' !! id problem = None)).
Proof.
  intros Hq Hstatus Hf Hs langs. subst langs.
  destruct (downloadProblem_returned r problem CONFIG status Hstatus)
    as (q' & off & Hq' & _ & _ & Hoff & ->).
  rewrite Hq in Hq'. injection Hq' as <-. cbv zeta.
  destruct (fold_community CONFIG r (slug problem) (codeSnippets q) (variants q) Hf Hs
              (Tally false 0 (Z.of_nat (length (variants q))) [],
               Tally false 0 (Z.of_nat (length (variants q))) [])) as [Hc Ht].
  cbn [snd count total] in Hc, Ht.
  split; [|split; [|split]].
  - intros acc lang Hno. cbv zeta.
    rewrite (language_step_community CONFIG r (slug problem) (codeSnippets q) acc lang Hf Hs).
    rewrite Hno. split; reflexivity.
  - cbn. exact Ht.
  - cbn. rewrite Hc. lia.
  - intros Herr.
    pose proof (answers_partition r (slug problem) (variants q)) as Hpart.
    assert (Heqc : count (mark (snd (fold_left
               (language_step CONFIG r (slug problem) (codeSnippets q)) (variants q)
               (Tally false 0 (Z.of_nat (length (variants q))) [],
                Tally false 0 (Z.of_nat (length (variants q))) []))))
             = total (mark (snd (fold_left
               (language_step CONFIG r (slug problem) (codeSnippets q)) (variants q)
               (Tally false 0 (Z.of_nat (length (variants q))) [],
                Tally false 0 (Z.of_nat (length (variants q))) []))))).
    { cbn [mark count total]. lia. }
    split; [exact Heqc|]. split.
    + apply community_reason_absent. cbn [communitySolutions].
      apply Z.ltb_ge. rewrite Heqc. lia.
    + intros Htpl.
      match goal with |- ?c = true /\ _ => assert (Hfull : c = true) end.
      { apply isFullyComplete_iff. cbn [description_success officialSolution communitySolutions].
        split; [reflexivity|]. split; [exact Htpl|]. split; intros _; assumption. }
      split; [exact Hfull|].
      intros st. cbv zeta. unfold settle. rewrite Hfull. cbn [fst completedProblems failedProblems id].
      split; [set_solver | apply lookup_delete_eq].
Qed.

Lemma retried_first_success {A} (f : nat -> str + A) k v :
  k < Retry.MAX_RETRIES ->
  (forall j, j < k -> exists e, f j = inl e) ->
  f k = inr v ->
  retried f = inr v.
Proof.
  unfold Retry.MAX_RETRIES. intros Hk Hfail Hok.
  unfold retried, Retry.retryAsync, Retry.MAX_RETRIES, Retry.result_of.
  destruct k as [|[|[|k]]]; [| | |lia].
  - cbn [Retry.attempts]. rewrite Hok. reflexivity.
  - destruct (Hfail 0) as [e0 H0]; [lia|].
    cbn [Retry.attempts]. rewrite H0. cbn. rewrite Hok. reflexivity.
  - destruct (Hfail 0) as [e0 H0]; [lia|]. destruct (Hfail 1) as [e1 H1]; [lia|].
    cbn [Retry.attempts]. rewrite H0. cbn. rewrite H1. cbn. rewrite Hok. reflexivity.
Qed.

(** C7. When the detail query of an item that is not locked brings back
    an empty document while the session cookies are present, be it at the
    first attempt or after failed ones, the error thrown starts with
    SESSION_EXPIRED: the worker sets the shared stop flag, records no
    failure for the item, writes the progress and leaves the process. *)
Theorem empty_document_is_fatal r problem CONFIG k q st :
  cookies r = true ->
  locked problem = false ->
  k < Retry.MAX_RETRIES ->
  (forall j, j < k ->
     (exists message, detail r j = Unreachable message) \/ detail r j = Data None) ->
  detail r k = Data (Some q) ->
  content q = [] ->
  exists message,
    downloadProblem r problem CONFIG = inl message
    /\ is_session_expired message = true
    /\ shouldStop (fst (settle CONFIG problem (inl message) st)) = true
    /\ failedProblems (fst (settle CONFIG problem (inl message) st)) = failedProblems st
    /\ failed (fst (settle CONFIG problem (inl message) st)) = failed st
    /\ exists p,
         snd (settle CONFIG problem (inl message) st) = Writing p true
         /\ exited (fst (written problem p true
                           (fst (settle CONFIG problem (inl message) st)))) = true.
Proof.
  intros Hcookies Hlocked Hk Hfail Hdata Hempty. exists session_expired.
  assert (Hq : retried (getProblemDescription r (slug problem)) = inr q).
  { apply (retried_first_success _ k q Hk).
    - intros j Hj. unfold getProblemDescription, fetchFromLeetCodeAPI. rewrite Hcookies.
      destruct (Hfail j Hj) as [[message ->] | ->]; eexists; reflexivity.
    - unfold getProblemDescription, fetchFromLeetCodeAPI. rewrite Hcookies, Hdata.
      reflexivity. }
  split.
  - unfold downloadProblem. rewrite Hq.
    destruct (decide (content q = [])); [|contradiction].
    rewrite Hlocked. reflexivity.
  - split; [reflexivity|]. unfold settle.
    replace (is_session_expired session_expired) with true by reflexivity.
    cbn. repeat split. eexists. split; reflexivity.
Qed.

End download_facts.

(** ** The batch run *)

Section scheduler_steps.
Import Layout Download Scheduler.
Variable CONFIG : Args.config.
Variable outside : problem -> remote.

(** The three ways in which a settled download changes the shared
    variables. *)
Lemma settle_cases problem outcome st :
  let '(st', ph) := settle CONFIG problem outcome st in
  exited st' = exited st
  /\ progressFile st' = progressFile st
  /\ ((completedProblems st' = {[ id problem ]} ∪ completedProblems st
       /\ failedProblems st' = delete (id problem) (failedProblems st)
       /\ trace st' = Merged (id problem) :: trace st
       /\ shouldStop st' = shouldStop st
       /\ ph = Writing (snapshot st') false)
      \/ (exists f,
           completedProblems st' = completedProblems st
           /\ failedProblems st' = <[ id problem := f ]> (failedProblems st)
           /\ trace st' = Merged (id problem) :: trace st
           /\ shouldStop st' = shouldStop st
           /\ ph = Writing (snapshot st') false)
      \/ (completedProblems st' = completedProblems st
          /\ failedProblems st' = failedProblems st
          /\ trace st' = Fatal (id problem) :: trace st
          /\ shouldStop st' = true
          /\ ph = Writing (snapshot st') true)).
Proof.
  unfold settle. destruct outcome as [message|status].
  - destruct (is_session_expired message); cbn.
    + split; [reflexivity|]. split; [reflexivity|]. right. right. repeat split.
    + split; [reflexivity|]. split; [reflexivity|]. right. left. eexists. repeat split.
  - destruct (isFullyComplete CONFIG status); cbn.
    + split; [reflexivity|]. split; [reflexivity|]. left. repeat split.
    + split; [reflexivity|]. split; [reflexivity|]. right. left. eexists. repeat split.
Qed.

Lemma step_stepped batch st phases e :
  let '(st', phases') := step CONFIG outside batch st phases e in
  stepped CONFIG outside batch st phases st' phases'.
Proof.
  unfold step. destruct (exited st) eqn:Hex; [apply stepped_idle|].
  destruct (batch !! worker_of e) as [problem|] eqn:Hb; [|apply stepped_idle].
  destruct (phases !! worker_of e) as [[| |p fatal|]|] eqn:Hp;
    destruct e as [i|i]; try apply stepped_idle; simpl in Hb, Hp.
  - destruct (settle CONFIG problem _ st) as [st' ph] eqn:Hs.
    eapply stepped_settle; eassumption.
  - apply (stepped_written CONFIG outside batch st phases i problem p fatal); assumption.
Qed.

(** A property kept by every event is kept by every schedule. *)
Lemma run_events_invariant (batch : list problem) (I : state -> list phase -> Prop) :
  (forall st phases st' phases',
      I st phases -> stepped CONFIG outside batch st phases st' phases' -> I st' phases') ->
  forall schedule st phases,
    I st phases ->
    let '(st', phases') := run_events CONFIG outside batch st phases schedule in
    I st' phases'.
Proof.
  intros Hkeep. induction schedule as [|e schedule IH]; intros st phases HI; simpl.
  - exact HI.
  - pose proof (step_stepped batch st phases e) as Hstep.
    destruct (step CONFIG outside batch st phases e) as [st1 phases1].
    apply IH. eapply Hkeep; eassumption.
Qed.

Lemma dispatch_spec batch :
  forall st,
    let '(st', phases) := dispatch batch st in
    completedProblems st' = completedProblems st
    /\ failedProblems st' = failedProblems st
    /\ shouldStop st' = shouldStop st
    /\ progressFile st' = progressFile st
    /\ exited st' = exited st
    /\ length phases = length batch
    /\ (forall i ph, phases !! i = Some ph -> ph = Downloading \/ ph = Returned_early)
    /\ (exists added,
          trace st' = added ++ trace st
          /\ merged added = []
          /\ (forall o, In o added -> exists problem, In problem batch /\ o = Dispatched (id problem))).
Proof.
  induction batch as [|problem batch IH]; intros st; simpl.
  - split_and!; try reflexivity.
    + intros i ph H. rewrite lookup_nil in H. discriminate.
    + exists []. split_and!; try reflexivity. intros o [].
  - destruct (shouldStop st) eqn:Hstop.
    + specialize (IH st). destruct (dispatch batch st) as [st' phases].
      destruct IH as (Hc & Hf & Hs & Hp & He & Hl & Hph & added & Ht & Hm & Ha).
      split_and!; try assumption.
      * rewrite Hs. exact Hstop.
      * simpl. rewrite Hl. reflexivity.
      * intros [|i] ph H; simpl in H; [injection H as <-; right; reflexivity|].
        eapply Hph; eassumption.
      * exists added. split_and!; try assumption.
        intros o Ho. destruct (Ha o Ho) as (q & Hq & ->). exists q. split; [right; exact Hq|reflexivity].
    + match goal with |- context [dispatch batch ?s] => specialize (IH s) end.
      destruct (dispatch batch _) as [st' phases]. cbn in IH.
      destruct IH as (Hc & Hf & Hs & Hp & He & Hl & Hph & added & Ht & Hm & Ha).
      split_and!; try assumption.
      * simpl. rewrite Hl. reflexivity.
      * intros [|i] ph H; simpl in H; [injection H as <-; left; reflexivity|].
        eapply Hph; eassumption.
      * exists (added ++ [Dispatched (id problem)]). rewrite <- app_assoc. simpl.
        split; [exact Ht|]. split.
        { unfold merged in *. rewrite flat_map_app, Hm. reflexivity. }
        intros o Ho. apply in_app_iff in Ho as [Ho|[<-|[]]].
        { destruct (Ha o Ho) as (q & Hq & ->). exists q. split; [right; exact Hq|reflexivity]. }
        exists problem. split; [left; reflexivity|reflexivity].
Qed.

(** The chunks are consecutive pieces of the list they cut. *)
Lemma chunks_upto_prefix {A} fuel n (l : list A) :
  exists rest, concat (chunks_upto fuel n l) ++ rest = l.
Proof.
  revert l. induction fuel as [|fuel IH]; intros l; simpl.
  - exists l. reflexivity.
  - destruct l as [|x l']; [exists []; reflexivity|].
    destruct (IH (skipn n (x :: l'))) as [rest Hrest].
    exists rest. cbn [concat]. rewrite <- app_assoc, Hrest. apply firstn_skipn.
Qed.

End scheduler_steps.

#[local] Set Warnings "-clear-no-such-hyp".

Section exclusivity.
Import Layout Download Scheduler.
Variable CONFIG : Args.config.
Variable outside : problem -> remote.
Variable read : progress.

Lemma NoDup_map_lookup {A B} (f : A -> B) (l : list A) i k x y :
  NoDup (map f l) -> l !! i = Some x -> l !! k = Some y -> f x = f y -> i = k.
Proof.
  revert i k. induction l as [|a l IH]; intros i k Hnd Hi Hk Hf.
  - rewrite lookup_nil in Hi. discriminate.
  - simpl in Hnd. apply NoDup_cons in Hnd as [Hnot Hnd].
    destruct i as [|i], k as [|k]; simpl in Hi, Hk.
    + reflexivity.
    + injection Hi as ->. exfalso. apply Hnot. rewrite Hf.
      apply list_elem_of_In, in_map, list_elem_of_In.
      eapply list_elem_of_lookup_2. exact Hk.
    + injection Hk as ->. exfalso. apply Hnot. rewrite <- Hf.
      apply list_elem_of_In, in_map, list_elem_of_In.
      eapply list_elem_of_lookup_2. exact Hi.
    + f_equal. eapply IH; eassumption.
Qed.

Lemma kept_step batch rest :
  NoDup (map id batch) ->
  (forall p q, In p batch -> In q rest -> id p <> id q) ->
  forall st phases st' phases',
    kept read batch rest st phases ->
    stepped CONFIG outside batch st phases st' phases' ->
    kept read batch rest st' phases'.
Proof.
  intros Hnd Hsep st phases st' phases' (Hex & Hfile & Hwr & Hdown & Hrest & Hdisp) Hstep.
  inversion Hstep as [| i problem st1 ph Hnot Hb Hp Hsettle | i problem p fatal Hnot Hb Hp]; subst.
  - repeat split; assumption.
  - pose proof (settle_cases CONFIG problem
                  (downloadProblem (outside problem) problem CONFIG) st) as Hcases.
    rewrite Hsettle in Hcases. destruct Hcases as (_ & Hpf & Hcases).
    assert (Hfresh : id problem ∉ completedProblems st) by (eapply Hdown; eassumption).
    assert (Hin : In problem batch).
    { apply list_elem_of_In. eapply list_elem_of_lookup_2. exact Hb. }
    assert (Hothers : forall k q, batch !! k = Some q ->
              <[ i := ph ]> phases !! k = Some Downloading ->
              ph <> Downloading ->
              k <> i /\ phases !! k = Some Downloading).
    { intros k q Hk Hlk Hne. apply list_lookup_insert_Some in Hlk
        as [(-> & Heq & _) | (Hik & Hlk)]; [congruence|]. split; [congruence|exact Hlk]. }
    assert (Hexcl' : exclusive (snapshot st')).
    { unfold exclusive, snapshot in *. simpl in *.
      destruct Hcases as [(Hc & Hf & _) | [(f & Hc & Hf & _) | (Hc & Hf & _)]];
        rewrite Hc, Hf.
      - rewrite dom_delete_L. set_solver.
      - rewrite dom_insert_L. set_solver.
      - exact Hex. }
    assert (Hph : exists fatal, ph = Writing (snapshot st') fatal).
    { destruct Hcases as [(_ & _ & _ & _ & ->) | [(f & _ & _ & _ & _ & ->) | (_ & _ & _ & _ & ->)]];
        eexists; reflexivity. }
    destruct Hph as [fatal ->].
    assert (Hcompl : forall x, x ∈ completedProblems st' ->
              x = id problem \/ x ∈ completedProblems st).
    { intros x Hx.
      destruct Hcases as [(Hc & _) | [(f & Hc & _) | (Hc & _)]]; rewrite Hc in Hx;
        [set_solver | right; exact Hx | right; exact Hx]. }
    assert (Htr : dispatched (trace st') = dispatched (trace st)).
    { destruct Hcases as [(_ & _ & Ht & _) | [(f & _ & _ & Ht & _) | (_ & _ & Ht & _)]];
        rewrite Ht; reflexivity. }
    split; [exact Hexcl'|]. split; [rewrite Hpf; exact Hfile|]. split; [|split; [|split]].
    + intros k p fatal' Hk.
      apply list_lookup_insert_Some in Hk as [(-> & Heq & _) | (_ & Hk)].
      * injection Heq as <- _. exact Hexcl'.
      * eapply Hwr. exact Hk.
    + intros k q Hk Hlk.
      destruct (Hothers k q Hk Hlk ltac:(discriminate)) as [Hne Hold].
      intros Hx. apply Hcompl in Hx as [Heq | Hx].
      * apply Hne. symmetry. eapply (NoDup_map_lookup id batch); eauto.
      * eapply Hdown; eassumption.
    + intros q Hq Hx. apply Hcompl in Hx as [Heq | Hx].
      * eapply Hsep; [exact Hin | exact Hq | symmetry; exact Heq].
      * eapply Hrest; eassumption.
    + rewrite Htr. exact Hdisp.
  - unfold written. cbn [fst]. unfold kept, exclusive, snapshot in *. cbn.
    split; [exact Hex|]. split; [|split; [|split; [|split]]].
    + intros p' [= <-]. eapply Hwr. exact Hp.
    + intros k p' fatal' Hk.
      apply list_lookup_insert_Some in Hk as [(-> & Heq & _) | (_ & Hk)]; [discriminate|].
      eapply Hwr. exact Hk.
    + intros k q Hk Hlk.
      apply list_lookup_insert_Some in Hlk as [(-> & Heq & _) | (_ & Hlk)]; [discriminate|].
      eapply Hdown; eassumption.
    + exact Hrest.
    + intros j Hj. apply Hdisp. destruct fatal; exact Hj.
Qed.

(** The exclusivity facts carried from one chunk to the next. *)
Lemma run_chunks_kept batches :
  forall schedules st,
    NoDup (map id (concat batches)) ->
    (forall problem, In problem (concat batches) -> id problem ∉ p_completed read) ->
    kept read [] (concat batches) st [] ->
    kept read [] [] (run_chunks CONFIG outside batches schedules st) [].
Proof.
  induction batches as [|batch batches IH]; intros schedules st Hnd Hnew Hk.
  - simpl in *. exact Hk.
  - simpl in Hnd, Hnew, Hk. cbn [run_chunks].
    rewrite map_app in Hnd. apply NoDup_app in Hnd as (Hnd1 & Hsep & Hnd2).
    destruct Hk as (Hex & Hfile & _ & _ & Hrest & Hdisp).
    pose proof (dispatch_spec batch st) as Hd.
    destruct (dispatch batch st) as [st1 phases].
    destruct Hd as (Hc & Hf & Hs & Hp & He & Hl & Hph & added & Ht & Hm & Ha).
    assert (Hk1 : kept read batch (concat batches) st1 phases).
    { unfold kept, exclusive, snapshot in *. cbn in *. rewrite Hc, Hf, Hp.
      split; [exact Hex|]. split; [exact Hfile|]. split; [|split; [|split]].
      - intros i p fatal Hi. destruct (Hph i _ Hi); discriminate.
      - intros i problem Hi _. apply Hrest. apply in_app_iff. left.
        apply list_elem_of_In. eapply list_elem_of_lookup_2. exact Hi.
      - intros problem Hin. apply Hrest. apply in_app_iff. right. exact Hin.
      - intros j Hj. rewrite Ht in Hj. unfold dispatched in Hj.
        rewrite flat_map_app in Hj. apply in_app_iff in Hj as [Hj | Hj].
        + apply in_flat_map in Hj as (o & Ho & Hjo).
          destruct (Ha o Ho) as (q & Hq & ->). simpl in Hjo. destruct Hjo as [<-|[]].
          apply Hnew. apply in_app_iff. left. exact Hq.
        + apply Hdisp. exact Hj. }
    assert (Hsep' : forall p q, In p batch -> In q (concat batches) -> id p <> id q).
    { intros p q Hp' Hq Heq. apply (Hsep (id p)).
      - apply list_elem_of_In, in_map. exact Hp'.
      - rewrite Heq. apply list_elem_of_In, in_map. exact Hq. }
    pose proof (run_events_invariant CONFIG outside batch
                  (kept read batch (concat batches))
                  (kept_step batch (concat batches) Hnd1 Hsep')
                  (hd [] schedules) st1 phases Hk1) as Hrun.
    destruct (run_events CONFIG outside batch st1 phases (hd [] schedules)) as [st2 phases2].
    assert (Hfinal : kept read [] [] st2 []).
    { destruct Hrun as (H1 & H2 & _ & _ & _ & H6).
      split; [exact H1|]. split; [exact H2|]. split; [|split; [|split]].
      - intros i p fatal Hi. rewrite lookup_nil in Hi. discriminate.
      - intros i problem Hi. rewrite lookup_nil in Hi. discriminate.
      - intros problem [].
      - exact H6. }
    destruct (exited st2); [exact Hfinal|].
    destruct (forallb ended phases2); [|exact Hfinal].
    destruct (shouldStop st2); [exact Hfinal|].
    apply IH.
    + exact Hnd2.
    + intros problem Hin. apply Hnew. apply in_app_iff. right. exact Hin.
    + destruct Hrun as (H1 & H2 & _ & _ & H5 & H6).
      split; [exact H1|]. split; [exact H2|]. split; [|split; [|split]].
      * intros i p fatal Hi. rewrite lookup_nil in Hi. discriminate.
      * intros i problem Hi. rewrite lookup_nil in Hi. discriminate.
      * exact H5.
      * exact H6.
Qed.

Lemma problemsToDownload_new premium done problems problem :
  In problem (problemsToDownload premium done problems) -> id problem ∉ done.
Proof.
  unfold problemsToDownload. intros Hin. apply filter_In in Hin as [_ Hf].
  apply andb_true_iff in Hf as [_ Hf].
  destruct (decide (id problem ∈ done)); [discriminate|assumption].
Qed.

Lemma NoDup_map_filter {A B} (f : A -> B) (p : A -> bool) (l : list A) :
  NoDup (map f l) -> NoDup (map f (List.filter p l)).
Proof.
  induction l as [|a l IH]; intros Hnd; simpl; [constructor|].
  simpl in Hnd. apply NoDup_cons in Hnd as [Hnot Hnd].
  destruct (p a); [|apply IH; exact Hnd].
  simpl. apply NoDup_cons. split; [|apply IH; exact Hnd].
  intros Hin. apply Hnot. apply list_elem_of_In in Hin. apply list_elem_of_In.
  apply in_map_iff in Hin as (x & Hx & Hin). apply in_map_iff. exists x.
  split; [exact Hx|]. apply filter_In in Hin as [Hin _]. exact Hin.
Qed.


End exclusivity.

Section abort.
Import Layout Download Scheduler.
Variable CONFIG : Args.config.
Variable outside : problem -> remote.
Variable read : progress.

Lemma recorded_merge_completed (x j : str) (c : gset str) (f : gmap str failure) :
  recorded j (Progress c f) -> recorded j (Progress ({[ x ]} ∪ c) (delete x f)).
Proof.
  unfold recorded. cbn. rewrite dom_delete_L.
  destruct (decide (j = x)) as [->|Hne]; set_solver.
Qed.

Lemma recorded_merge_failed (x j : str) (c : gset str) (f : gmap str failure) v :
  recorded j (Progress c f) -> recorded j (Progress c (<[ x := v ]> f)).
Proof. unfold recorded. cbn. rewrite dom_insert_L. set_solver. Qed.

Lemma recorded_after_completed (x j : str) (c : gset str) (f : gmap str failure) :
  recorded j (Progress ({[ x ]} ∪ c) (delete x f)) -> j = x \/ recorded j (Progress c f).
Proof.
  unfold recorded. cbn. rewrite dom_delete_L.
  destruct (decide (j = x)) as [->|Hne]; set_solver.
Qed.

Lemma recorded_after_failed (x j : str) (c : gset str) (f : gmap str failure) v :
  recorded j (Progress c (<[ x := v ]> f)) -> j = x \/ recorded j (Progress c f).
Proof.
  unfold recorded. cbn. rewrite dom_insert_L.
  destruct (decide (j = x)) as [->|Hne]; set_solver.
Qed.

Lemma tracked_step batch :
  forall st phases st' phases',
    tracked read batch st phases ->
    stepped CONFIG outside batch st phases st' phases' ->
    tracked read batch st' phases'.
Proof.
  intros st phases st' phases' (Hin & Hout & Hpend & Hend) Hstep.
  inversion Hstep as [| i problem st1 ph Hnot Hb Hp Hsettle | i problem p fatal Hnot Hb Hp]; subst.
  - exact (conj Hin (conj Hout (conj Hpend Hend))).
  - pose proof (settle_cases CONFIG problem
                  (downloadProblem (outside problem) problem CONFIG) st) as Hcases.
    rewrite Hsettle in Hcases. destruct Hcases as (Hex & Hpf & Hcases).
    destruct st as [c f n m s pf ex tr], st' as [c' f' n' m' s' pf' ex' tr'].
    unfold tracked, snapshot in *. cbn in *. subst ex' pf'.
    destruct Hcases as [(-> & -> & -> & -> & ->) | [(v & -> & -> & -> & -> & ->)
                                                  | (-> & -> & -> & -> & ->)]].
    + (* the item is complete *)
      split; [|split; [|split]].
      * intros j [<- | Hj]; [left; cbn; set_solver|].
        apply recorded_merge_completed. apply Hin. exact Hj.
      * intros j Hj. apply recorded_after_completed in Hj as [-> | Hj];
          [right; left; reflexivity|].
        destruct (Hout j Hj) as [Hr | Hm]; [left; exact Hr | right; right; exact Hm].
      * intros k q p Hk Hlk.
        apply list_lookup_insert_Some in Hlk as [(_ & Heq & _) | (_ & Hlk)]; [discriminate|].
        destruct (Hpend k q p Hk Hlk) as (Hs & mid & before & Ht & H1 & H2).
        split; [exact Hs|]. exists (Merged (id problem) :: mid), before.
        rewrite Ht. split_and!; first [reflexivity | assumption].
      * intros Heq. rewrite Heq in Hnot. discriminate.
    + (* a failure is recorded *)
      split; [|split; [|split]].
      * intros j [<- | Hj]; [right; cbn; rewrite dom_insert_L; set_solver|].
        apply recorded_merge_failed. apply Hin. exact Hj.
      * intros j Hj. apply recorded_after_failed in Hj as [-> | Hj];
          [right; left; reflexivity|].
        destruct (Hout j Hj) as [Hr | Hm]; [left; exact Hr | right; right; exact Hm].
      * intros k q p Hk Hlk.
        apply list_lookup_insert_Some in Hlk as [(_ & Heq & _) | (_ & Hlk)]; [discriminate|].
        destruct (Hpend k q p Hk Hlk) as (Hs & mid & before & Ht & H1 & H2).
        split; [exact Hs|]. exists (Merged (id problem) :: mid), before.
        rewrite Ht. split_and!; first [reflexivity | assumption].
      * intros Heq. rewrite Heq in Hnot. discriminate.
    + (* the error is fatal *)
      split; [exact Hin|]. split; [exact Hout|]. split.
      * intros k q p Hk Hlk. split; [reflexivity|].
        apply list_lookup_insert_Some in Hlk as [(-> & Heq & _) | (_ & Hlk)].
        { injection Heq as <-. rewrite Hb in Hk. injection Hk as <-.
          exists [], tr. split_and!; first [reflexivity | assumption]. }
        destruct (Hpend k q p Hk Hlk) as (Hs & mid & before & Ht & H1 & H2).
        exists (Fatal (id problem) :: mid), before.
        rewrite Ht. split_and!; first [reflexivity | assumption].
      * intros Heq. rewrite Heq in Hnot. discriminate.
  - destruct st as [c f n m s pf ex tr].
    unfold tracked, written, snapshot in *. cbn in *. subst ex.
    assert (Hm : merged (if fatal then Exit :: Written (id problem) :: tr
                         else Written (id problem) :: tr) = merged tr)
      by (destruct fatal; reflexivity).
    rewrite Hm.
    split; [exact Hin|]. split; [exact Hout|]. split.
    + intros k q p' Hk Hlk.
      apply list_lookup_insert_Some in Hlk as [(_ & Heq & _) | (_ & Hlk)]; [discriminate|].
      destruct (Hpend k q p' Hk Hlk) as (Hs & mid & before & Ht & H1 & H2).
      split; [exact Hs|].
      exists ((if fatal then [Exit; Written (id problem)] else [Written (id problem)]) ++ mid),
             before.
      rewrite Ht. split; [destruct fatal; reflexivity|]. split; assumption.
    + intros ->.
      destruct (Hpend i problem p Hb Hp) as (Hs & mid & before & Ht & H1 & H2).
      exists (id problem), mid, before, p. cbn. rewrite Ht. split_and!; first [reflexivity | assumption].
Qed.

Lemma run_chunks_tracked batches :
  forall schedules st,
    exited st = false ->
    tracked read [] st [] ->
    tracked read [] (run_chunks CONFIG outside batches schedules st) [].
Proof.
  induction batches as [|batch batches IH]; intros schedules st Hnot Hk.
  - exact Hk.
  - cbn [run_chunks].
    destruct Hk as (Hin & Hout & _ & _).
    pose proof (dispatch_spec batch st) as Hd.
    destruct (dispatch batch st) as [st1 phases].
    destruct Hd as (Hc & Hf & Hs & Hp & He & Hl & Hph & added & Ht & Hm & Ha).
    assert (Hmerged : merged (trace st1) = merged (trace st)).
    { rewrite Ht. unfold merged in *. rewrite flat_map_app, Hm. reflexivity. }
    assert (Hk1 : tracked read batch st1 phases).
    { unfold tracked, snapshot in *. rewrite Hc, Hf, Hmerged, He.
      split; [exact Hin|]. split; [exact Hout|]. split.
      - intros i problem p _ Hi. destruct (Hph i _ Hi); discriminate.
      - intros Heq. rewrite Heq in Hnot. discriminate. }
    pose proof (run_events_invariant CONFIG outside batch (tracked read batch)
                  (tracked_step batch) (hd [] schedules) st1 phases Hk1) as Hrun.
    destruct (run_events CONFIG outside batch st1 phases (hd [] schedules)) as [st2 phases2].
    assert (Hfinal : tracked read [] st2 []).
    { destruct Hrun as (H1 & H2 & _ & H4).
      split; [exact H1|]. split; [exact H2|]. split; [|exact H4].
      intros i problem p Hi. rewrite lookup_nil in Hi. discriminate. }
    destruct (exited st2) eqn:Hex2; [exact Hfinal|].
    destruct (forallb ended phases2); [|exact Hfinal].
    destruct (shouldStop st2); [exact Hfinal|].
    apply IH; [exact Hex2 | exact Hfinal].
Qed.


End abort.

Section scheduler_examples.
Import Layout Download Scheduler Scenario.

Example aborted_trace :
  trace aborted
  = [Exit; Written (txt "1"); Fatal (txt "1"); Dispatched (txt "2"); Dispatched (txt "1")].
Proof. vm_compute. reflexivity. Qed.

Example aborted_file : progressFile aborted = Some nothing_read.
Proof. vm_compute. reflexivity. Qed.

Example resumed_store :
  completedProblems resumed = {[ txt "2" ]} ∪ ({[ txt "3" ]} ∪ {[ txt "9" ]})
  /\ dom (failedProblems resumed) = ∅
  /\ (completed resumed, failed resumed) = (2, 0).
Proof.
  split; [|split].
  - apply (bool_decide_unpack _). vm_compute. exact I.
  - apply (bool_decide_unpack _). vm_compute. exact I.
  - vm_compute. reflexivity.
Qed.




End scheduler_examples.

Section item_examples.
Import Layout Download Scheduler Scenario.

Example add_two_downloaded :
  downloadProblem healthy add_two Args.default_config = inr add_two_status.
Proof. vm_compute. reflexivity. Qed.

Example two_sum_expired :
  downloadProblem expired two_sum Args.default_config = inl session_expired.
Proof. vm_compute. reflexivity. Qed.

Example one_absent_is_complete :
  isFullyComplete Args.default_config one_absent = true.
Proof. reflexivity. Qed.

Example partial_reasons :
  failureReasons Args.default_config partial = [txt "Templates incomplete: 2/3"].
Proof. vm_compute. reflexivity. Qed.


Lemma empty_document_is_fatal_witness :
  exists message,
    downloadProblem expired two_sum Args.default_config = inl message
    /\ is_session_expired message = true.
Proof.
  destruct (empty_document_is_fatal expired two_sum Args.default_config 0
              (Question [] []) (initial nothing_read)) as (message & H1 & H2 & _).
  - reflexivity.
  - reflexivity.
  - unfold Retry.MAX_RETRIES. lia.
  - intros j Hj. lia.
  - reflexivity.
  - reflexivity.
  - exists message. split; assumption.
Defined.

Lemma absent_answer_lowers_total_witness :
  total (communitySolutions add_two_status) = 1%Z
  /\ count (communitySolutions add_two_status) = 1%Z
  /\ isFullyComplete Args.default_config add_two_status = true.
Proof.
  destruct (absent_answer_lowers_total healthy add_two Args.default_config
              (Question (txt "<p>Given an array</p>")
                        [Snippet (txt "cpp") (txt "class Solution {};");
                         Snippet (txt "java") (txt "class Solution {}")])
              add_two_status) as (_ & Htotal & Hcount & Hfull).
  - vm_compute. reflexivity.
  - vm_compute. reflexivity.
  - reflexivity.
  - vm_compute. discriminate.
  - split; [exact Htotal|]. split; [exact Hcount|].
    destruct Hfull as (_ & _ & Hfull); [vm_compute; reflexivity|].
    apply Hfull. intros _. reflexivity.
Defined.


End item_examples.

(** ** Matching and searching *)

Section match_facts.
Import Js.

Lemma strip_prefix_app l s : strip_prefix l (l ++ s) = Some s.
Proof.
  induction l as [|a l IH]; simpl; [reflexivity|].
  rewrite Ascii.eqb_refl. exact IH.
Qed.

Lemma strip_prefix_head a l b s : a <> b -> strip_prefix (a :: l) (b :: s) = None.
Proof. intros Hne. simpl. apply Ascii.eqb_neq in Hne. rewrite Hne. reflexivity. Qed.

(** A lazy repetition goes over a stretch on which the rest of the
    pattern cannot start, and stops where it can. *)
Lemma lazy_span p (k : cont) r :
  forall pre t,
    Forall (fun c => p c = true /\ forall s, k (c :: s) = None) pre ->
    k t = Some r ->
    lazy p k 0 (pre ++ t) = Some (pre, r).
Proof.
  induction pre as [|c pre IH]; intros t Hpre Hk.
  - simpl. destruct t; simpl; rewrite Hk; reflexivity.
  - inversion Hpre as [|? ? [Hp Hnone] Hrest]; subst.
    simpl. rewrite Hnone, Hp. simpl. rewrite (IH t Hrest Hk). reflexivity.
Qed.

(** A greedy repetition takes the whole stretch of its class when the rest
    of the pattern matches right after it. *)
Lemma greedy_span p (k : cont) r :
  forall pre lo t,
    Forall (fun c => p c = true) pre ->
    lo <= length pre ->
    match t with c :: _ => p c = false | [] => True end ->
    k t = Some r ->
    greedy p k lo (pre ++ t) = Some (pre, r).
Proof.
  induction pre as [|c pre IH]; intros lo t Hpre Hlo Hstop Hk.
  - simpl in Hlo. assert (lo = 0) as -> by lia.
    destruct t as [|c t]; simpl; [rewrite Hk; reflexivity|].
    rewrite Hstop. simpl. rewrite Hk. reflexivity.
  - inversion Hpre as [|? ? Hp Hrest]; subst.
    simpl. rewrite Hp. rewrite (IH (pred lo) t Hrest); [reflexivity| |exact Hstop|exact Hk].
    simpl in Hlo. lia.
Qed.

(** The search steps over the text that a match has consumed. *)
Lemma scan_skip re :
  forall x pos t, scan re pos (length x) (x ++ t) = scan re (pos + length x) 0 t.
Proof.
  induction x as [|c x IH]; intros pos t; simpl.
  - rewrite Nat.add_0_r. reflexivity.
  - rewrite IH. f_equal. lia.
Qed.

(** Where no alternative can start, the search keeps the characters. *)
Lemma scan_keep re :
  forall x pos t,
    (forall c s p, In c x -> match_here re 0 p (c :: s) = None) ->
    scan re pos 0 (x ++ t) = map Keep x ++ scan re (pos + length x) 0 t.
Proof.
  induction x as [|c x IH]; intros pos t Hnone; simpl.
  - rewrite Nat.add_0_r. reflexivity.
  - rewrite (Hnone c (x ++ t) pos (or_introl eq_refl)).
    rewrite IH; [|intros; apply Hnone; right; assumption].
    replace (pos + S (length x)) with (S pos + length x) by lia. reflexivity.
Qed.

(** A match at the head of the input, which is not empty. *)
Lemma scan_found re pos x t i sls :
  x <> [] ->
  match_here re 0 pos (x ++ t) = Some (i, sls, t) ->
  concat sls = x ->
  scan re pos 0 (x ++ t) = Found (Hit i sls pos t) :: scan re (pos + length x) 0 t.
Proof.
  intros Hne Hm Hx. destruct x as [|c x]; [contradiction|].
  cbn [scan app]. change (c :: x ++ t) with ((c :: x) ++ t). rewrite Hm, Hx.
  cbn [length]. f_equal. rewrite scan_skip.
  replace (pos + S (length x)) with (S pos + length x) by lia. reflexivity.
Qed.

Lemma scan_end re pos :
  match_here re 0 pos [] = None -> scan re pos 0 [] = [].
Proof. intros H. simpl. rewrite H. reflexivity. Qed.

Lemma splice_app f ps qs : splice f (ps ++ qs) = splice f ps ++ splice f qs.
Proof.
  induction ps as [|[c|h] ps IH]; simpl; [reflexivity| |]; rewrite IH;
    [reflexivity | apply app_assoc].
Qed.

Lemma splice_keep f x : splice f (map Keep x) = x.
Proof. induction x as [|c x IH]; simpl; [reflexivity|]. rewrite IH. reflexivity. Qed.

Lemma hits_app ps qs : hits (ps ++ qs) = hits ps ++ hits qs.
Proof.
  induction ps as [|[c|h] ps IH]; simpl; [reflexivity|exact IH|]. rewrite IH. reflexivity.
Qed.

Lemma hits_keep x : hits (map Keep x) = [].
Proof. induction x as [|c x IH]; simpl; [reflexivity|exact IH]. Qed.

(** A template without a dollar sign stands for itself. *)
Lemma GetSubstitution_plain text before after captures template :
  Forall (fun c => c <> "$"%char) template ->
  GetSubstitution text before after captures template = template.
Proof.
  induction 1 as [|c t Hc _ IH]; simpl; [reflexivity|].
  apply Ascii.eqb_neq in Hc. rewrite Hc. simpl. rewrite IH. reflexivity.
Qed.

End match_facts.

Section pattern_facts.
Import Js.

Lemma rmatch_Lit l r s : rmatch (Lit l :: r) (l ++ s) = push l (rmatch r s).
Proof. cbn [rmatch]. rewrite strip_prefix_app. reflexivity. Qed.

Lemma rmatch_Lit_head a l r b s : a <> b -> rmatch (Lit (a :: l) :: r) (b :: s) = None.
Proof. intros Hne. cbn [rmatch]. rewrite strip_prefix_head by exact Hne. reflexivity. Qed.

Lemma rmatch_Opt_taken l r s m :
  rmatch r s = Some m -> rmatch (Opt l :: r) (l ++ s) = push l (Some m).
Proof.
  intros Hr. cbn [rmatch]. rewrite strip_prefix_app, Hr.
  destruct m as [sls rest]. reflexivity.
Qed.

Lemma rmatch_Opt_left l r s :
  strip_prefix l s = None -> rmatch (Opt l :: r) s = push [] (rmatch r s).
Proof. intros Hl. cbn [rmatch]. rewrite Hl. reflexivity. Qed.

Lemma rmatch_Lazy p r pre t sls rest :
  Forall (fun c => p c = true /\ forall s, rmatch r (c :: s) = None) pre ->
  rmatch r t = Some (sls, rest) ->
  rmatch (Lazy p 0 :: r) (pre ++ t) = Some (pre :: sls, rest).
Proof.
  intros Hpre Hr. cbn [rmatch].
  rewrite (lazy_span p (rmatch r) (sls, rest) pre t Hpre Hr). reflexivity.
Qed.

Lemma rmatch_Greedy p lo r pre t sls rest :
  Forall (fun c => p c = true) pre ->
  lo <= length pre ->
  match t with c :: _ => p c = false | [] => True end ->
  rmatch r t = Some (sls, rest) ->
  rmatch (Greedy p lo :: r) (pre ++ t) = Some (pre :: sls, rest).
Proof.
  intros Hpre Hlo Hstop Hr. cbn [rmatch].
  rewrite (greedy_span p (rmatch r) (sls, rest) pre lo t Hpre Hlo Hstop Hr). reflexivity.
Qed.

End pattern_facts.


(** ** Hyphens of a sanitized name *)

Section tidy_facts.
Import Js Layout.

(** *** The second replacement: runs of hyphens *)

Lemma hyphen_run_split (s : str) :
  exists n rest,
    s = repeat "-"%char n ++ rest
    /\ match rest with c :: _ => is_hyphen c = false | [] => True end.
Proof.
  induction s as [|c s (n & rest & -> & Hrest)].
  - exists 0, []. split; [reflexivity|exact I].
  - destruct (is_hyphen c) eqn:Hc.
    + unfold is_hyphen, is_char in Hc. apply Ascii.eqb_eq in Hc. subst c.
      exists (S n), rest. split; [reflexivity|exact Hrest].
    + exists 0, (c :: repeat "-"%char n ++ rest). split; [reflexivity|exact Hc].
Qed.

Lemma hyphens_found n rest pos :
  match rest with c :: _ => is_hyphen c = false | [] => True end ->
  match_here re_hyphens 0 pos (repeat "-"%char (S n) ++ rest)
  = Some (0, [repeat "-"%char (S n)], rest).
Proof.
  intros Hrest. unfold re_hyphens. cbn [match_here bol atoms].
  rewrite (rmatch_Greedy (is_char "-") 1 [] (repeat "-"%char (S n)) rest [] rest).
  - reflexivity.
  - apply Forall_forall. intros c Hc. apply list_elem_of_In, repeat_spec in Hc. subst c.
    reflexivity.
  - rewrite repeat_length. lia.
  - exact Hrest.
  - reflexivity.
Qed.

Lemma hyphens_absent c s pos :
  is_hyphen c = false -> match_here re_hyphens 0 pos (c :: s) = None.
Proof.
  intros Hc. unfold re_hyphens. cbn [match_here bol atoms rmatch greedy].
  unfold is_hyphen in Hc. cbv [is_char] in *. rewrite Hc. reflexivity.
Qed.

Lemma squeezed_spec k :
  forall s pos,
    length s <= k ->
    no_double (map is_hyphen (squeezed s pos)) = true
    /\ (match s with c :: _ => is_hyphen c = false | [] => True end ->
        hd false (map is_hyphen (squeezed s pos)) = false).
Proof.
  induction k as [|k IH]; intros s pos Hlen.
  - destruct s; [|simpl in Hlen; lia]. split; reflexivity.
  - destruct (hyphen_run_split s) as (n & rest & -> & Hrest).
    destruct n as [|n].
    + cbn [repeat app] in *. destruct rest as [|c rest]; [split; reflexivity|].
      unfold squeezed. cbn [scan]. rewrite (hyphens_absent c rest pos Hrest).
      cbn [splice map]. simpl in Hlen.
      destruct (IH rest (S pos)) as [Hnd _]; [lia|].
      fold (squeezed rest (S pos)). split; [|intros _; exact Hrest].
      destruct (map is_hyphen (squeezed rest (S pos))) as [|b bs] eqn:Hm; [reflexivity|].
      cbn [no_double]. rewrite Hrest. exact Hnd.
    + unfold squeezed.
      rewrite (scan_found re_hyphens pos (repeat "-"%char (S n)) rest 0
                 [repeat "-"%char (S n)]).
      * cbn [splice]. fold (squeezed rest (pos + length (repeat "-"%char (S n)))).
        destruct (IH rest (pos + length (repeat "-"%char (S n)))) as [Hnd Hhd].
        { rewrite length_app, repeat_length in Hlen. lia. }
        specialize (Hhd Hrest). split; [|intros H; discriminate H].
        cbn [app txt list_ascii_of_string map].
        destruct (map is_hyphen (squeezed rest _)) as [|b bs] eqn:Hm; [reflexivity|].
        cbn [no_double]. cbn [hd] in Hhd. subst b. exact Hnd.
      * discriminate.
      * apply hyphens_found. exact Hrest.
      * cbn [concat]. apply app_nil_r.
Qed.

(** *** The third replacement: the hyphens at the edges *)

Lemma edge_match_inner p c r :
  match_here re_edge_hyphen 0 (S p) (c :: r)
  = if is_hyphen c
    then match r with [] => Some (1, [txt "-"; []], []) | _ :: _ => None end
    else None.
Proof.
  unfold is_hyphen, is_char.
  cbn [match_here re_edge_hyphen bol atoms Nat.eqb rmatch strip_prefix txt
       list_ascii_of_string].
  destruct (Ascii.eqb "-" c); [|reflexivity]. destruct r; reflexivity.
Qed.

Lemma edge_match_outer c r :
  match_here re_edge_hyphen 0 0 (c :: r)
  = if is_hyphen c then Some (0, [txt "-"], r) else None.
Proof.
  unfold is_hyphen, is_char.
  cbn [match_here re_edge_hyphen bol atoms Nat.eqb rmatch strip_prefix txt
       list_ascii_of_string].
  destruct (Ascii.eqb "-" c); reflexivity.
Qed.

Lemma edge_inner s :
  forall p, splice (fun _ => txt "") (scan re_edge_hyphen (S p) 0 s) = drop_last_hyphen s.
Proof.
  induction s as [|c r IH]; intros p; [reflexivity|].
  cbn [scan]. rewrite edge_match_inner.
  destruct (is_hyphen c) eqn:Hc.
  - destruct r as [|d r].
    + cbn [drop_last_hyphen]. rewrite Hc. reflexivity.
    + cbn [splice]. rewrite IH. reflexivity.
  - cbn [splice]. rewrite IH. destruct r as [|d r]; [|reflexivity].
    cbn [drop_last_hyphen]. rewrite Hc. reflexivity.
Qed.

Lemma edge_outer s :
  splice (fun _ => txt "") (scan re_edge_hyphen 0 0 s)
  = match s with
    | [] => []
    | c :: r => if is_hyphen c then drop_last_hyphen r else c :: drop_last_hyphen r
    end.
Proof.
  destruct s as [|c r]; [reflexivity|].
  cbn [scan]. rewrite edge_match_outer.
  destruct (is_hyphen c) eqn:Hc.
  - cbn [concat app length txt list_ascii_of_string splice]. rewrite edge_inner. reflexivity.
  - cbn [splice]. rewrite edge_inner. reflexivity.
Qed.

Lemma no_double_cons a b l :
  no_double (a :: b :: l) = negb (a && b) && no_double (b :: l).
Proof. reflexivity. Qed.

Lemma drop_last_shape s :
  no_double (map is_hyphen s) = true ->
  no_double (map is_hyphen (drop_last_hyphen s)) = true
  /\ List.last (map is_hyphen (drop_last_hyphen s)) false = false
  /\ (hd false (map is_hyphen s) = false ->
      hd false (map is_hyphen (drop_last_hyphen s)) = false).
Proof.
  induction s as [|c r IH]; intros Hnd; [repeat split|].
  destruct r as [|d r].
  - cbn [drop_last_hyphen]. destruct (is_hyphen c) eqn:Hc;
      cbn [map hd List.last no_double]; rewrite ?Hc; repeat split.
  - cbn [map no_double] in Hnd. apply andb_true_iff in Hnd as [Hcd Hnd].
    destruct (IH Hnd) as (H1 & H2 & H3).
    change (drop_last_hyphen (c :: d :: r)) with (c :: drop_last_hyphen (d :: r)).
    cbn [map hd]. split; [|split; [|intros H; exact H]].
    + destruct (map is_hyphen (drop_last_hyphen (d :: r))) as [|b bs] eqn:Hm; [reflexivity|].
      rewrite no_double_cons, H1, andb_true_r.
      assert (Hb : hd false (map is_hyphen (d :: r)) = false ->
                   hd false (b :: bs) = false) by exact H3.
      cbn [map hd] in Hb.
      destruct (is_hyphen c); [|reflexivity].
      destruct (is_hyphen d); [discriminate|]. rewrite Hb; reflexivity.
    + destruct (map is_hyphen (drop_last_hyphen (d :: r))) as [|b bs] eqn:Hm.
      * cbn [List.last]. destruct (is_hyphen c) eqn:Hc; [|reflexivity].
        (* the rest was a lone hyphen, which cannot follow a hyphen *)
        destruct r as [|e r]; cbn [drop_last_hyphen] in Hm.
        -- destruct (is_hyphen d) eqn:Hd; [discriminate Hcd|].
           cbn [map] in Hm. discriminate Hm.
        -- discriminate Hm.
      * exact H2.
Qed.

Lemma sanitizeFolderName_tidy (name : str) : tidy (sanitizeFolderName name).
Proof.
  unfold sanitizeFolderName.
  set (t1 := replace_tpl re_not_alnum no_groups (txt "-") name).
  assert (Hsq : no_double (map is_hyphen (replace_tpl re_hyphens no_groups (txt "-") t1)) = true).
  { apply (squeezed_spec (length t1) t1 0). lia. }
  set (t2 := replace_tpl re_hyphens no_groups (txt "-") t1) in *.
  change (replace_tpl re_edge_hyphen no_groups (txt "") t2)
    with (splice (fun _ => txt "") (scan re_edge_hyphen 0 0 t2)).
  rewrite edge_outer. unfold tidy.
  destruct t2 as [|c r]; [repeat split|].
  destruct r as [|d r].
  - cbn [drop_last_hyphen]. destruct (is_hyphen c) eqn:Hc;
      cbn [map hd List.last no_double]; rewrite ?Hc; repeat split.
  - cbn [map no_double] in Hsq. apply andb_true_iff in Hsq as [Hcd Hnd].
    destruct (drop_last_shape (d :: r) Hnd) as (H1 & H2 & H3).
    destruct (is_hyphen c) eqn:Hc.
    + destruct (is_hyphen d) eqn:Hd; [discriminate Hcd|].
      split; [exact H1|]. split; [|exact H2]. apply H3. exact Hd.
    + cbn [map hd]. split; [|split; [exact Hc|]].
      * destruct (map is_hyphen (drop_last_hyphen (d :: r))) as [|b bs] eqn:Hm; [reflexivity|].
        rewrite no_double_cons, Hc. exact H1.
      * destruct (map is_hyphen (drop_last_hyphen (d :: r))) as [|b bs] eqn:Hm;
          [cbn [List.last]; exact Hc | exact H2].
Qed.

Lemma lower_hyphen c : is_hyphen (lower c) = is_hyphen c.
Proof. destruct c as [[] [] [] [] [] [] [] []]; reflexivity. Qed.

Lemma toLowerCase_tidy s : tidy s -> tidy (toLowerCase s).
Proof.
  unfold tidy, toLowerCase. rewrite map_map.
  rewrite (map_ext (fun c => is_hyphen (lower c)) is_hyphen lower_hyphen).
  intros H. exact H.
Qed.

End tidy_facts.

(** ** Layout on disk *)

Section scan_facts.
Import Js.

(** Whatever the search keeps is a character of the input. *)
Lemma scan_keep_in re c :
  forall s pos skip, In (Keep c) (scan re pos skip s) -> In c s.
Proof.
  induction s as [|a s IH]; intros pos skip Hin.
  - destruct skip; simpl in Hin; [|destruct Hin].
    destruct (match_here re 0 pos []) as [[[i sls] rest]|]; simpl in Hin;
      [destruct Hin as [Hin|[]]; discriminate | destruct Hin].
  - destruct skip as [|skip]; simpl in Hin.
    + destruct (match_here re 0 pos (a :: s)) as [[[i sls] rest]|].
      * destruct Hin as [Hin|Hin]; [discriminate|].
        destruct (length (concat sls)).
        -- destruct Hin as [[= ->]|Hin]; [left; reflexivity|right; eapply IH; exact Hin].
        -- right. eapply IH. exact Hin.
      * destruct Hin as [[= ->]|Hin]; [left; reflexivity|right; eapply IH; exact Hin].
    + right. eapply IH. exact Hin.
Qed.

Lemma splice_Forall (P : ascii -> Prop) f ps :
  (forall c, In (Keep c) ps -> P c) ->
  (forall h, In (Found h) ps -> Forall P (f h)) ->
  Forall P (splice f ps).
Proof.
  induction ps as [|[c|h] ps IH]; intros Hk Hf; simpl.
  - constructor.
  - constructor; [apply Hk; left; reflexivity|].
    apply IH; intros; [apply Hk | apply Hf]; right; assumption.
  - apply Forall_app. split; [apply Hf; left; reflexivity|].
    apply IH; intros; [apply Hk | apply Hf]; right; assumption.
Qed.

End scan_facts.

Section layout_facts.
Import Layout.

Lemma not_alnum_keeps_alnum c :
  forall s pos skip,
    In (Js.Keep c) (Js.scan re_not_alnum pos skip s) -> Js.is_alnum c = true.
Proof.
  induction s as [|a s IH]; intros pos skip Hin.
  - destruct skip; simpl in Hin; destruct Hin.
  - destruct skip as [|skip]; [|simpl in Hin; eapply IH; exact Hin].
    cbn [Js.scan Js.match_here re_not_alnum Js.bol Js.atoms Js.rmatch Js.push] in Hin.
    destruct (Js.is_alnum a) eqn:Ha; cbn in Hin.
    + destruct Hin as [[= <-]|Hin]; [exact Ha | eapply IH; exact Hin].
    + destruct Hin as [Hin|Hin]; [discriminate | eapply IH; exact Hin].
Qed.

Lemma sanitizeFolderName_chars (name : str) :
  Forall name_char (sanitizeFolderName name).
Proof.
  unfold sanitizeFolderName.
  assert (H1 : Forall name_char (Js.replace_tpl re_not_alnum Js.no_groups (txt "-") name)).
  { apply splice_Forall.
    - intros c Hc. left. eapply not_alnum_keeps_alnum. exact Hc.
    - intros h _. cbn. constructor; [right; reflexivity | constructor]. }
  assert (H2 : Forall name_char
                 (Js.replace_tpl re_hyphens Js.no_groups (txt "-")
                    (Js.replace_tpl re_not_alnum Js.no_groups (txt "-") name))).
  { apply splice_Forall.
    - intros c Hc. apply scan_keep_in in Hc.
      rewrite Forall_forall in H1. apply H1. apply list_elem_of_In. exact Hc.
    - intros h _. cbn. constructor; [right; reflexivity | constructor]. }
  apply splice_Forall.
  - intros c Hc. apply scan_keep_in in Hc.
    rewrite Forall_forall in H2. apply H2. apply list_elem_of_In. exact Hc.
  - intros h _. cbn. constructor.
Qed.

Lemma code_lower_upper c :
  Js.in_range "A" "Z" c = true ->
  Js.code (ascii_of_N (Js.code c + 32)) = (Js.code c + 32)%N.
Proof.
  unfold Js.in_range, Js.code. intros H.
  apply andb_true_iff in H as [_ H]. apply N.leb_le in H.
  apply N_ascii_embedding. change (N_of_ascii "Z") with 90%N in H. lia.
Qed.

Lemma lower_folder_char c : name_char c -> folder_char (Js.lower c) = true.
Proof.
  intros [Hc | ->]; [|reflexivity].
  unfold Js.lower, folder_char.
  destruct (Js.in_range "A" "Z" c) eqn:Hup.
  - apply orb_true_iff. left. apply orb_true_iff. left.
    unfold Js.in_range. rewrite (code_lower_upper c Hup).
    unfold Js.in_range, Js.code in Hup.
    apply andb_true_iff in Hup as [Hlo Hhi].
    apply N.leb_le in Hlo, Hhi.
    change (N_of_ascii "A") with 65%N in Hlo. change (N_of_ascii "Z") with 90%N in Hhi.
    apply andb_true_iff. unfold Js.code. split; apply N.leb_le;
      [change (N_of_ascii "a") with 97%N | change (N_of_ascii "z") with 122%N]; lia.
  - unfold Js.is_alnum in Hc. rewrite Hup, orb_false_r in Hc.
    assert (Hlatin : Js.in_range "192" "222" c = false).
    { unfold Js.in_range, Js.code in *. apply andb_false_iff. left. apply N.leb_gt.
      change (N_of_ascii "192") with 192%N.
      apply orb_true_iff in Hc as [Hc | Hc]; apply andb_true_iff in Hc as [_ Hc];
        apply N.leb_le in Hc;
        [change (N_of_ascii "z") with 122%N in Hc | change (N_of_ascii "9") with 57%N in Hc];
        lia. }
    rewrite Hlatin. cbn [andb].
    apply orb_true_iff in Hc as [Hc | Hc]; rewrite Hc; [reflexivity|].
    rewrite orb_true_r. reflexivity.
Qed.

Lemma problemName_chars p : Forall (fun c => folder_char c = true) (problemName p).
Proof.
  unfold problemName, Js.toLowerCase.
  pose proof (sanitizeFolderName_chars (name p)) as H.
  induction H as [|c l Hc _ IH]; simpl; constructor; [apply lower_folder_char; exact Hc | exact IH].
Qed.

Lemma id_component_padded p :
  length (id p) <= 4 -> id_component p = zero_padded 4 (id p).
Proof.
  unfold id_component, zero_padded, Js.slice_last. intros Hlen.
  destruct (id p) as [|a [|b [|c [|d [|e l]]]]]; simpl in Hlen; try reflexivity; lia.
Qed.

(** C9, as the code has it. The storage directory of an item is
    root/<first tag, sanitized>/<id>_<difficulty>_<name>, where an
    identifier of at most four characters is padded with zeros to four,
    and the last component is made from the display name of the item, not
    from its slug: the name sanitized and put in lower case, which holds
    only lower-case letters, digits and hyphens, with no two hyphens in a
    row and no hyphen at either end. *)
Theorem storage_directory (outputFolder : str) (p : problem) :
  length (id p) <= 4 ->
  problemPath outputFolder p
  = Js.path_join
      [outputFolder;
       sanitizeFolderName (first_tag p);
       zero_padded 4 (id p) ++ txt "_" ++ difficulty p ++ txt "_"
         ++ Js.toLowerCase (sanitizeFolderName (name p))]
  /\ Forall (fun c => folder_char c = true) (Js.toLowerCase (sanitizeFolderName (name p)))
  /\ tidy (Js.toLowerCase (sanitizeFolderName (name p))).
Proof.
  intros Hlen.
  split; [|split; [apply problemName_chars|apply toLowerCase_tidy, sanitizeFolderName_tidy]].
  unfold problemPath, problemFolder, tagFolder, problemName.
  rewrite (id_component_padded p Hlen). reflexivity.
Qed.

End layout_facts.

Example storage_directory_pow :
  Layout.problemPath (txt "/home/u/downloads") Layout.pow_x_n
  = txt "/home/u/downloads/math/0050_Medium_pow-x-n".
Proof. vm_compute. reflexivity. Qed.

(** C9, as the specification words it, fails on item 50: its slug is
    powx-n, and the last component of its folder is pow-x-n. *)
Lemma folder_ends_with_name_not_slug :
  Layout.problemFolder Layout.pow_x_n <> Layout.specified_folder Layout.pow_x_n.
Proof. vm_compute. discriminate. Qed.

Lemma storage_directory_witness :
  Layout.problemPath (txt "/home/u/downloads") Layout.pow_x_n
  = Js.path_join
      [txt "/home/u/downloads";
       Layout.sanitizeFolderName (Layout.first_tag Layout.pow_x_n);
       Layout.zero_padded 4 (Layout.id Layout.pow_x_n) ++ txt "_"
         ++ Layout.difficulty Layout.pow_x_n ++ txt "_"
         ++ Js.toLowerCase (Layout.sanitizeFolderName (Layout.name Layout.pow_x_n))]
  /\ Forall (fun c => Layout.folder_char c = true)
            (Js.toLowerCase (Layout.sanitizeFolderName (Layout.name Layout.pow_x_n)))
  /\ Layout.tidy (Js.toLowerCase (Layout.sanitizeFolderName (Layout.name Layout.pow_x_n))).
Proof. apply (storage_directory (txt "/home/u/downloads") Layout.pow_x_n). simpl. lia. Defined.

(** ** Media rewriter *)

Section media_facts.
Import Js Media.
Variable net : nat -> str -> bool.
Variable rel : str.

Lemma image_nonempty alt url : image alt url <> [].
Proof. unfold image. simpl. discriminate. Qed.

(** The search pattern finds a plain image reference at the head of the
    input, with its URL as group 1. *)
Lemma imgRegex_finds alt url :
  plain_alt alt -> plain_url url ->
  exists sls,
    concat sls = image alt url
    /\ concat (firstn 4 (skipn 3 sls)) = url
    /\ forall rest pos,
         match_here imgRegex 0 pos (image alt url ++ rest) = Some (0, sls, rest).
Proof.
  intros Halt [(host & Hhost & Hurl) Hchars].
  assert (Hhostchars : Forall (fun c => not_char ")" c = true) host).
  { destruct Hurl as [-> | ->]; apply Forall_app in Hchars as [_ Hchars];
      (eapply Forall_impl; [exact Hchars|]); intros c [Hc _];
      unfold not_char; apply negb_true_iff, Ascii.eqb_neq; congruence. }
  assert (Htail : forall rest,
             rmatch [Greedy (not_char ")") 1; Lit (txt ")")] (host ++ txt ")" ++ rest)
             = Some ([host; txt ")"], rest)).
  { intros rest. apply rmatch_Greedy.
    - exact Hhostchars.
    - destruct host; [contradiction|simpl; lia].
    - reflexivity.
    - reflexivity. }
  assert (Hscheme : exists s,
             url = txt "http" ++ s ++ txt "://" ++ host
             /\ forall rest,
                  rmatch [Lit (txt "http"); Opt (txt "s"); Lit (txt "://");
                          Greedy (not_char ")") 1; Lit (txt ")")]
                         (url ++ txt ")" ++ rest)
                  = Some ([txt "http"; s; txt "://"; host; txt ")"], rest)).
  { destruct Hurl as [-> | ->].
    - exists []. split; [reflexivity|]. intros rest.
      change (txt "http://" ++ host) with (txt "http" ++ txt "://" ++ host).
      rewrite <- !app_assoc. rewrite rmatch_Lit.
      rewrite rmatch_Opt_left by reflexivity.
      rewrite rmatch_Lit, Htail. reflexivity.
    - exists (txt "s"). split; [reflexivity|]. intros rest.
      change (txt "https://" ++ host) with (txt "http" ++ txt "s" ++ txt "://" ++ host).
      rewrite <- !app_assoc. rewrite rmatch_Lit.
      rewrite (rmatch_Opt_taken (txt "s") _ _ ([txt "://"; host; txt ")"], rest));
        [reflexivity|].
      rewrite rmatch_Lit, Htail. reflexivity. }
  destruct Hscheme as (s & Hshape & Hrest).
  exists [txt "!["; alt; txt "]("; txt "http"; s; txt "://"; host; txt ")"].
  split; [|split].
  - unfold image. rewrite Hshape. cbn [concat]. rewrite <- !app_assoc, app_nil_r. reflexivity.
  - cbn [skipn firstn concat]. rewrite Hshape, app_nil_r. reflexivity.
  - intros rest pos. unfold imgRegex. cbn [match_here bol atoms]. unfold image.
    rewrite <- !app_assoc. rewrite rmatch_Lit.
    rewrite (rmatch_Lazy is_dot _ alt (txt "](" ++ url ++ txt ")" ++ rest)
               [txt "]("; txt "http"; s; txt "://"; host; txt ")"] rest).
    + reflexivity.
    + eapply Forall_impl; [exact Halt|]. intros c [Hc Hdot]. split; [exact Hdot|].
      intros s'. apply rmatch_Lit_head. congruence.
    + rewrite rmatch_Lit, Hrest. reflexivity.
Qed.

(** The pattern built for a URL finds a plain reference to that URL, with
    its alternative text as group 1. *)
Lemma re_image_finds alt url rest pos :
  plain_alt alt ->
  match_here (re_image url) 0 pos (image alt url ++ rest)
  = Some (0, [txt "!["; alt; txt "]("; url; txt ")"], rest).
Proof.
  intros Halt. unfold re_image. cbn [match_here bol atoms]. unfold image.
  rewrite <- !app_assoc. rewrite rmatch_Lit.
  rewrite (rmatch_Greedy (not_char "]") 0 _ alt (txt "](" ++ url ++ txt ")" ++ rest)
             [txt "]("; url; txt ")"] rest).
  - reflexivity.
  - eapply Forall_impl; [exact Halt|]. intros c [Hc _].
    unfold not_char. apply negb_true_iff, Ascii.eqb_neq. congruence.
  - lia.
  - reflexivity.
  - rewrite !rmatch_Lit. reflexivity.
Qed.

Lemma no_image_here (re : regex) l r c s p :
  re = [Alt false (Lit ("!"%char :: l) :: r)] ->
  c <> "!"%char ->
  match_here re 0 p (c :: s) = None.
Proof.
  intros -> Hc. cbn [match_here bol atoms].
  rewrite rmatch_Lit_head by congruence. reflexivity.
Qed.

(** The search over a document that holds two plain image references and
    no other exclamation mark. *)
Lemma scan_two_images (re : regex) l r pre a ua mid b ub post sa sb :
  re = [Alt false (Lit ("!"%char :: l) :: r)] ->
  Forall (fun c => c <> "!"%char) pre ->
  Forall (fun c => c <> "!"%char) mid ->
  Forall (fun c => c <> "!"%char) post ->
  (forall rest pos, match_here re 0 pos (image a ua ++ rest) = Some (0, sa, rest)) ->
  concat sa = image a ua ->
  (forall rest pos, match_here re 0 pos (image b ub ++ rest) = Some (0, sb, rest)) ->
  concat sb = image b ub ->
  exists p1 p2,
    scan re 0 0 (pre ++ image a ua ++ mid ++ image b ub ++ post)
    = map Keep pre ++ Found (Hit 0 sa p1 (mid ++ image b ub ++ post))
        :: map Keep mid ++ Found (Hit 0 sb p2 post) :: map Keep post.
Proof.
  intros Hre Hpre Hmid Hpost Ha Hca Hb Hcb.
  assert (Hnone : forall x, Forall (fun c => c <> "!"%char) x ->
            forall c s p, In c x -> match_here re 0 p (c :: s) = None).
  { intros x Hx c s p Hin. apply (no_image_here re l r c s p Hre).
    rewrite Forall_forall in Hx. apply Hx. apply list_elem_of_In. exact Hin. }
  eexists _, _.
  rewrite (scan_keep re pre 0 _ (Hnone pre Hpre)).
  rewrite (scan_found re _ (image a ua) _ 0 sa (image_nonempty a ua) (Ha _ _) Hca).
  rewrite (scan_keep re mid _ _ (Hnone mid Hmid)).
  rewrite (scan_found re _ (image b ub) _ 0 sb (image_nonempty b ub) (Hb _ _) Hcb).
  match goal with
  | |- context [scan re ?p 0 post] =>
    pose proof (scan_keep re post p [] (Hnone post Hpost)) as Hlast
  end.
  rewrite app_nil_r in Hlast. rewrite Hlast.
  rewrite scan_end; [rewrite app_nil_r; reflexivity|].
  rewrite Hre. reflexivity.
Qed.

Lemma of_uint_plain d :
  Forall (fun c => c <> "$"%char) (txt (NilEmpty.string_of_uint d)).
Proof. induction d; simpl; constructor; solve [discriminate | assumption]. Qed.

Lemma from_last_incl sep s r c : from_last sep s = Some r -> In c r -> In c s.
Proof.
  revert r. induction s as [|a s IH]; intros r Hr Hc; simpl in Hr; [discriminate|].
  destruct (from_last sep s) as [r'|].
  - injection Hr as <-. right. eapply IH; [reflexivity|exact Hc].
  - destruct (Ascii.eqb a sep); [|discriminate]. injection Hr as <-. exact Hc.
Qed.

Lemma split_nonempty sep s : split sep s <> [].
Proof.
  destruct s as [|a s]; simpl; [discriminate|].
  destruct (Ascii.eqb a sep); [discriminate|].
  destruct (split sep s); discriminate.
Qed.

Lemma last_split_incl sep c : forall s, In c (List.last (split sep s) []) -> In c s.
Proof.
  induction s as [|a s IH]; intros Hc; simpl in Hc; [exact Hc|].
  pose proof (split_nonempty sep s) as Hne.
  destruct (split sep s) as [|seg segs] eqn:Hs; [contradiction|].
  destruct (Ascii.eqb a sep).
  - right. apply IH. exact Hc.
  - destruct segs as [|seg' segs].
    + simpl in Hc. destruct Hc as [<-|Hc]; [left; reflexivity|right; apply IH; exact Hc].
    + right. apply IH. exact Hc.
Qed.

Lemma extension_plain url :
  Forall (fun c => c <> "$"%char) url -> Forall (fun c => c <> "$"%char) (extension url).
Proof.
  intros Hurl. unfold extension.
  destruct (includes _ _); [|repeat constructor; discriminate].
  destruct (from_last "." _) as [ext|] eqn:Hext; [|repeat constructor; discriminate].
  apply Forall_forall. intros c Hc. rewrite Forall_forall in Hurl. apply Hurl.
  apply list_elem_of_In. apply (last_split_incl "/"%char).
  eapply from_last_incl; [exact Hext|]. apply list_elem_of_In. exact Hc.
Qed.

(** One turn of the loop: it starts one download and sets the entry of the
    URL, to the URL itself or to a path under the image folder. *)
Lemma visit_spec st url :
  Forall (fun c => c <> "$"%char) url ->
  Forall (fun c => c <> "$"%char) rel ->
  downloads (visit net rel st url) = downloads st ++ [url]
  /\ exists v,
       imageMap (visit net rel st url) = map_set url v (imageMap st)
       /\ Forall (fun c => c <> "$"%char) v.
Proof.
  intros Hurl Hrel. unfold visit.
  assert (Hlocal : Forall (fun c => c <> "$"%char)
                     (rel ++ txt "/" ++ of_nat (imageIndex st) ++ extension url)).
  { apply Forall_app. split; [exact Hrel|]. apply Forall_app. split.
    - repeat constructor. discriminate.
    - apply Forall_app. split; [apply of_uint_plain | apply extension_plain; exact Hurl]. }
  destruct (download net url (requests st)) as [[[v|e|] w] tr]; cbn;
    (split; [reflexivity|]); eexists; (split; [reflexivity|]); assumption.
Qed.

Lemma visit_downloads urls :
  forall st, downloads (fold_left (visit net rel) urls st) = downloads st ++ urls.
Proof.
  induction urls as [|url urls IH]; intros st; simpl; [rewrite app_nil_r; reflexivity|].
  rewrite IH. unfold visit.
  destruct (download net url (requests st)) as [[[v|e|] w] tr]; cbn;
    rewrite <- app_assoc; reflexivity.
Qed.

Lemma template_image text before after alt p :
  Forall (fun c => c <> "$"%char) p ->
  GetSubstitution text before after [Some alt] (txt "![$1](" ++ p ++ txt ")") = image alt p.
Proof.
  intros Hp. unfold image.
  change (txt "![$1](" ++ p ++ txt ")")
    with ("!" :: "[" :: "$" :: "1" :: "]" :: "(" :: p ++ txt ")")%char.
  cbn [GetSubstitution Ascii.eqb Bool.eqb negb is_digit in_range code N_of_ascii
       N_of_digits N.leb N.compare Pos.compare Pos.compare_cont andb orb length
       digit_val Nat.leb N.sub N.add N.mul N.to_nat Pos.to_nat Pos.iter_op Nat.add
       Pos.sub_mask Pos.double_mask Pos.succ_double_mask Pos.pred_double
       Pos.double_pred_mask capture nth_error Nat.sub app txt list_ascii_of_string].
  rewrite GetSubstitution_plain; [reflexivity|].
  apply Forall_app. split; [exact Hp|]. repeat constructor. discriminate.
Qed.

End media_facts.

Section media_claim.
Import Js Media.
Variable net : nat -> str -> bool.
Variable rel : str.


End media_claim.

Example twice_rewritten :
  Media.downloadImageFromMarkdown (fun _ _ => true) (txt "./images") Media.twice
  = txt "See ![a](./images/1.svg) and again ![b](./images/1.svg)."
  /\ Media.downloads (Media.scanned (fun _ _ => true) (txt "./images") Media.twice)
     = [txt "https://x.org/p/fig.svg"; txt "https://x.org/p/fig.svg"].
Proof. vm_compute. split; reflexivity. Qed.



(** ** Document transcoder *)

Section replace_facts.
Import Js.

Lemma strip_prefix_common l1 l2 s :
  strip_prefix (l1 ++ l2) (l1 ++ s) = strip_prefix l2 s.
Proof.
  induction l1 as [|a l1 IH]; simpl; [destruct l2; reflexivity|].
  rewrite Ascii.eqb_refl. exact IH.
Qed.

Lemma no_match_at_other_char (re : regex) a l r c s p :
  re = [Alt false (Lit (a :: l) :: r)] ->
  c <> a ->
  match_here re 0 p (c :: s) = None.
Proof.
  intros -> Hc. cbn [match_here bol atoms].
  rewrite rmatch_Lit_head by congruence. reflexivity.
Qed.

Lemma no_match_at_end (re : regex) a l r p :
  re = [Alt false (Lit (a :: l) :: r)] ->
  match_here re 0 p [] = None.
Proof. intros ->. reflexivity. Qed.

(** A pattern that starts with a character absent from the input changes
    nothing. *)
Lemma replace_fn_absent (re : regex) a l r f x :
  re = [Alt false (Lit (a :: l) :: r)] ->
  Forall (fun c => c <> a) x ->
  replace_fn re f x = x.
Proof.
  intros Hre Hx. unfold replace_fn.
  pose proof (scan_keep re x 0 []) as Hscan. rewrite app_nil_r in Hscan.
  rewrite Hscan.
  - rewrite (scan_end re _ (no_match_at_end re a l r _ Hre)), app_nil_r.
    apply splice_keep.
  - intros c s p Hin. apply (no_match_at_other_char re a l r c s p Hre).
    rewrite Forall_forall in Hx. apply Hx. apply list_elem_of_In. exact Hin.
Qed.

(** The first occurrence of a pattern, when it cannot start earlier. *)
Lemma replace_first_from_skip pat template input x :
  forall pos t,
    (forall pre s, x = pre ++ s -> s <> [] -> strip_prefix pat (s ++ t) = None) ->
    replace_first_from pat template input pos (x ++ t)
    = match replace_first_from pat template input (pos + length x) t with
      | Some r => Some (x ++ r)
      | None => None
      end.
Proof.
  induction x as [|c x IH]; intros pos t Hnone.
  - simpl. rewrite Nat.add_0_r. destruct (replace_first_from _ _ _ _ _); reflexivity.
  - cbn [app replace_first_from].
    change (c :: x ++ t) with ((c :: x) ++ t).
    rewrite (Hnone [] (c :: x) eq_refl ltac:(discriminate)).
    rewrite IH.
    + replace (S pos + length x) with (pos + length (c :: x)) by (simpl; lia).
      destruct (replace_first_from _ _ _ _ _); reflexivity.
    + intros pre s Hx Hs. apply (Hnone (c :: pre) s); [rewrite Hx; reflexivity|exact Hs].
Qed.

Lemma replace_first_from_here pat template input pos s rest :
  strip_prefix pat s = Some rest ->
  replace_first_from pat template input pos s
  = Some (GetSubstitution pat (firstn pos input) rest [] template ++ rest).
Proof. intros H. destruct s; simpl; rewrite H; reflexivity. Qed.

Lemma replace_first_found pat template x y :
  pat <> [] ->
  Forall (fun c => c <> "$"%char) template ->
  (forall pre s, x = pre ++ s -> s <> [] -> strip_prefix pat (s ++ pat ++ y) = None) ->
  replace_first pat template (x ++ pat ++ y) = x ++ template ++ y.
Proof.
  intros Hpat Htpl Hnone. unfold replace_first.
  rewrite (replace_first_from_skip pat template _ x 0 (pat ++ y) Hnone).
  rewrite (replace_first_from_here pat template _ _ (pat ++ y) y (strip_prefix_app pat y)).
  rewrite GetSubstitution_plain by exact Htpl. reflexivity.
Qed.

(** A pattern that does not match a text does not match the text followed
    by a character foreign to the pattern. *)
Lemma strip_prefix_app_None pat a t :
  Forall (fun c => c <> a) pat ->
  forall s, strip_prefix pat s = None -> strip_prefix pat (s ++ a :: t) = None.
Proof.
  intros Hpat. induction Hpat as [|p pat Hp _ IH]; intros s Hs.
  - destruct s; discriminate.
  - destruct s as [|b s]; simpl.
    + apply Ascii.eqb_neq in Hp. rewrite Hp. reflexivity.
    + simpl in Hs. destruct (Ascii.eqb p b); [apply IH; exact Hs | reflexivity].
Qed.

Lemma includes_false_suffix pat pre s :
  includes pat (pre ++ s) = false -> strip_prefix pat s = None.
Proof.
  induction pre as [|c pre IH]; intros H; simpl in H.
  - destruct s; simpl in H; destruct (strip_prefix pat _); congruence.
  - destruct (strip_prefix pat (c :: pre ++ s)); [discriminate|]. apply IH. exact H.
Qed.

End replace_facts.

Section transcoder_facts.
Import Js Transcoder.

Lemma plain_no_markup c : plain_content c -> Forall (fun ch => ch <> "<"%char) c.
Proof. intros H. eapply Forall_impl; [exact H|]. intros ch [H1 _]. exact H1. Qed.

Lemma plain_no_dollar c : plain_content c -> Forall (fun ch => ch <> "$"%char) c.
Proof. intros H. eapply Forall_impl; [exact H|]. intros ch [_ H2]. exact H2. Qed.

Lemma fence_plain c :
  Forall (fun ch => ch <> "$"%char) c -> Forall (fun ch => ch <> "$"%char) (fence c).
Proof.
  intros H. unfold fence, newline.
  repeat (apply Forall_app; split); try exact H; repeat constructor; discriminate.
Qed.

(** Without markup in it, the text of a block is kept as it is. *)
Lemma cleanContent_plain c : Forall (fun ch => ch <> "<"%char) c -> cleanContent c = c.
Proof.
  intros H. unfold cleanContent, sub0, sub1, replace_tpl.
  rewrite (replace_fn_absent (element_with_attributes "strong") "<"%char _ _ _ c eq_refl H).
  rewrite (replace_fn_absent (element "em") "<"%char _ _ _ c eq_refl H).
  apply (replace_fn_absent re_tag "<"%char _ _ _ c eq_refl H).
Qed.

Lemma lazy_content c close rest :
  Forall (fun ch => ch <> "<"%char) c ->
  rmatch [Lazy any_char 0; Lit ("<"%char :: close)] (c ++ ("<"%char :: close) ++ rest)
  = Some ([c; "<"%char :: close], rest).
Proof.
  intros H. apply rmatch_Lazy.
  - eapply Forall_impl; [exact H|]. intros ch Hch. split; [reflexivity|].
    intros s. apply rmatch_Lit_head. congruence.
  - rewrite rmatch_Lit. reflexivity.
Qed.

Lemma re_pre_finds_pre c rest pos :
  Forall (fun ch => ch <> "<"%char) c ->
  match_here re_pre 0 pos (pre_block c ++ rest)
  = Some (1, [txt "<pre>"; c; txt "</pre>"], rest).
Proof.
  intros H. unfold re_pre, pre_block. cbn [match_here bol atoms].
  rewrite <- !app_assoc.
  assert (Hfirst : rmatch [Lit (txt "<pre><code>"); Lazy any_char 0; Lit (txt "</code></pre>")]
                          (txt "<pre>" ++ c ++ txt "</pre>" ++ rest) = None).
  { cbn [rmatch]. destruct H as [|ch c Hch _]; [reflexivity|].
    change (txt "<pre><code>") with (txt "<pre>" ++ txt "<code>").
    rewrite strip_prefix_common. cbn [app].
    change (txt "<code>") with ("<"%char :: txt "code>").
    rewrite strip_prefix_head by congruence. reflexivity. }
  rewrite Hfirst. rewrite rmatch_Lit.
  pose proof (lazy_content c (txt "/pre>") rest H) as Hl.
  change ("<"%char :: txt "/pre>") with (txt "</pre>") in Hl.
  rewrite Hl. reflexivity.
Qed.

Lemma re_pre_finds_code c rest pos :
  Forall (fun ch => ch <> "<"%char) c ->
  match_here re_pre 0 pos (pre_code_block c ++ rest)
  = Some (0, [txt "<pre><code>"; c; txt "</code></pre>"], rest).
Proof.
  intros H. unfold re_pre, pre_code_block. cbn [match_here bol atoms].
  rewrite <- !app_assoc. rewrite rmatch_Lit.
  pose proof (lazy_content c (txt "/code></pre>") rest H) as Hl.
  change ("<"%char :: txt "/code></pre>") with (txt "</code></pre>") in Hl.
  rewrite Hl. reflexivity.
Qed.

Lemma concat3 (a b c : str) : concat [a; b; c] = a ++ b ++ c.
Proof. cbn [concat]. rewrite app_nil_r. reflexivity. Qed.

(** The chain of replacements leaves the placeholders of one and of two
    blocks as they are. *)
Lemma rewrite_placeholders imageMap :
  rewrite imageMap (placeholder 0) = placeholder 0
  /\ rewrite imageMap (placeholder 0 ++ placeholder 1) = placeholder 0 ++ placeholder 1.
Proof. split; vm_compute; reflexivity. Qed.

Lemma reinsert_one c :
  Forall (fun ch => ch <> "$"%char) c ->
  replace_first (placeholder 0) (fence c) (placeholder 0) = fence c.
Proof.
  intros H.
  pose proof (replace_first_found (placeholder 0) (fence c) [] []) as Hr.
  rewrite app_nil_r in Hr. cbn [app] in Hr. rewrite Hr; [apply app_nil_r| | |].
  - discriminate.
  - apply fence_plain. exact H.
  - intros pre s Hs Hne. destruct pre, s; try discriminate. contradiction.
Qed.

Lemma scan_one_block c i sls :
  (forall rest pos, match_here re_pre 0 pos (c ++ rest) = Some (i, sls, rest)) ->
  concat sls = c -> c <> [] ->
  forall pos rest,
    scan re_pre pos 0 (c ++ rest)
    = Found (Hit i sls pos rest) :: scan re_pre (pos + length c) 0 rest.
Proof.
  intros Hm Hc Hne pos rest. apply scan_found; [exact Hne | apply Hm | exact Hc].
Qed.

Lemma pre_block_nonempty c : pre_block c <> [].
Proof. unfold pre_block. simpl. discriminate. Qed.

Lemma pre_code_block_nonempty c : pre_code_block c <> [].
Proof. unfold pre_code_block. simpl. discriminate. Qed.

Lemma scan_pre_block c pos rest :
  Forall (fun ch => ch <> "<"%char) c ->
  scan re_pre pos 0 (pre_block c ++ rest)
  = Found (Hit 1 [txt "<pre>"; c; txt "</pre>"] pos rest)
      :: scan re_pre (pos + length (pre_block c)) 0 rest.
Proof.
  intros H. apply scan_one_block.
  - intros r p. apply re_pre_finds_pre. exact H.
  - apply concat3.
  - apply pre_block_nonempty.
Qed.

Lemma scan_pre_code_block c pos rest :
  Forall (fun ch => ch <> "<"%char) c ->
  scan re_pre pos 0 (pre_code_block c ++ rest)
  = Found (Hit 0 [txt "<pre><code>"; c; txt "</code></pre>"] pos rest)
      :: scan re_pre (pos + length (pre_code_block c)) 0 rest.
Proof.
  intros H. apply scan_one_block.
  - intros r p. apply re_pre_finds_code. exact H.
  - apply concat3.
  - apply pre_code_block_nonempty.
Qed.

Lemma convert_pre_block c imageMap :
  plain_content c ->
  convertHtmlToMarkdown (pre_block c) imageMap = Some (fence c).
Proof.
  intros H. unfold convertHtmlToMarkdown.
  rewrite <- (app_nil_r (pre_block c)).
  rewrite (scan_pre_block c 0 [] (plain_no_markup c H)).
  cbn [scan match_here re_pre bol atoms rmatch strip_prefix txt list_ascii_of_string
       extract content_of h_alt slice h_slices nth].
  rewrite (cleanContent_plain c (plain_no_markup c H)).
  cbn [app]. rewrite app_nil_r.
  rewrite (proj1 (rewrite_placeholders imageMap)).
  cbn [reinsert]. rewrite (reinsert_one c (plain_no_dollar c H)). reflexivity.
Qed.

Lemma convert_pre_code_block c imageMap :
  plain_content c -> c <> [] ->
  convertHtmlToMarkdown (pre_code_block c) imageMap = Some (fence c).
Proof.
  intros H Hne. unfold convertHtmlToMarkdown.
  rewrite <- (app_nil_r (pre_code_block c)).
  rewrite (scan_pre_code_block c 0 [] (plain_no_markup c H)).
  cbn [scan match_here re_pre bol atoms rmatch strip_prefix txt list_ascii_of_string
       extract content_of h_alt slice h_slices nth].
  destruct (decide (c = [])) as [Hc|_]; [contradiction|].
  rewrite (cleanContent_plain c (plain_no_markup c H)).
  cbn [app]. rewrite app_nil_r.
  rewrite (proj1 (rewrite_placeholders imageMap)).
  cbn [reinsert]. rewrite (reinsert_one c (plain_no_dollar c H)). reflexivity.
Qed.

(** The placeholder of the second block cannot start inside the text of
    the first block once it is fenced, when the first block does not hold
    that placeholder. *)
Lemma fence_clear c t :
  includes (placeholder 1) c = false ->
  forall pre s, fence c = pre ++ s -> s <> [] ->
  strip_prefix (placeholder 1) (s ++ t) = None.
Proof.
  intros Hinc.
  change (placeholder 1) with ("_"%char :: txt "__PRE_BLOCK_1___") in *.
  assert (Hforeign : Forall (fun ch => ch <> "010"%char) ("_"%char :: txt "__PRE_BLOCK_1___"))
    by (repeat constructor; discriminate).
  assert (Hmark : forall (x l s : str),
            x = l ++ s -> s <> [] ->
            Forall (fun ch => ch <> "_"%char) x ->
            strip_prefix ("_"%char :: txt "__PRE_BLOCK_1___") (s ++ t) = None).
  { intros x l s -> Hs Hx. destruct s as [|a s]; [contradiction|].
    apply Forall_app in Hx as [_ Hx]. inversion Hx; subst.
    cbn [app]. apply strip_prefix_head. congruence. }
  assert (Hbody : forall pre s, c ++ newline ++ txt "```" = pre ++ s -> s <> [] ->
            strip_prefix ("_"%char :: txt "__PRE_BLOCK_1___") (s ++ t) = None).
  { intros pre s Heq Hs. apply app_eq_app in Heq as [l [[Hc Hs'] | [Hpre Htail]]].
    - subst s. rewrite <- app_assoc. unfold newline. cbn [app].
      apply strip_prefix_app_None; [exact Hforeign|].
      eapply includes_false_suffix. rewrite <- Hc. exact Hinc.
    - apply (Hmark (newline ++ txt "```") l s Htail Hs).
      repeat constructor; discriminate. }
  intros pre s Heq Hs.
  change (fence c) with ((txt "```" ++ newline) ++ c ++ newline ++ txt "```") in Heq.
  apply app_eq_app in Heq as [l [[Hhead Hs'] | [Hpre Htail]]].
  - destruct l as [|a l].
    + cbn [app] in Hs'. subst s. apply (Hbody [] _ eq_refl Hs).
    + subst s.
      assert (Hin : In a (txt "```" ++ newline))
        by (rewrite Hhead; apply in_app_iff; right; left; reflexivity).
      cbn [app]. apply strip_prefix_head.
      cbn in Hin. destruct Hin as [<-|[<-|[<-|[<-|[]]]]]; discriminate.
  - eapply Hbody; [exact Htail | exact Hs].
Qed.

Lemma convert_two_blocks c1 c2 imageMap :
  plain_content c1 -> plain_content c2 ->
  includes (placeholder 1) c1 = false ->
  convertHtmlToMarkdown (pre_block c1 ++ pre_block c2) imageMap
  = Some (fence c1 ++ fence c2).
Proof.
  intros H1 H2 Hinc. unfold convertHtmlToMarkdown.
  rewrite (scan_pre_block c1 0 _ (plain_no_markup c1 H1)).
  rewrite <- (app_nil_r (pre_block c2)).
  rewrite (scan_pre_block c2 _ [] (plain_no_markup c2 H2)).
  cbn [scan match_here re_pre bol atoms rmatch strip_prefix txt list_ascii_of_string
       extract content_of h_alt slice h_slices nth].
  rewrite (cleanContent_plain c1 (plain_no_markup c1 H1)).
  rewrite (cleanContent_plain c2 (plain_no_markup c2 H2)).
  cbn [app]. rewrite app_nil_r.
  rewrite (proj2 (rewrite_placeholders imageMap)).
  cbn [reinsert].
  pose proof (replace_first_found (placeholder 0) (fence c1) [] (placeholder 1)) as Hfirst.
  cbn [app] in Hfirst. rewrite Hfirst; clear Hfirst.
  - pose proof (replace_first_found (placeholder 1) (fence c2) (fence c1) []) as Hsecond.
    rewrite !app_nil_r in Hsecond. apply f_equal, Hsecond.
    + discriminate.
    + apply fence_plain, plain_no_dollar, H2.
    + intros pre s Heq Hs. rewrite <- (app_nil_r (placeholder 1)) at 2.
      eapply (fence_clear c1); eassumption.
  - discriminate.
  - apply fence_plain, plain_no_dollar, H1.
  - intros pre s Hs Hne. destruct pre, s; try discriminate. contradiction.
Qed.

End transcoder_facts.

Section tagless_facts.
Import Js Transcoder.

Lemma tag_match_none p t :
  match_here re_tag 0 p ("<"%char :: t) = None <-> tag_body 1 t = None.
Proof.
  unfold re_tag, one, tag_body. cbn [match_here bol atoms rmatch strip_prefix txt
    list_ascii_of_string]. rewrite Ascii.eqb_refl.
  destruct (greedy _ _ 1 t) as [[sl [sls rest]]|]; cbn; split; intros H;
    solve [discriminate | reflexivity].
Qed.

Lemma tag_match_other p c t : c <> "<"%char -> match_here re_tag 0 p (c :: t) = None.
Proof. intros H. apply (no_match_at_other_char re_tag "<"%char [] _ c t p eq_refl H). Qed.

Lemma tag_body_without_close t :
  ~ In ">"%char t -> forall need, tag_body need t = None.
Proof.
  unfold tag_body. induction t as [|c t IH]; intros Hnot need.
  - destruct need; reflexivity.
  - assert (Hc : c <> ">"%char) by (intros ->; apply Hnot; left; reflexivity).
    cbn [greedy]. rewrite IH by (intros Hin; apply Hnot; right; exact Hin).
    apply not_eq_sym, Ascii.eqb_neq in Hc.
    destruct (not_char ">" c); destruct need;
      cbn [grow stop rmatch strip_prefix txt list_ascii_of_string];
      rewrite ?Hc; reflexivity.
Qed.

Lemma tag_body_at_close n t : tag_body (S n) (">"%char :: t) = None.
Proof. reflexivity. Qed.

Lemma first_occurrence (a : ascii) (l : str) :
  In a l -> exists run rest, l = run ++ a :: rest /\ Forall (fun c => c <> a) run.
Proof.
  induction l as [|c l IH]; intros Hin; [destruct Hin|].
  destruct (ascii_dec c a) as [->|Hne].
  - exists [], l. split; [reflexivity|constructor].
  - destruct Hin as [Heq|Hin]; [contradiction|].
    destruct (IH Hin) as (run & rest & -> & Hrun).
    exists (c :: run), rest. split; [reflexivity|]. constructor; assumption.
Qed.

Lemma tag_body_found x t :
  x <> ">"%char -> In ">"%char t -> tag_body 1 (x :: t) <> None.
Proof.
  intros Hx Hin. destruct (first_occurrence ">"%char t Hin) as (run & rest & -> & Hrun).
  unfold tag_body.
  change (x :: run ++ ">"%char :: rest) with ((x :: run) ++ ">"%char :: rest).
  rewrite (greedy_span (not_char ">") (rmatch [Lit (txt ">")]) ([txt ">"], rest)
             (x :: run) 1 (">"%char :: rest)).
  - discriminate.
  - constructor.
    + unfold not_char. apply negb_true_iff, Ascii.eqb_neq. congruence.
    + eapply Forall_impl; [exact Hrun|]. intros c Hc.
      unfold not_char. apply negb_true_iff, Ascii.eqb_neq. congruence.
  - simpl. lia.
  - reflexivity.
  - reflexivity.
Qed.

Lemma splice_erased_in (f : hit -> str) c ps :
  (forall h, f h = []) -> In c (splice f ps) -> In (Keep c) ps.
Proof.
  intros Hf. induction ps as [|[d|h] ps IH]; simpl; intros Hin.
  - exact Hin.
  - destruct Hin as [<-|Hin]; [left; reflexivity|right; apply IH; exact Hin].
  - rewrite Hf in Hin. right. apply IH. exact Hin.
Qed.

Lemma no_tag_in_cons c t :
  match_here re_tag 0 0 (c :: t) = None -> no_tag_in t -> no_tag_in (c :: t).
Proof.
  intros Hhead Htail p pre suf Heq. destruct pre as [|d pre].
  - cbn [app] in Heq. subst suf.
    destruct (ascii_dec c "<"%char) as [->|Hne].
    + apply tag_match_none. apply tag_match_none in Hhead. exact Hhead.
    + apply tag_match_other. exact Hne.
  - injection Heq as _ Heq. eapply Htail. exact Heq.
Qed.

(** Removing the tags of a text leaves a text without tags. *)
Lemma erase_tags_no_tag (f : hit -> str) :
  (forall h, f h = []) ->
  forall s pos skip, no_tag_in (splice f (scan re_tag pos skip s)).
Proof.
  intros Hf. induction s as [|c s IH]; intros pos skip.
  - assert (Hnil : splice f (scan re_tag pos skip []) = []) by (destruct skip; reflexivity).
    rewrite Hnil. intros p pre suf Heq.
    destruct pre, suf; try discriminate. reflexivity.
  - destruct skip as [|skip]; [|apply IH].
    cbn [scan].
    destruct (match_here re_tag 0 pos (c :: s)) as [[[i sls] rest]|] eqn:Hm.
    + assert (Hlen : exists n, length (concat sls) = S n).
      { unfold re_tag, one in Hm.
        cbn [match_here bol atoms rmatch strip_prefix txt list_ascii_of_string] in Hm.
        destruct (Ascii.eqb "<" c); [|discriminate].
        destruct (greedy _ _ 1 s) as [[sl [sls' rest']]|]; cbn in Hm; [|discriminate].
        injection Hm as _ <- _. cbn. eexists. reflexivity. }
      destruct Hlen as [n Hn]. rewrite Hn. cbn [splice]. rewrite Hf. apply IH.
    + cbn [splice]. apply no_tag_in_cons; [|apply IH].
      destruct (ascii_dec c "<"%char) as [->|Hne]; [|apply tag_match_other; exact Hne].
      apply tag_match_none. apply tag_match_none in Hm.
      destruct s as [|x s]; [reflexivity|].
      destruct (ascii_dec x ">"%char) as [->|Hx].
      * cbn [scan]. rewrite tag_match_other by discriminate. cbn [splice].
        apply tag_body_at_close.
      * apply tag_body_without_close. intros Hin.
        apply (splice_erased_in f _ _ Hf) in Hin. apply scan_keep_in in Hin.
        destruct Hin as [Heq|Hin]; [congruence|].
        exact (tag_body_found x s Hx Hin Hm).
Qed.

Lemma scan_nowhere re :
  forall t pos,
    (forall p pre suf, t = pre ++ suf -> match_here re 0 p suf = None) ->
    scan re pos 0 t = map Keep t.
Proof.
  induction t as [|c t IH]; intros pos Hnone.
  - cbn [scan]. rewrite (Hnone pos [] [] eq_refl). reflexivity.
  - cbn [scan]. rewrite (Hnone pos [] (c :: t) eq_refl). cbn [map]. f_equal.
    apply IH. intros p pre suf Heq. apply (Hnone p (c :: pre) suf).
    rewrite Heq. reflexivity.
Qed.

Lemma no_tag_in_tagless t : no_tag_in t -> tagless t.
Proof.
  intros H. unfold tagless, exec_all.
  rewrite (scan_nowhere re_tag t 0 H). apply hits_keep.
Qed.

(** The text kept of a code block holds no tag, whatever the block held. *)
Lemma cleanContent_tagless content : tagless (cleanContent content).
Proof.
  apply no_tag_in_tagless. unfold cleanContent, sub0, replace_tpl, replace_fn.
  apply erase_tags_no_tag. intros h. reflexivity.
Qed.

End tagless_facts.

Section transcoder_claim.
Import Js Transcoder.


End transcoder_claim.

Example general_tags_are_removed :
  Transcoder.convertHtmlToMarkdown (Transcoder.pre_block (txt "<span>x</span> &lt; y")) []
  = Some (Transcoder.fence (txt "x &lt; y")).
Proof. vm_compute. reflexivity. Qed.



(** ** Every match is a piece of the input *)

Section engine_facts.
Import Js Matching.

Lemma strip_prefix_Some l : forall s t, strip_prefix l s = Some t -> s = l ++ t.
Proof.
  induction l as [|a l IH]; intros s t H; simpl in H.
  - injection H as ->. reflexivity.
  - destruct s as [|b s]; [discriminate|].
    destruct (Ascii.eqb a b) eqn:Hab; [|discriminate].
    apply Ascii.eqb_eq in Hab. subst b. rewrite (IH s t H). reflexivity.
Qed.

Lemma stop_sound (k : cont) need t sl m :
  stop k need t = Some (sl, m) -> need = 0 /\ sl = [] /\ k t = Some m.
Proof.
  unfold stop. destruct need; [|discriminate].
  destruct (k t) as [m'|]; [|discriminate]. intros [= <- <-]. auto.
Qed.

Lemma greedy_sound p (k : cont) :
  forall t need sl m,
    greedy p k need t = Some (sl, m) ->
    Forall (fun c => p c = true) sl /\ need <= length sl
    /\ exists t', t = sl ++ t' /\ k t' = Some m.
Proof.
  induction t as [|c t IH]; intros need sl m H.
  - apply stop_sound in H as (-> & -> & Hk). split_and!; [constructor|simpl; lia|].
    exists []. auto.
  - cbn [greedy] in H. destruct (p c) eqn:Hp.
    + destruct (greedy p k (pred need) t) as [[sl' m']|] eqn:Hg; cbn [grow] in H.
      * injection H as <- <-.
        destruct (IH _ _ _ Hg) as (Hall & Hlen & t' & -> & Hk).
        split_and!; [constructor; assumption|simpl; lia|].
        exists t'. auto.
      * apply stop_sound in H as (-> & -> & Hk). split_and!; [constructor|simpl; lia|].
        exists (c :: t). auto.
    + apply stop_sound in H as (-> & -> & Hk). split_and!; [constructor|simpl; lia|].
      exists (c :: t). auto.
Qed.

Lemma lazy_sound p (k : cont) :
  forall t need sl m,
    lazy p k need t = Some (sl, m) ->
    Forall (fun c => p c = true) sl /\ need <= length sl
    /\ exists t', t = sl ++ t' /\ k t' = Some m.
Proof.
  induction t as [|c t IH]; intros need sl m H.
  - cbn [lazy] in H. destruct (stop k need []) as [r|] eqn:Hs; [|discriminate].
    injection H as ->. apply stop_sound in Hs as (-> & -> & Hk).
    split_and!; [constructor|simpl; lia|]. exists []. auto.
  - cbn [lazy] in H. destruct (stop k need (c :: t)) as [r|] eqn:Hs.
    + injection H as ->. apply stop_sound in Hs as (-> & -> & Hk).
      split_and!; [constructor|simpl; lia|]. exists (c :: t). auto.
    + destruct (p c) eqn:Hp; [|discriminate].
      destruct (lazy p k (pred need) t) as [[sl' m']|] eqn:Hl; cbn [grow] in H; [|discriminate].
      injection H as <- <-.
      destruct (IH _ _ _ Hl) as (Hall & Hlen & t' & -> & Hk).
      split_and!; [constructor; assumption|simpl; lia|].
      exists t'. auto.
Qed.

Lemma push_Some sl (o : option matched) sls rest :
  push sl o = Some (sls, rest) ->
  exists sls', sls = sl :: sls' /\ o = Some (sls', rest).
Proof.
  destruct o as [[sls' rest']|]; [|discriminate]. intros [= <- <-]. eauto.
Qed.

Lemma unpack_Some (o : option (str * matched)) sls rest :
  unpack o = Some (sls, rest) ->
  exists sl sls', sls = sl :: sls' /\ o = Some (sl, (sls', rest)).
Proof.
  destruct o as [[sl [sls' rest']]|]; [|discriminate]. intros [= <- <-]. eauto.
Qed.

(** A match of a sequence of atoms consumes, atom by atom, a prefix of
    the input. *)
Lemma rmatch_sound r :
  forall s sls rest,
    rmatch r s = Some (sls, rest) ->
    Forall2 consumes r sls /\ s = concat sls ++ rest.
Proof.
  induction r as [|a r IH]; intros s sls rest H.
  - injection H as <- <-. split; [constructor|reflexivity].
  - destruct a as [l|l|p|p lo|p lo|]; cbn [rmatch] in H.
    + destruct (strip_prefix l s) as [t|] eqn:Hl; [|discriminate].
      apply push_Some in H as (sls' & -> & Hk). apply IH in Hk as [Hall ->].
      apply strip_prefix_Some in Hl as ->.
      split; [constructor; [reflexivity|assumption]|]. cbn [concat]. apply app_assoc.
    + destruct (strip_prefix l s) as [t|] eqn:Hl.
      * destruct (push l (rmatch r t)) as [m|] eqn:Hm.
        -- injection H as ->. apply push_Some in Hm as (sls' & -> & Hk).
           apply IH in Hk as [Hall ->]. apply strip_prefix_Some in Hl as ->.
           split; [constructor; [left; reflexivity|assumption]|].
           cbn [concat]. apply app_assoc.
        -- apply push_Some in H as (sls' & -> & Hk). apply IH in Hk as [Hall ->].
           split; [constructor; [right; reflexivity|assumption]|reflexivity].
      * apply push_Some in H as (sls' & -> & Hk). apply IH in Hk as [Hall ->].
        split; [constructor; [right; reflexivity|assumption]|reflexivity].
    + destruct s as [|c t]; [discriminate|]. destruct (p c) eqn:Hp; [|discriminate].
      apply push_Some in H as (sls' & -> & Hk). apply IH in Hk as [Hall ->].
      split; [constructor; [exists c; auto|assumption]|reflexivity].
    + apply unpack_Some in H as (sl & sls' & -> & Hg).
      apply greedy_sound in Hg as (Hp & Hlo & t' & -> & Hk).
      apply IH in Hk as [Hall ->].
      split; [constructor; [split; assumption|assumption]|].
      cbn [concat]. apply app_assoc.
    + apply unpack_Some in H as (sl & sls' & -> & Hg).
      apply lazy_sound in Hg as (Hp & Hlo & t' & -> & Hk).
      apply IH in Hk as [Hall ->].
      split; [constructor; [split; assumption|assumption]|].
      cbn [concat]. apply app_assoc.
    + destruct s as [|c t]; [|discriminate].
      apply push_Some in H as (sls' & -> & Hk). apply IH in Hk as [Hall Hs].
      split; [constructor; [reflexivity|assumption]|exact Hs].
Qed.

(** A pattern that holds an end-of-input mark leaves nothing of the
    input. *)
Lemma rmatch_Eol r :
  forall s sls rest,
    rmatch r s = Some (sls, rest) -> In Eol r -> rest = [].
Proof.
  induction r as [|a r IH]; intros s sls rest H Hin; [destruct Hin|].
  destruct Hin as [->|Hin].
  - cbn [rmatch] in H. destruct s as [|c t]; [|discriminate].
    apply push_Some in H as (sls' & -> & Hk).
    apply rmatch_sound in Hk as [_ Hs]. symmetry in Hs.
    apply app_eq_nil in Hs as [_ ->]. reflexivity.
  - destruct a as [l|l|p|p lo|p lo|]; cbn [rmatch] in H.
    + destruct (strip_prefix l s) as [t|]; [|discriminate].
      apply push_Some in H as (sls' & -> & Hk). eapply IH; eassumption.
    + destruct (strip_prefix l s) as [t|].
      * destruct (push l (rmatch r t)) as [m|] eqn:Hm.
        -- injection H as ->. apply push_Some in Hm as (sls' & -> & Hk).
           eapply IH; eassumption.
        -- apply push_Some in H as (sls' & -> & Hk). eapply IH; eassumption.
      * apply push_Some in H as (sls' & -> & Hk). eapply IH; eassumption.
    + destruct s as [|c t]; [discriminate|]. destruct (p c); [|discriminate].
      apply push_Some in H as (sls' & -> & Hk). eapply IH; eassumption.
    + apply unpack_Some in H as (sl & sls' & -> & Hg).
      apply greedy_sound in Hg as (_ & _ & t' & _ & Hk). eapply IH; eassumption.
    + apply unpack_Some in H as (sl & sls' & -> & Hg).
      apply lazy_sound in Hg as (_ & _ & t' & _ & Hk). eapply IH; eassumption.
    + destruct s as [|c t]; [|discriminate].
      apply push_Some in H as (sls' & -> & Hk). eapply IH; eassumption.
Qed.

Lemma match_here_sound re :
  forall i pos s j sls rest,
    match_here re i pos s = Some (j, sls, rest) ->
    exists a,
      re !! (j - i) = Some a /\ i <= j
      /\ rmatch (atoms a) s = Some (sls, rest)
      /\ (bol a = true -> pos = 0).
Proof.
  induction re as [|a re IH]; intros i pos s j sls rest H; [discriminate|].
  cbn [match_here] in H.
  destruct (if bol a then if Nat.eqb pos 0 then rmatch (atoms a) s else None
            else rmatch (atoms a) s) as [[sls' rest']|] eqn:Hm.
  - injection H as <- <- <-. exists a. rewrite Nat.sub_diag.
    destruct (bol a).
    + destruct (Nat.eqb pos 0) eqn:Hp; [|discriminate]. apply Nat.eqb_eq in Hp.
      split_and!; [reflexivity|lia|exact Hm|intros _; exact Hp].
    + split_and!; [reflexivity|lia|exact Hm|discriminate].
  - apply IH in H as (b & Hb & Hle & Hr & Hbol). exists b.
    replace (j - i) with (S (j - S i)) by lia. split_and!; [exact Hb|lia|exact Hr|exact Hbol].
Qed.

(** Every match that a search reports is a piece of the input. *)
Lemma scan_occurs re :
  forall s pos skip h,
    In (Found h) (scan re pos skip s) ->
    exists pre a,
      s = pre ++ h_text h ++ h_after h
      /\ h_index h = pos + length pre
      /\ re !! h_alt h = Some a
      /\ Forall2 consumes (atoms a) (h_slices h)
      /\ (bol a = true -> h_index h = 0)
      /\ (In Eol (atoms a) -> h_after h = []).
Proof.
  assert (Hhere : forall s pos i sls rest,
            match_here re 0 pos s = Some (i, sls, rest) ->
            exists a,
              s = [] ++ h_text (Hit i sls pos rest) ++ h_after (Hit i sls pos rest)
              /\ h_index (Hit i sls pos rest) = pos + length (@nil ascii)
              /\ re !! h_alt (Hit i sls pos rest) = Some a
              /\ Forall2 consumes (atoms a) (h_slices (Hit i sls pos rest))
              /\ (bol a = true -> h_index (Hit i sls pos rest) = 0)
              /\ (In Eol (atoms a) -> h_after (Hit i sls pos rest) = [])).
  { intros s pos i sls rest Hm.
    apply match_here_sound in Hm as (a & Ha & _ & Hr & Hbol).
    pose proof (rmatch_Eol _ _ _ _ Hr) as Heol.
    apply rmatch_sound in Hr as [Hall ->]. rewrite Nat.sub_0_r in Ha.
    exists a. cbn. split_and!; [reflexivity|lia|exact Ha|exact Hall|exact Hbol|exact Heol]. }
  assert (Hshift : forall (c : ascii) s' pos h,
            (exists pre a,
               s' = pre ++ h_text h ++ h_after h
               /\ h_index h = S pos + length pre
               /\ re !! h_alt h = Some a
               /\ Forall2 consumes (atoms a) (h_slices h)
               /\ (bol a = true -> h_index h = 0)
               /\ (In Eol (atoms a) -> h_after h = [])) ->
            exists pre a,
              c :: s' = pre ++ h_text h ++ h_after h
              /\ h_index h = pos + length pre
              /\ re !! h_alt h = Some a
              /\ Forall2 consumes (atoms a) (h_slices h)
              /\ (bol a = true -> h_index h = 0)
              /\ (In Eol (atoms a) -> h_after h = [])).
  { intros c s' pos h (pre & a & -> & Hi & Ha & Hall & Hbol & Heol).
    exists (c :: pre), a.
    split_and!; [reflexivity|simpl; lia|exact Ha|exact Hall|exact Hbol|exact Heol]. }
  induction s as [|c s IH]; intros pos skip h Hin.
  - destruct skip; [|destruct Hin]. cbn [scan] in Hin.
    destruct (match_here re 0 pos []) as [[[i sls] rest]|] eqn:Hm; [|destruct Hin].
    destruct Hin as [[= <-]|[]]. destruct (Hhere _ _ _ _ _ Hm) as (a & H). exists [], a. exact H.
  - destruct skip as [|skip]; cbn [scan] in Hin.
    + destruct (match_here re 0 pos (c :: s)) as [[[i sls] rest]|] eqn:Hm.
      * destruct Hin as [[= <-]|Hin].
        -- destruct (Hhere _ _ _ _ _ Hm) as (a & H). exists [], a. exact H.
        -- apply (Hshift c s pos). destruct (length (concat sls)).
           ++ destruct Hin as [Hin|Hin]; [discriminate|]. eapply IH. exact Hin.
           ++ eapply IH. exact Hin.
      * destruct Hin as [Hin|Hin]; [discriminate|].
        apply (Hshift c s pos). eapply IH. exact Hin.
    + apply (Hshift c s pos). eapply IH. exact Hin.
Qed.

Lemma replace_occurs re s h :
  In (Found h) (scan re 0 0 s) -> occurs re s h.
Proof.
  intros Hin. apply scan_occurs in Hin as (pre & a & Hs & Hi & Ha & Hall & Hbol & Heol).
  exists pre, a. split_and!; [exact Hs|exact Hi|exact Ha|exact Hall| |exact Heol].
  intros Hb. apply Hbol in Hb. rewrite Hb in Hi. destruct pre; [reflexivity|discriminate].
Qed.

(** Putting every match back in its place gives the input. *)
Lemma scan_rebuild re :
  forall s pos skip, splice h_text (scan re pos skip s) = skipn skip s.
Proof.
  induction s as [|c s IH]; intros pos skip.
  - destruct skip; [|reflexivity]. cbn [scan].
    destruct (match_here re 0 pos []) as [[[i sls] rest]|] eqn:Hm; [|reflexivity].
    apply match_here_sound in Hm as (a & _ & _ & Hr & _).
    apply rmatch_sound in Hr as [_ Hs]. cbn [splice]. unfold h_text. cbn [h_slices].
    symmetry in Hs. apply app_eq_nil in Hs as [-> _]. reflexivity.
  - destruct skip as [|skip]; cbn [scan]; [|apply IH].
    destruct (match_here re 0 pos (c :: s)) as [[[i sls] rest]|] eqn:Hm.
    + apply match_here_sound in Hm as (a & _ & _ & Hr & _).
      apply rmatch_sound in Hr as [_ Hs]. cbn [splice]. unfold h_text. cbn [h_slices].
      destruct (concat sls) as [|d x] eqn:Hx; cbn [length].
      * cbn [splice app]. rewrite IH. reflexivity.
      * rewrite IH. cbn [app] in Hs. injection Hs as -> ->.
        cbn [skipn app]. f_equal. rewrite skipn_app, Nat.sub_diag, skipn_all. reflexivity.
    + cbn [splice]. rewrite IH. reflexivity.
Qed.

Lemma splice_ext f g ps :
  (forall h, In (Found h) ps -> f h = g h) -> splice f ps = splice g ps.
Proof.
  induction ps as [|[c|h] ps IH]; intros H; cbn [splice]; [reflexivity| |].
  - rewrite IH; [reflexivity|]. intros; apply H; right; assumption.
  - rewrite (H h (or_introl eq_refl)), IH; [reflexivity|]. intros; apply H; right; assumption.
Qed.

(** A replacement that puts back what it finds changes nothing. *)
Lemma replace_fn_fixed re f s :
  (forall h, occurs re s h -> f h = h_text h) -> replace_fn re f s = s.
Proof.
  intros H. unfold replace_fn.
  rewrite (splice_ext f h_text); [apply (scan_rebuild re s 0 0)|].
  intros h Hin. apply H, replace_occurs, Hin.
Qed.

(** A replacement acts on a filtered text through the filtered matches. *)
Lemma filter_splice (P : ascii -> bool) f ps :
  (forall h, In (Found h) ps -> List.filter P (f h) = List.filter P (h_text h)) ->
  List.filter P (splice f ps) = List.filter P (splice h_text ps).
Proof.
  induction ps as [|[c|h] ps IH]; intros H; cbn [splice]; [reflexivity| |].
  - cbn [List.filter]. rewrite IH; [reflexivity|]. intros; apply H; right; assumption.
  - rewrite !List.filter_app, (H h (or_introl eq_refl)), IH; [reflexivity|].
    intros; apply H; right; assumption.
Qed.

Lemma replace_fn_filter (P : ascii -> bool) re f s :
  (forall h, occurs re s h -> List.filter P (f h) = List.filter P (h_text h)) ->
  List.filter P (replace_fn re f s) = List.filter P s.
Proof.
  intros H. unfold replace_fn. rewrite (filter_splice P f).
  - rewrite (scan_rebuild re s 0 0). reflexivity.
  - intros h Hin. apply H, replace_occurs, Hin.
Qed.

End engine_facts.

(** ** Folder names and links *)

Section name_facts.
Import Js Matching Layout Links.

Lemma is_hyphen_eq c : is_hyphen c = true -> c = "-"%char.
Proof. unfold is_hyphen, is_char. intros H. apply Ascii.eqb_eq in H. congruence. Qed.

Lemma hyphen_not_alnum c : is_hyphen c = true -> is_alnum c = false.
Proof. intros H. apply is_hyphen_eq in H. subst c. reflexivity. Qed.

Lemma hyphens_not_alnum sl :
  Forall (fun c => is_char "-" c = true) sl -> List.filter is_alnum sl = [].
Proof.
  induction 1 as [|c sl Hc _ IH]; [reflexivity|].
  cbn [List.filter]. rewrite (hyphen_not_alnum c Hc). exact IH.
Qed.

(** The matches of the three patterns of [sanitizeFolderName]. *)
Lemma occurs_not_alnum s h :
  occurs re_not_alnum s h ->
  exists pre c, s = pre ++ c :: h_after h /\ h_text h = [c] /\ is_alnum c = false.
Proof.
  destruct h as [i sls idx aft]. unfold occurs, h_text. cbn [h_alt h_slices h_index h_after].
  intros (pre & a & Hs & _ & Ha & Hall & _ & _).
  destruct i as [|n]; [|destruct n; discriminate]. injection Ha as <-.
  cbn [atoms] in Hall.
  inversion Hall as [|? sl ? sls' Hone Hnil]; subst. inversion Hnil; subst.
  cbn [consumes] in Hone. destruct Hone as (c & -> & Hc).
  exists pre, c. split_and!; [reflexivity|reflexivity|].
  destruct (is_alnum c); [discriminate|reflexivity].
Qed.

Lemma occurs_hyphens s h :
  occurs re_hyphens s h ->
  exists pre, s = pre ++ h_text h ++ h_after h
    /\ Forall (fun c => is_char "-" c = true) (h_text h) /\ 1 <= length (h_text h).
Proof.
  destruct h as [i sls idx aft]. unfold occurs, h_text. cbn [h_alt h_slices h_index h_after].
  intros (pre & a & Hs & _ & Ha & Hall & _ & _).
  destruct i as [|n]; [|destruct n; discriminate]. injection Ha as <-.
  cbn [atoms] in Hall.
  inversion Hall as [|? sl ? sls' Hrun Hnil]; subst. inversion Hnil; subst.
  cbn [consumes] in Hrun. destruct Hrun as [Hp Hlen].
  cbn [concat]. rewrite app_nil_r. exists pre. split_and!; [reflexivity|exact Hp|exact Hlen].
Qed.

Lemma occurs_edge_hyphen s h :
  occurs re_edge_hyphen s h ->
  h_text h = txt "-" /\ (s = txt "-" ++ h_after h \/ exists pre, s = pre ++ txt "-").
Proof.
  destruct h as [i sls idx aft]. unfold occurs, h_text. cbn [h_alt h_slices h_index h_after].
  intros (pre & a & Hs & _ & Ha & Hall & Hbol & Heol).
  destruct i as [|[|n]]; [| |discriminate]; injection Ha as <-; cbn [atoms bol] in *.
  - inversion Hall as [|? sl ? sls' Hl Hnil]; subst. inversion Hnil; subst.
    cbn [consumes] in Hl. subst sl. rewrite (Hbol eq_refl).
    split; [reflexivity|left; reflexivity].
  - inversion Hall as [|? sl ? sls' Hl Hrest]; subst.
    inversion Hrest as [|? sl2 ? sls2 Hl2 Hnil]; subst. inversion Hnil; subst.
    cbn [consumes] in Hl, Hl2. subst sl sl2. rewrite Heol by (right; left; reflexivity).
    split; [reflexivity|right; exists pre]. reflexivity.
Qed.

(** *** The letters and digits of a name are kept *)

Lemma sanitizeFolderName_alnum (name : str) :
  List.filter is_alnum (sanitizeFolderName name) = List.filter is_alnum name.
Proof.
  unfold sanitizeFolderName, replace_tpl.
  rewrite replace_fn_filter.
  - rewrite replace_fn_filter.
    + apply replace_fn_filter. intros h Hh.
      apply occurs_not_alnum in Hh as (pre & c & _ & -> & Hc).
      cbn [List.filter]. rewrite Hc. reflexivity.
    + intros h Hh. apply occurs_hyphens in Hh as (pre & _ & Hp & _).
      rewrite (hyphens_not_alnum _ Hp). reflexivity.
  - intros h Hh. apply occurs_edge_hyphen in Hh as [-> _]. reflexivity.
Qed.

(** *** A name that is already tidy is kept as it is *)

Lemma no_double_run pre sl post :
  no_double (map is_hyphen (pre ++ sl ++ post)) = true ->
  Forall (fun c => is_char "-" c = true) sl ->
  length sl <= 1.
Proof.
  intros Hnd Hsl. induction pre as [|a pre IH].
  - destruct sl as [|x [|y sl]]; [simpl; lia|simpl; lia|].
    inversion Hsl as [|? ? Hx Hrest]; subst. inversion Hrest as [|? ? Hy _]; subst.
    cbn [app map no_double] in Hnd. fold (is_hyphen x) in Hx. fold (is_hyphen y) in Hy.
    rewrite Hx, Hy in Hnd. discriminate.
  - apply IH. cbn [app map] in Hnd.
    destruct (map is_hyphen (pre ++ sl ++ post)) as [|b bs] eqn:Hm; [reflexivity|].
    rewrite no_double_cons in Hnd. apply andb_true_iff in Hnd as [_ Hnd]. exact Hnd.
Qed.

Lemma last_hyphen pre : List.last (map is_hyphen (pre ++ txt "-")) false = true.
Proof.
  rewrite map_app. change (map is_hyphen (txt "-")) with [true]. apply last_last.
Qed.

Lemma sanitizeFolderName_fixed (s : str) :
  Forall name_char s -> tidy s -> sanitizeFolderName s = s.
Proof.
  intros Hchars (Hnd & Hhd & Hlast). unfold sanitizeFolderName, replace_tpl.
  assert (H1 : replace_fn re_not_alnum
                 (fun h => GetSubstitution (h_text h) (firstn (h_index h) s) (h_after h)
                             (no_groups h) (txt "-")) s = s).
  { apply replace_fn_fixed. intros h Hh.
    apply occurs_not_alnum in Hh as (pre & c & Hs & -> & Hc).
    rewrite Forall_forall in Hchars.
    destruct (Hchars c) as [Halnum | ->]; [|congruence|reflexivity].
    rewrite Hs. apply list_elem_of_In, in_app_iff. right. left. reflexivity. }
  rewrite H1.
  assert (H2 : replace_fn re_hyphens
                 (fun h => GetSubstitution (h_text h) (firstn (h_index h) s) (h_after h)
                             (no_groups h) (txt "-")) s = s).
  { apply replace_fn_fixed. intros h Hh.
    apply occurs_hyphens in Hh as (pre & Hs & Hp & Hlen).
    rewrite Hs in Hnd. pose proof (no_double_run _ _ _ Hnd Hp) as Hle.
    destruct (h_text h) as [|c [|d sl]]; [simpl in Hlen; lia| |simpl in Hle; lia].
    inversion Hp as [|? ? Hc _]; subst. apply Ascii.eqb_eq in Hc. subst c. reflexivity. }
  rewrite H2.
  apply replace_fn_fixed. intros h Hh.
  apply occurs_edge_hyphen in Hh as [_ [Hs | [pre Hs]]]; exfalso.
  - rewrite Hs in Hhd. discriminate Hhd.
  - rewrite Hs, last_hyphen in Hlast. discriminate Hlast.
Qed.

Lemma folder_name_char c : folder_char c = true -> name_char c.
Proof.
  unfold folder_char, name_char, is_alnum. intros H.
  apply orb_true_iff in H as [H|H].
  - left. apply orb_true_iff in H as [H|H]; rewrite H; [reflexivity|].
    rewrite orb_true_r. reflexivity.
  - right. apply Ascii.eqb_eq in H. congruence.
Qed.

Lemma lower_folder_fixed c : folder_char c = true -> lower c = c.
Proof.
  revert c. intros [[] [] [] [] [] [] [] []]; intros H; try discriminate H; reflexivity.
Qed.

Lemma toLowerCase_fixed s :
  Forall (fun c => folder_char c = true) s -> toLowerCase s = s.
Proof.
  unfold toLowerCase. induction 1 as [|c s Hc _ IH]; [reflexivity|].
  cbn [map]. rewrite (lower_folder_fixed c Hc), IH. reflexivity.
Qed.

(** X1. A slug goes through [sanitizeFolderName] unchanged, so the folder
    of a tag bears the slug of the tag, and the link of a tag is the tag
    page of that slug. *)
Theorem slugs_are_kept (t : str) :
  is_slug t ->
  sanitizeFolderName t = t
  /\ getTagLink t = txt "https://leetcode.com/tag/" ++ t.
Proof.
  intros [Hchars Htidy].
  assert (Hfix : sanitizeFolderName t = t).
  { apply sanitizeFolderName_fixed; [|exact Htidy].
    eapply Forall_impl; [exact Hchars|]. intros c. apply folder_name_char. }
  split; [exact Hfix|]. unfold getTagLink. rewrite Hfix, (toLowerCase_fixed t Hchars).
  reflexivity.
Qed.

(** X2. [sanitizeFolderName] is idempotent: a name that has been sanitized
    is not changed by a second pass. *)
Theorem sanitizeFolderName_idempotent (name : str) :
  sanitizeFolderName (sanitizeFolderName name) = sanitizeFolderName name.
Proof.
  apply sanitizeFolderName_fixed; [apply sanitizeFolderName_chars|apply sanitizeFolderName_tidy].
Qed.

(** X3. [sanitizeFolderName] keeps the letters and digits of a name, all
    of them and in their order; with the characters that the result can
    hold, whatever else the name held has become hyphens or is gone. *)
Theorem sanitizeFolderName_keeps_alnum (name : str) :
  List.filter is_alnum (sanitizeFolderName name) = List.filter is_alnum name
  /\ Forall (fun c => is_alnum c = true \/ c = "-"%char) (sanitizeFolderName name).
Proof.
  split; [apply sanitizeFolderName_alnum|apply sanitizeFolderName_chars].
Qed.

(** *** The links under a description *)

Lemma includes_step pat c s :
  strip_prefix pat (c :: s) = None -> includes pat (c :: s) = includes pat s.
Proof. intros H. cbn [includes]. rewrite H. reflexivity. Qed.

Lemma includes_free a pat x t :
  Forall (fun c => c <> a) x -> includes (a :: pat) (x ++ t) = includes (a :: pat) t.
Proof.
  induction 1 as [|c x Hc _ IH]; [reflexivity|].
  cbn [app]. rewrite includes_step; [exact IH|]. apply strip_prefix_head. congruence.
Qed.

Lemma strip_prefix_sep a x :
  forall s,
    Forall (fun c => c <> a) x -> Forall (fun c => c <> a) s -> s <> x ->
    strip_prefix (x ++ [a]) (s ++ [a]) = None.
Proof.
  induction x as [|c x IH]; intros s Hx Hs Hne.
  - destruct s as [|b s]; [contradiction|]. inversion Hs; subst.
    apply strip_prefix_head. congruence.
  - inversion Hx; subst. destruct s as [|b s].
    + apply strip_prefix_head. assumption.
    + inversion Hs; subst. cbn [app strip_prefix].
      destruct (Ascii.eqb c b) eqn:Hcb; [|reflexivity].
      apply Ascii.eqb_eq in Hcb. subst b. apply IH; [assumption|assumption|congruence].
Qed.

Lemma replace_first_absent pat template s :
  pat <> [] -> includes pat s = false -> replace_first pat template s = s.
Proof.
  intros Hpat Hinc. unfold replace_first.
  pose proof (replace_first_from_skip pat template s s 0 []) as Hskip.
  rewrite app_nil_r in Hskip. rewrite Hskip.
  - destruct pat; [contradiction|]. reflexivity.
  - intros pre t Hs _. rewrite app_nil_r. eapply includes_false_suffix.
    rewrite <- Hs. exact Hinc.
Qed.

Lemma problem_url_clear slug :
  Forall (fun c => c <> "/"%char) slug -> slug <> txt "description" ->
  includes (txt "/description/") (problem_url slug) = false.
Proof.
  intros Hslug Hne. unfold problem_url.
  change (txt "/description/") with ("/"%char :: txt "description/").
  change (txt "https://leetcode.com/problems/")
    with (txt "https:" ++ "/"%char :: "/"%char :: txt "leetcode.com" ++ "/"%char
            :: txt "problems" ++ ["/"%char]).
  rewrite <- !app_assoc.
  rewrite includes_free by (repeat constructor; discriminate).
  cbn [app]. rewrite includes_step by reflexivity.
  rewrite includes_step by reflexivity.
  rewrite <- !app_assoc.
  rewrite includes_free by (repeat constructor; discriminate).
  cbn [app]. rewrite includes_step by reflexivity.
  rewrite <- !app_assoc.
  rewrite includes_free by (repeat constructor; discriminate).
  cbn [app]. rewrite includes_step.
  - rewrite includes_free by exact Hslug. reflexivity.
  - cbn [strip_prefix]. rewrite Ascii.eqb_refl.
    change (txt "description/") with (txt "description" ++ ["/"%char]).
    apply strip_prefix_sep; [repeat constructor; discriminate|exact Hslug|exact Hne].
Qed.

(** X4. A description is saved with the address of its item, which ends
    with the slug and holds no [/description/] part, so the links to the
    submissions and to the solutions written under it are both that same
    address. *)
Theorem links_point_at_the_item (slug : str) :
  Forall (fun c => c <> "/"%char) slug -> slug <> txt "description" ->
  getSubmissionLink (problem_url slug) = problem_url slug
  /\ getSolutionLink (problem_url slug) = problem_url slug.
Proof.
  intros Hslug Hne. unfold getSubmissionLink, getSolutionLink.
  split; apply replace_first_absent; try discriminate; apply problem_url_clear; assumption.
Qed.

End name_facts.

Lemma slugs_are_kept_witness :
  Layout.sanitizeFolderName (txt "hash-table") = txt "hash-table"
  /\ Links.getTagLink (txt "hash-table") = txt "https://leetcode.com/tag/hash-table".
Proof.
  apply (slugs_are_kept (txt "hash-table")). split.
  - repeat constructor.
  - repeat split.
Defined.

Lemma links_point_at_the_item_witness :
  Links.getSubmissionLink (Links.problem_url (txt "two-sum")) = Links.problem_url (txt "two-sum")
  /\ Links.getSolutionLink (Links.problem_url (txt "two-sum")) = Links.problem_url (txt "two-sum").
Proof.
  apply (links_point_at_the_item (txt "two-sum")).
  - repeat constructor; discriminate.
  - discriminate.
Defined.

(** On an address that does hold the part, the first occurrence is
    replaced. *)
Example getSubmissionLink_description :
  Links.getSubmissionLink (txt "https://leetcode.com/problems/two-sum/description/")
  = txt "https://leetcode.com/problems/two-sum/submissions/".
Proof. vm_compute. reflexivity. Qed.

(** ** Images of a markdown document *)

Section image_facts.
Import Js Matching Media.

(** *** The name of a saved image *)

Lemma from_last_None sep s :
  from_last sep s = None -> Forall (fun c => c <> sep) s.
Proof.
  induction s as [|a s IH]; intros H; [constructor|]. cbn [from_last] in H.
  destruct (from_last sep s) as [r|]; [discriminate|].
  destruct (Ascii.eqb a sep) eqn:Ha; [discriminate|].
  constructor; [apply Ascii.eqb_neq; exact Ha|apply IH; reflexivity].
Qed.

Lemma from_last_Some sep s r :
  from_last sep s = Some r -> exists e, r = sep :: e /\ Forall (fun c => c <> sep) e.
Proof.
  revert r. induction s as [|a s IH]; intros r H; [discriminate|]. cbn [from_last] in H.
  destruct (from_last sep s) as [r'|] eqn:Hs.
  - injection H as <-. apply IH. reflexivity.
  - destruct (Ascii.eqb a sep) eqn:Ha; [|discriminate]. injection H as <-.
    apply Ascii.eqb_eq in Ha. subst a. exists s. split; [reflexivity|].
    apply from_last_None. exact Hs.
Qed.

Lemma last_split_free sep s : Forall (fun c => c <> sep) (List.last (split sep s) []).
Proof.
  apply Forall_forall. intros c Hc Heq. subst c. apply list_elem_of_In in Hc.
  induction s as [|a s IH]; [destruct Hc|]. cbn [split] in Hc.
  pose proof (split_nonempty sep s) as Hne.
  destruct (Ascii.eqb a sep) eqn:Ha.
  - destruct (split sep s) as [|seg segs]; [contradiction|]. apply IH. exact Hc.
  - destruct (split sep s) as [|seg segs]; [contradiction|].
    destruct segs as [|seg' segs].
    + cbn [List.last] in Hc, IH. destruct Hc as [->|Hc]; [|apply IH; exact Hc].
      rewrite Ascii.eqb_refl in Ha. discriminate.
    + apply IH. exact Hc.
Qed.

(** X5. The extension given to a saved image starts with a dot and holds
    no other dot and no slash, whatever the address of the image: with the
    running number in front of it, the file name is a single component of
    a path. *)
Theorem extension_is_one_suffix (imgUrl : str) :
  exists e,
    extension imgUrl = "."%char :: e
    /\ Forall (fun c => c <> "."%char /\ c <> "/"%char) e.
Proof.
  unfold extension.
  destruct (includes (txt ".") _);
    [|exists (txt "png"); split; [reflexivity|repeat constructor; discriminate]].
  destruct (from_last "." _) as [ext|] eqn:Hext;
    [|exists (txt "png"); split; [reflexivity|repeat constructor; discriminate]].
  destruct (from_last_Some _ _ _ Hext) as (e & -> & He). exists e. split; [reflexivity|].
  apply Forall_forall. intros c Hc. split.
  - rewrite Forall_forall in He. apply He. exact Hc.
  - pose proof (last_split_free "/"%char imgUrl) as Hfree. rewrite Forall_forall in Hfree.
    apply Hfree. apply list_elem_of_In.
    eapply from_last_incl; [exact Hext|]. right. apply list_elem_of_In. exact Hc.
Qed.

(** *** The requests of a run *)

Variable net : nat -> str -> bool.
Variable rel : str.

(** The operation given to [retryAsync] counts its invocations. *)
Lemma attempts_counts (f : nat -> unit + unit) retries delay :
  forall left i w,
    snd (fst (Retry.attempts (fun w => (f w, S w)) retries delay left i w))
    = w + Retry.calls (Retry.trace_of (Retry.attempts (fun w => (f w, S w)) retries delay left i w)).
Proof.
  induction left as [|left IH]; intros i w; cbn [Retry.attempts].
  - cbn. lia.
  - destruct (f w) as [e|v]; [|cbn; lia].
    destruct (i =? retries - 1); [cbn; lia|].
    specialize (IH (S i) (S w)).
    destruct (Retry.attempts _ retries delay left (S i) (S w)) as [[c w2] tr].
    unfold Retry.trace_of in *. cbn in *. lia.
Qed.

Lemma download_requests imgUrl w :
  exists c w' tr,
    download net imgUrl w = (c, w', tr) /\ w + 1 <= w' <= w + 3.
Proof.
  unfold download, Retry.retryAsync.
  pose proof (attempts_counts (fun w0 => if net w0 imgUrl then inr tt else inl tt)
                Retry.MAX_RETRIES Retry.RETRY_DELAY Retry.MAX_RETRIES 0 w) as Hcount.
  cbv beta in Hcount.
  pose proof (attempts_calls_le
                (fun w0 : nat => (if net w0 imgUrl then inr tt else inl tt, S w0))
                Retry.MAX_RETRIES Retry.RETRY_DELAY Retry.MAX_RETRIES 0 w) as Hle.
  destruct (attempts_head_called
              (fun w0 : nat => (if net w0 imgUrl then inr tt else inl tt, S w0))
              Retry.MAX_RETRIES Retry.RETRY_DELAY Retry.MAX_RETRIES 0 w)
    as [tl Hhead]; [unfold Retry.MAX_RETRIES; lia|].
  destruct (Retry.attempts _ _ _ _ 0 w) as [[c w'] tr].
  unfold Retry.trace_of in *. cbn [fst snd] in *. subst tr.
  exists c, w', (Retry.Called :: tl). split; [reflexivity|].
  cbn [Retry.calls] in *. unfold Retry.MAX_RETRIES in Hle. lia.
Qed.

Lemma visit_requests st imgUrl :
  requests st + 1 <= requests (visit net rel st imgUrl) <= requests st + 3
  /\ imageIndex (visit net rel st imgUrl) <= S (imageIndex st).
Proof.
  unfold visit.
  destruct (download_requests imgUrl (requests st)) as (c & w' & tr & -> & Hw).
  destruct c; cbn; lia.
Qed.

Lemma scanned_requests urls :
  forall st,
    requests st + length urls <= requests (fold_left (visit net rel) urls st)
      <= requests st + 3 * length urls
    /\ imageIndex (fold_left (visit net rel) urls st) <= imageIndex st + length urls.
Proof.
  induction urls as [|u urls IH]; intros st; cbn [fold_left length]; [lia|].
  pose proof (visit_requests st u) as Hv. specialize (IH (visit net rel st u)). lia.
Qed.

(** X6. Once the folder of the images is there, every image reference
    found in a document starts one download, in the order found, and
    costs at least one request and at most three; the images saved are at
    most as many as the references. *)
Theorem requests_per_reference (markdown : str) :
  downloads (scanned net rel markdown) = found markdown
  /\ length (found markdown) <= requests (scanned net rel markdown)
       <= 3 * length (found markdown)
  /\ imageIndex (scanned net rel markdown) <= length (found markdown).
Proof.
  unfold scanned. split; [apply (visit_downloads net rel)|].
  pose proof (scanned_requests (found markdown) (Progress [] 0 0 [])) as H.
  cbn [requests imageIndex] in H. lia.
Qed.

(** *** A run without network *)

Hypothesis offline : forall n u, net n u = false.

Lemma visit_offline st imgUrl :
  visit net rel st imgUrl
  = Progress (map_set imgUrl imgUrl (imageMap st)) (imageIndex st) (requests st + 3)
             (downloads st ++ [imgUrl]).
Proof.
  unfold visit, download, Retry.retryAsync, Retry.MAX_RETRIES.
  cbn [Retry.attempts]. rewrite !offline. cbn.
  replace (S (S (S (requests st)))) with (requests st + 3) by lia. reflexivity.
Qed.

(** An image map in which every address stands for itself. *)
Lemma map_set_diagonal (P : str -> Prop) u m :
  P u -> Forall (fun e => fst e = snd e /\ P (fst e)) m ->
  Forall (fun e => fst e = snd e /\ P (fst e)) (map_set u u m).
Proof.
  intros Hu. induction 1 as [|[k v] m Hkv Hm IH]; cbn [map_set].
  - constructor; [split; [reflexivity|exact Hu]|constructor].
  - destruct (decide (u = k)).
    + constructor; [split; [reflexivity|exact Hu]|exact Hm].
    + constructor; [exact Hkv|exact IH].
Qed.

Lemma scanned_offline (P : str -> Prop) urls :
  Forall P urls ->
  forall st,
    Forall (fun e => fst e = snd e /\ P (fst e)) (imageMap st) ->
    Forall (fun e => fst e = snd e /\ P (fst e))
           (imageMap (fold_left (visit net rel) urls st))
    /\ requests (fold_left (visit net rel) urls st) = requests st + 3 * length urls.
Proof.
  induction 1 as [|u urls Hu _ IH]; intros st Hst; cbn [fold_left length].
  - split; [exact Hst|lia].
  - rewrite visit_offline.
    destruct (IH (Progress (map_set u u (imageMap st)) (imageIndex st) (requests st + 3)
                           (downloads st ++ [u]))) as [Hm Hr].
    + cbn [imageMap]. apply map_set_diagonal; assumption.
    + split; [exact Hm|]. rewrite Hr. cbn [requests]. lia.
Qed.

Lemma occurs_image u s h :
  occurs (re_image u) s h ->
  exists alt, h_slices h = [txt "!["; alt; txt "]("; u; txt ")"].
Proof.
  destruct h as [i sls idx aft]. unfold occurs. cbn [h_alt h_slices h_index h_after].
  intros (pre & a & _ & _ & Ha & Hall & _ & _).
  destruct i as [|n]; [|destruct n; discriminate]. injection Ha as <-.
  cbn [atoms] in Hall.
  repeat match goal with
         | H : Forall2 consumes (_ :: _) _ |- _ =>
           inversion H; clear H; subst
         | H : Forall2 consumes [] _ |- _ => inversion H; clear H; subst
         end.
  repeat match goal with
         | H : consumes (Lit _) _ |- _ => cbn [consumes] in H; subst
         end.
  eexists. reflexivity.
Qed.

(** Writing an address in the place of itself changes nothing. *)
Lemma substitute_same u markdown :
  Forall (fun c => c <> "$"%char) u -> substitute markdown (u, u) = markdown.
Proof.
  intros Hu. unfold substitute, replace_tpl. apply replace_fn_fixed. intros h Hh.
  apply occurs_image in Hh as [alt Hsl]. unfold group, h_text. rewrite Hsl.
  cbn [skipn firstn concat]. rewrite !app_nil_r.
  rewrite (template_image _ _ _ alt u Hu). reflexivity.
Qed.

Lemma substitute_all m :
  Forall (fun e => fst e = snd e /\ Forall (fun c => c <> "$"%char) (fst e)) m ->
  forall markdown, fold_left substitute m markdown = markdown.
Proof.
  induction 1 as [|[k v] m [Hkv Hk] _ IH]; intros markdown; cbn [fold_left]; [reflexivity|].
  cbn [fst snd] in *. subst v. rewrite (substitute_same k markdown Hk). apply IH.
Qed.

(** X7. Without network every download fails after three requests, no
    image is numbered, and the document comes back as it was given, when
    no address found in it holds a dollar sign. *)
Theorem offline_keeps_the_document (markdown : str) :
  Forall (Forall (fun c => c <> "$"%char)) (found markdown) ->
  downloadImageFromMarkdown net rel markdown = markdown
  /\ requests (scanned net rel markdown) = 3 * length (found markdown)
  /\ imageIndex (scanned net rel markdown) = 0.
Proof.
  intros Hplain. unfold downloadImageFromMarkdown, scanned.
  destruct (scanned_offline _ (found markdown) Hplain (Progress [] 0 0 [])) as [Hm Hr];
    [constructor|].
  split; [apply substitute_all; exact Hm|]. split; [exact Hr|].
  assert (Hidx : forall urls st, imageIndex (fold_left (visit net rel) urls st) = imageIndex st).
  { induction urls as [|u urls IH]; intros st; cbn [fold_left]; [reflexivity|].
    rewrite IH, visit_offline. reflexivity. }
  rewrite Hidx. reflexivity.
Qed.

End image_facts.

Lemma offline_keeps_the_document_witness :
  Media.downloadImageFromMarkdown (fun _ _ => false) (txt "./images") Media.twice = Media.twice
  /\ Media.requests (Media.scanned (fun _ _ => false) (txt "./images") Media.twice)
     = 3 * length (Media.found Media.twice)
  /\ Media.imageIndex (Media.scanned (fun _ _ => false) (txt "./images") Media.twice) = 0.
Proof.
  apply (offline_keeps_the_document (fun _ _ => false) (txt "./images")).
  - intros n u. reflexivity.
  - assert (Hfound : Media.found Media.twice
                     = [txt "https://x.org/p/fig.svg"; txt "https://x.org/p/fig.svg"])
      by (vm_compute; reflexivity).
    rewrite Hfound. repeat constructor; discriminate.
Defined.

(** ** Descriptions in markdown *)

Section markdown_facts.
Import Js Matching Transcoder.

(** *** Patterns that cannot start *)

Lemma match_here_absent a re :
  Forall (fun al => exists l r, atoms al = Lit (a :: l) :: r) re ->
  forall i p s,
    match s with c :: _ => c <> a | [] => True end -> match_here re i p s = None.
Proof.
  induction 1 as [|[b ats] re (l & r & Hats) _ IH]; intros i p s Hs; [reflexivity|].
  cbn [atoms] in Hats. subst ats. cbn [match_here bol atoms].
  assert (Hr : rmatch (Lit (a :: l) :: r) s = None).
  { destruct s as [|c s]; [reflexivity|]. apply rmatch_Lit_head. congruence. }
  rewrite Hr. destruct b; [destruct (Nat.eqb p 0)|]; apply IH; exact Hs.
Qed.

Lemma scan_absent a re x :
  Forall (fun al => exists l r, atoms al = Lit (a :: l) :: r) re ->
  Forall (fun c => c <> a) x ->
  forall pos, scan re pos 0 x = map Keep x.
Proof.
  intros Hre Hx pos. pose proof (scan_keep re x pos []) as Hscan.
  rewrite app_nil_r in Hscan. rewrite Hscan.
  - rewrite scan_end; [apply app_nil_r|]. apply (match_here_absent a re Hre). exact I.
  - intros c s p Hin. apply (match_here_absent a re Hre).
    rewrite Forall_forall in Hx. apply Hx, list_elem_of_In, Hin.
Qed.

Lemma blank_absent f x :
  Forall (fun c => c <> "010"%char) x -> replace_fn re_blank f x = x.
Proof.
  intros Hx. unfold replace_fn.
  pose proof (scan_keep re_blank x 0 []) as Hscan. rewrite app_nil_r in Hscan.
  rewrite Hscan.
  - rewrite scan_end by reflexivity. rewrite app_nil_r. apply splice_keep.
  - intros c s p Hin. rewrite Forall_forall in Hx.
    assert (Hc : c <> "010"%char) by apply Hx, list_elem_of_In, Hin.
    unfold re_blank, one. cbn [match_here bol atoms rmatch greedy].
    unfold is_char. apply not_eq_sym, Ascii.eqb_neq in Hc. rewrite Hc. reflexivity.
Qed.

Lemma literal_scan_absent l :
  forall s pos, includes l s = false -> scan [Alt false [Lit l]] pos 0 s = map Keep s.
Proof.
  induction s as [|c s IH]; intros pos H; cbn [includes] in H.
  - cbn [scan match_here bol atoms rmatch].
    destruct (strip_prefix l []); [discriminate|reflexivity].
  - cbn [scan match_here bol atoms rmatch].
    destruct (strip_prefix l (c :: s)); [discriminate|].
    cbn [map]. rewrite IH by exact H. reflexivity.
Qed.

Lemma literal_absent l f s :
  includes l s = false -> replace_fn [Alt false [Lit l]] f s = s.
Proof.
  intros H. unfold replace_fn. rewrite literal_scan_absent by exact H. apply splice_keep.
Qed.

(** A literal that occurs once, after a text in which it cannot start. *)
Lemma literal_once c l template x y :
  Forall (fun d => d <> c) x ->
  includes (c :: l) y = false ->
  Forall (fun d => d <> "$"%char) template ->
  sub0 [Alt false [Lit (c :: l)]] template (x ++ (c :: l) ++ y) = x ++ template ++ y.
Proof.
  intros Hx Hy Htpl. unfold sub0, replace_tpl, replace_fn.
  rewrite scan_keep.
  2:{ intros d s p Hin. cbn [match_here bol atoms].
      rewrite rmatch_Lit_head; [reflexivity|].
      rewrite Forall_forall in Hx. apply not_eq_sym, Hx, list_elem_of_In, Hin. }
  rewrite (scan_found _ _ (c :: l) y 0 [c :: l]).
  - rewrite literal_scan_absent by exact Hy.
    rewrite splice_app, splice_keep. cbn [splice]. rewrite splice_keep.
    rewrite GetSubstitution_plain by exact Htpl. reflexivity.
  - discriminate.
  - cbn [match_here bol atoms]. rewrite rmatch_Lit. reflexivity.
  - cbn [concat]. apply app_nil_r.
Qed.

(** One tag, in a text that holds no other opening bracket. *)
Lemma tag_once a m b :
  Forall (fun c => c <> "<"%char) a ->
  Forall (fun c => c <> ">"%char) m -> m <> [] ->
  Forall (fun c => c <> "<"%char) b ->
  sub0 re_tag (txt "") (a ++ txt "<" ++ m ++ txt ">" ++ b) = a ++ b.
Proof.
  intros Ha Hm Hne Hb. unfold sub0, replace_tpl, replace_fn.
  rewrite scan_keep.
  2:{ intros d s p Hin. apply (no_match_at_other_char re_tag "<"%char [] _ d s p eq_refl).
      rewrite Forall_forall in Ha. apply Ha, list_elem_of_In, Hin. }
  assert (Hmatch : match_here re_tag 0 (0 + length a) ((txt "<" ++ m ++ txt ">") ++ b)
                   = Some (0, [txt "<"; m; txt ">"], b)).
  { unfold re_tag, one. cbn [match_here bol atoms]. rewrite <- !app_assoc.
    rewrite rmatch_Lit.
    rewrite (rmatch_Greedy (not_char ">") 1 [Lit (txt ">")] m (txt ">" ++ b) [txt ">"] b).
    - reflexivity.
    - eapply Forall_impl; [exact Hm|]. intros c Hc.
      unfold not_char. apply not_eq_sym, Ascii.eqb_neq in Hc. rewrite Hc. reflexivity.
    - destruct m; [contradiction|simpl; lia].
    - reflexivity.
    - rewrite rmatch_Lit. reflexivity. }
  replace (txt "<" ++ m ++ txt ">" ++ b) with ((txt "<" ++ m ++ txt ">") ++ b)
    by (rewrite <- !app_assoc; reflexivity).
  rewrite (scan_found re_tag _ (txt "<" ++ m ++ txt ">") b 0 [txt "<"; m; txt ">"]).
  - rewrite (scan_absent "<"%char re_tag b).
    + rewrite splice_app, splice_keep. cbn [splice]. rewrite splice_keep. reflexivity.
    + repeat constructor. eexists _, _. reflexivity.
    + exact Hb.
  - discriminate.
  - exact Hmatch.
  - apply concat3.
Qed.

Lemma extract_keep x :
  forall preIndex preBlocks, extract (map Keep x) preIndex preBlocks = Some (x, preBlocks).
Proof.
  induction x as [|c x IH]; intros k blocks; cbn [map extract]; [reflexivity|].
  rewrite IH. reflexivity.
Qed.

Lemma re_pre_starts :
  Forall (fun al => exists l r, atoms al = Lit ("<"%char :: l) :: r) re_pre.
Proof. repeat constructor; eexists _, _; reflexivity. Qed.

(** Without an opening bracket in it, a document holds no code block. *)
Lemma convert_without_blocks s imageMap :
  Forall (fun c => c <> "<"%char) s ->
  convertHtmlToMarkdown s imageMap = Some (rewrite imageMap s).
Proof.
  intros Hs. unfold convertHtmlToMarkdown.
  rewrite (scan_absent "<"%char re_pre s re_pre_starts Hs), extract_keep. reflexivity.
Qed.

Lemma sub0_absent (re : regex) a l r template x :
  re = [Alt false (Lit (a :: l) :: r)] ->
  Forall (fun c => c <> a) x ->
  sub0 re template x = x.
Proof. intros Hre Hx. unfold sub0, replace_tpl. eapply replace_fn_absent; eassumption. Qed.

Lemma sub1_absent (re : regex) a l r n template x :
  re = [Alt false (Lit (a :: l) :: r)] ->
  Forall (fun c => c <> a) x ->
  sub1 re n template x = x.
Proof. intros Hre Hx. unfold sub1, replace_tpl. eapply replace_fn_absent; eassumption. Qed.

Lemma sub0_blank_absent template x :
  Forall (fun c => c <> "010"%char) x -> sub0 re_blank template x = x.
Proof. intros Hx. unfold sub0, replace_tpl. apply blank_absent. exact Hx. Qed.

(** The steps of the chain, from the innermost on, whose pattern starts
    with the character [a], which the text [s] does not hold. *)
Ltac skip_steps a s Ha :=
  repeat match goal with
         | |- context [replace_fn ?re ?f s] =>
           rewrite (replace_fn_absent re a _ _ f s eq_refl Ha)
         | |- context [sub0 ?re ?t s] =>
           rewrite (sub0_absent re a _ _ t s eq_refl Ha)
         | |- context [sub1 ?re ?n ?t s] =>
           rewrite (sub1_absent re a _ _ n t s eq_refl Ha)
         end.

Lemma rewrite_plain imageMap s :
  Forall (fun c => c <> "<"%char) s ->
  Forall (fun c => c <> "&"%char) s ->
  Forall (fun c => c <> "010"%char) s ->
  rewrite imageMap s = trim s.
Proof.
  intros Hlt Hamp Hnl. unfold rewrite.
  skip_steps "<"%char s Hlt. skip_steps "&"%char s Hamp.
  skip_steps "<"%char s Hlt. rewrite (sub0_blank_absent _ s Hnl). reflexivity.
Qed.

(** X8. A line of text that holds no opening angle bracket and no
    ampersand is not markup: its markdown is the line itself, without the
    white space around it. *)
Theorem text_is_kept (s : str) (imageMap : list (str * str)) :
  Forall (fun c => c <> "<"%char /\ c <> "&"%char /\ c <> "010"%char) s ->
  convertHtmlToMarkdown s imageMap = Some (trim s).
Proof.
  intros H.
  rewrite convert_without_blocks by (eapply Forall_impl; [exact H|]; intros c Hc; apply Hc).
  f_equal. apply rewrite_plain; (eapply Forall_impl; [exact H|]); intros c Hc; apply Hc.
Qed.

(** *** Dollar signs in a code block *)

Lemma GetSubstitution_app_plain text before after captures x y :
  Forall (fun c => c <> "$"%char) x ->
  GetSubstitution text before after captures (x ++ y)
  = x ++ GetSubstitution text before after captures y.
Proof.
  induction 1 as [|c x Hc _ IH]; [reflexivity|].
  cbn [app GetSubstitution]. apply Ascii.eqb_neq in Hc. rewrite Hc. cbn [negb].
  rewrite IH. reflexivity.
Qed.

(** A block without markup comes back through the replacement template
    of [String.replace]. *)
Lemma convert_pre_block_template c imageMap :
  Forall (fun ch => ch <> "<"%char) c ->
  convertHtmlToMarkdown (pre_block c) imageMap
  = Some (GetSubstitution (placeholder 0) [] [] [] (fence c)).
Proof.
  intros H. unfold convertHtmlToMarkdown.
  rewrite <- (app_nil_r (pre_block c)).
  rewrite (scan_pre_block c 0 [] H).
  cbn [scan match_here re_pre bol atoms rmatch strip_prefix txt list_ascii_of_string
       extract content_of h_alt slice h_slices nth].
  rewrite (cleanContent_plain c H).
  cbn [app]. rewrite app_nil_r.
  rewrite (proj1 (rewrite_placeholders imageMap)).
  cbn [reinsert]. unfold replace_first.
  rewrite (replace_first_from_here (placeholder 0) (fence c) (placeholder 0) 0
             (placeholder 0) []) by (vm_compute; reflexivity).
  cbn [firstn]. rewrite app_nil_r. reflexivity.
Qed.

Lemma fence_split text before after captures x y :
  Forall (fun c => c <> "$"%char) x ->
  GetSubstitution text before after captures (fence (x ++ y))
  = txt "```" ++ newline ++ x
    ++ GetSubstitution text before after captures (y ++ newline ++ txt "```").
Proof.
  intros Hx. unfold fence. rewrite <- !app_assoc.
  rewrite (GetSubstitution_app_plain _ _ _ _ (txt "```")) by (repeat constructor; discriminate).
  rewrite (GetSubstitution_app_plain _ _ _ _ newline) by (repeat constructor; discriminate).
  rewrite (GetSubstitution_app_plain _ _ _ _ x) by exact Hx.
  reflexivity.
Qed.

Lemma fence_tail_plain y :
  Forall (fun c => c <> "$"%char) y ->
  Forall (fun c => c <> "$"%char) (y ++ newline ++ txt "```").
Proof.
  intros Hy. apply Forall_app. split; [exact Hy|]. repeat constructor; discriminate.
Qed.

(** X9. A code block is put back as the replacement text of
    [String.replace], in which a dollar sign is special: in a block
    without markup, two dollar signs in a row come out as one, and a
    dollar sign followed by an ampersand comes out as the placeholder of
    the block. *)
Theorem dollar_signs_in_a_block (a b : str) (imageMap : list (str * str)) :
  plain_content a -> plain_content b ->
  convertHtmlToMarkdown (pre_block (a ++ txt "$$" ++ b)) imageMap
  = Some (fence (a ++ txt "$" ++ b))
  /\ convertHtmlToMarkdown (pre_block (a ++ txt "$&" ++ b)) imageMap
     = Some (fence (a ++ placeholder 0 ++ b)).
Proof.
  intros Ha Hb.
  assert (Hmark : forall d, d <> "<"%char ->
            Forall (fun ch => ch <> "<"%char) (a ++ ["$"%char; d] ++ b)).
  { intros d Hd. apply Forall_app. split; [apply plain_no_markup, Ha|].
    apply Forall_app. split; [repeat constructor; [discriminate|exact Hd]|].
    apply plain_no_markup, Hb. }
  split.
  - change (txt "$$") with ["$"%char; "$"%char].
    rewrite (convert_pre_block_template _ imageMap (Hmark "$"%char ltac:(discriminate))).
    rewrite (fence_split _ _ _ _ a _ (plain_no_dollar a Ha)). f_equal.
    change ((["$"%char; "$"%char] ++ b) ++ newline ++ txt "```")
      with ("$"%char :: "$"%char :: b ++ newline ++ txt "```").
    change (GetSubstitution (placeholder 0) [] [] []
              ("$"%char :: "$"%char :: b ++ newline ++ txt "```"))
      with ("$"%char :: GetSubstitution (placeholder 0) [] [] [] (b ++ newline ++ txt "```")).
    rewrite (GetSubstitution_plain _ _ _ _ _ (fence_tail_plain b (plain_no_dollar b Hb))).
    unfold fence. rewrite <- !app_assoc. reflexivity.
  - change (txt "$&") with ["$"%char; "&"%char].
    rewrite (convert_pre_block_template _ imageMap (Hmark "&"%char ltac:(discriminate))).
    rewrite (fence_split _ _ _ _ a _ (plain_no_dollar a Ha)). f_equal.
    change ((["$"%char; "&"%char] ++ b) ++ newline ++ txt "```")
      with ("$"%char :: "&"%char :: b ++ newline ++ txt "```").
    change (GetSubstitution (placeholder 0) [] [] []
              ("$"%char :: "&"%char :: b ++ newline ++ txt "```"))
      with (placeholder 0
              ++ GetSubstitution (placeholder 0) [] [] [] (b ++ newline ++ txt "```")).
    rewrite (GetSubstitution_plain _ _ _ _ _ (fence_tail_plain b (plain_no_dollar b Hb))).
    unfold fence. rewrite <- !app_assoc. reflexivity.
Qed.

(** *** The code block that cannot be converted *)

Lemma extract_None ps :
  forall preIndex preBlocks,
    extract ps preIndex preBlocks = None ->
    exists h, In (Found h) ps /\ content_of h = None.
Proof.
  induction ps as [|[c|h] ps IH]; intros k blocks H; cbn [extract] in H; [discriminate| |].
  - destruct (extract ps k blocks) as [[s bl]|] eqn:He; [discriminate|].
    destruct (IH _ _ He) as (h & Hin & Hh). exists h. split; [right; exact Hin|exact Hh].
  - destruct (content_of h) as [content|] eqn:Hc.
    + destruct (extract ps _ _) as [[s bl]|] eqn:He; [discriminate|].
      destruct (IH _ _ He) as (h' & Hin & Hh). exists h'. split; [right; exact Hin|exact Hh].
    + exists h. split; [left; reflexivity|exact Hc].
Qed.

(** X10. The conversion fails on no other document than one that holds
    an empty code block, written [<pre><code></code></pre>]. *)
Theorem conversion_fails_only_on_an_empty_block (html : str) (imageMap : list (str * str)) :
  convertHtmlToMarkdown html imageMap = None ->
  exists before after, html = before ++ pre_code_block [] ++ after.
Proof.
  unfold convertHtmlToMarkdown. intros H.
  destruct (extract (scan re_pre 0 0 html) 0 []) as [[s blocks]|] eqn:He; [discriminate|].
  apply extract_None in He as (h & Hin & Hc).
  apply replace_occurs in Hin. revert Hin Hc.
  destruct h as [i sls idx aft]. unfold occurs, content_of, h_text, slice.
  cbn [h_alt h_slices h_index h_after].
  intros (pre & al & Hs & _ & Hal & Hall & _ & _) Hc.
  destruct i as [|i]; [|discriminate]. injection Hal as <-. cbn [atoms] in Hall.
  inversion Hall as [|? l1 ? r1 H1 Hall1]; subst.
  inversion Hall1 as [|? l2 ? r2 H2 Hall2]; subst.
  inversion Hall2 as [|? l3 ? r3 H3 Hall3]; subst.
  inversion Hall3; subst. cbn [consumes] in H1, H3. subst l1 l3.
  cbn [nth] in Hc. destruct (decide (l2 = [])) as [->|]; [|discriminate].
  exists pre, aft. unfold pre_code_block. cbn [concat]. rewrite app_nil_r. reflexivity.
Qed.

Lemma extract_keep_app x ps :
  forall preIndex preBlocks,
    extract (map Keep x ++ ps) preIndex preBlocks
    = match extract ps preIndex preBlocks with
      | Some (s, blocks) => Some (x ++ s, blocks)
      | None => None
      end.
Proof.
  induction x as [|c x IH]; intros k blocks; cbn [map app extract].
  - destruct (extract ps k blocks) as [[s bl]|]; reflexivity.
  - rewrite IH. destruct (extract ps k blocks) as [[s bl]|]; reflexivity.
Qed.

Lemma convert_empty_block a b imageMap :
  Forall (fun c => c <> "<"%char) a ->
  convertHtmlToMarkdown (a ++ pre_code_block [] ++ b) imageMap = None.
Proof.
  intros Ha. unfold convertHtmlToMarkdown.
  rewrite scan_keep.
  2:{ intros c s p Hin. apply (match_here_absent "<"%char re_pre re_pre_starts).
      rewrite Forall_forall in Ha. apply Ha, list_elem_of_In, Hin. }
  rewrite (scan_pre_code_block [] _ b ltac:(constructor)).
  rewrite extract_keep_app. reflexivity.
Qed.

(** *** Escaped angle brackets *)

Lemma includes_none a pat x :
  Forall (fun c => c <> a) x -> includes (a :: pat) x = false.
Proof.
  intros Hx. rewrite <- (app_nil_r x), includes_free by exact Hx. reflexivity.
Qed.

Lemma sub0_literal_absent (L : string) template s :
  includes (txt L) s = false -> sub0 (literal L) template s = s.
Proof. intros H. unfold sub0, replace_tpl, literal, one. apply literal_absent. exact H. Qed.

Lemma sub0_literal_once (L : string) c l template x y :
  txt L = c :: l ->
  Forall (fun d => d <> c) x ->
  includes (txt L) y = false ->
  Forall (fun d => d <> "$"%char) template ->
  sub0 (literal L) template (x ++ txt L ++ y) = x ++ template ++ y.
Proof.
  intros HL Hx Hy Htpl. unfold literal, one. rewrite HL in *.
  apply literal_once; assumption.
Qed.

(** X11. The character references of the angle brackets are put back
    before the last removal of tags, which then takes an escaped less-than
    sign, an escaped greater-than sign after it and the text between the
    two for a tag: nothing of the three is left in the markdown. *)
Theorem text_between_escaped_brackets_is_lost (a m b : str) (imageMap : list (str * str)) :
  Forall (fun c => c <> "<"%char /\ c <> ">"%char /\ c <> "&"%char /\ c <> "010"%char) a ->
  Forall (fun c => c <> "<"%char /\ c <> ">"%char /\ c <> "&"%char /\ c <> "010"%char) m ->
  Forall (fun c => c <> "<"%char /\ c <> ">"%char /\ c <> "&"%char /\ c <> "010"%char) b ->
  m <> [] ->
  convertHtmlToMarkdown (a ++ txt "&lt;" ++ m ++ txt "&gt;" ++ b) imageMap
  = Some (trim (a ++ b)).
Proof.
  intros Ha Hm Hb Hne.
  assert (Hpart : forall (P : ascii -> Prop) x,
            (forall c, (c <> "<"%char /\ c <> ">"%char /\ c <> "&"%char /\ c <> "010"%char)
                       -> P c) ->
            Forall (fun c => c <> "<"%char /\ c <> ">"%char /\ c <> "&"%char /\ c <> "010"%char) x ->
            Forall P x).
  { intros P x HP Hx. eapply Forall_impl; [exact Hx|exact HP]. }
  assert (Halt : Forall (fun c => c <> "<"%char) a) by (apply Hpart; [tauto|exact Ha]).
  assert (Hmlt : Forall (fun c => c <> "<"%char) m) by (apply Hpart; [tauto|exact Hm]).
  assert (Hblt : Forall (fun c => c <> "<"%char) b) by (apply Hpart; [tauto|exact Hb]).
  assert (Hmgt : Forall (fun c => c <> ">"%char) m) by (apply Hpart; [tauto|exact Hm]).
  assert (Haamp : Forall (fun c => c <> "&"%char) a) by (apply Hpart; [tauto|exact Ha]).
  assert (Hmamp : Forall (fun c => c <> "&"%char) m) by (apply Hpart; [tauto|exact Hm]).
  assert (Hbamp : Forall (fun c => c <> "&"%char) b) by (apply Hpart; [tauto|exact Hb]).
  assert (Hanl : Forall (fun c => c <> "010"%char) a) by (apply Hpart; [tauto|exact Ha]).
  assert (Hbnl : Forall (fun c => c <> "010"%char) b) by (apply Hpart; [tauto|exact Hb]).
  set (s0 := a ++ txt "&lt;" ++ m ++ txt "&gt;" ++ b).
  assert (Hlt0 : Forall (fun c => c <> "<"%char) s0).
  { unfold s0. repeat (apply Forall_app; split); try assumption;
      repeat constructor; discriminate. }
  rewrite (convert_without_blocks s0 imageMap Hlt0). f_equal.
  unfold rewrite. skip_steps "<"%char s0 Hlt0.
  (* the entities before the brackets *)
  assert (Hgt_b : forall l, includes ("&"%char :: l) (txt "gt;" ++ b) = false).
  { intros l. apply includes_none. apply Forall_app. split; [|exact Hbamp].
    repeat constructor; discriminate. }
  assert (Hnbsp : includes (txt "&nbsp;") s0 = false).
  { unfold s0. change (txt "&nbsp;") with ("&"%char :: txt "nbsp;").
    rewrite includes_free by exact Haamp.
    change (txt "&lt;" ++ m ++ txt "&gt;" ++ b)
      with ("&"%char :: txt "lt;" ++ m ++ txt "&gt;" ++ b).
    rewrite includes_step by reflexivity.
    rewrite includes_free by (repeat constructor; discriminate).
    rewrite includes_free by exact Hmamp.
    change (txt "&gt;" ++ b) with ("&"%char :: txt "gt;" ++ b).
    rewrite includes_step by reflexivity. apply Hgt_b. }
  rewrite (sub0_literal_absent "&nbsp;" _ s0 Hnbsp).
  (* the less-than sign *)
  unfold s0.
  rewrite (sub0_literal_once "&lt;" "&"%char (txt "lt;") (txt "<") a (m ++ txt "&gt;" ++ b)
             eq_refl Haamp).
  2:{ change (txt "&lt;") with ("&"%char :: txt "lt;").
      rewrite includes_free by exact Hmamp.
      change (txt "&gt;" ++ b) with ("&"%char :: txt "gt;" ++ b).
      rewrite includes_step by reflexivity. apply Hgt_b. }
  2:{ repeat constructor; discriminate. }
  (* the greater-than sign *)
  replace (a ++ txt "<" ++ m ++ txt "&gt;" ++ b)
    with ((a ++ txt "<" ++ m) ++ txt "&gt;" ++ b) by (rewrite <- !app_assoc; reflexivity).
  rewrite (sub0_literal_once "&gt;" "&"%char (txt "gt;") (txt ">") (a ++ txt "<" ++ m) b eq_refl).
  2:{ repeat (apply Forall_app; split); try assumption; repeat constructor; discriminate. }
  2:{ apply includes_none. exact Hbamp. }
  2:{ repeat constructor; discriminate. }
  (* the other entities *)
  set (s2 := (a ++ txt "<" ++ m) ++ txt ">" ++ b).
  assert (Hamp2 : Forall (fun c => c <> "&"%char) s2).
  { unfold s2. repeat (apply Forall_app; split); try assumption;
      repeat constructor; discriminate. }
  skip_steps "&"%char s2 Hamp2.
  (* the tags *)
  unfold s2. rewrite <- !app_assoc.
  rewrite (tag_once a m b Halt Hmgt Hne Hblt).
  rewrite sub0_blank_absent; [reflexivity|].
  apply Forall_app. split; assumption.
Qed.

End markdown_facts.

(** ** The status of an item *)

Section status_facts.
Import Layout Download Scheduler.

(** What the loop over the languages keeps true of the two tallies, [k]
    languages into a list of [n]. *)
Lemma language_step_counts CONFIG r problemSlug available (n : Z) lang tpl com k :
  (total tpl = n /\ 0 <= count tpl <= k /\ count tpl = Z.of_nat (length (languages tpl))
   /\ success_flag tpl = false)%Z ->
  (0 <= count com /\ count com + (n - total com) <= k /\ total com <= n
   /\ count com = Z.of_nat (length (languages com)) /\ success_flag com = false)%Z ->
  let acc := language_step CONFIG r problemSlug available (tpl, com) lang in
  (total (fst acc) = n /\ 0 <= count (fst acc) <= k + 1
   /\ count (fst acc) = Z.of_nat (length (languages (fst acc)))
   /\ success_flag (fst acc) = false)%Z
  /\ (0 <= count (snd acc) /\ count (snd acc) + (n - total (snd acc)) <= k + 1
      /\ total (snd acc) <= n
      /\ count (snd acc) = Z.of_nat (length (languages (snd acc)))
      /\ success_flag (snd acc) = false)%Z.
Proof.
  intros (Ht & Hc & Hl & Hf) (Hc' & Hk' & Ht' & Hl' & Hf'). unfold language_step. cbn [fst snd].
  split.
  - destruct (Args.fetchTemplates CONFIG); [|split_and!; lia || assumption].
    destruct (List.find _ available) as [s|]; [|split_and!; lia || assumption].
    destruct (decide (code s = [])); [split_and!; lia || assumption|].
    cbn [total count languages success_flag]. rewrite length_app. cbn [length].
    split_and!; lia || assumption.
  - destruct (Args.fetchSolutions CONFIG && _); [|split_and!; lia || assumption].
    destruct (getDiscussSolution r problemSlug lang);
      cbn [total count languages success_flag]; rewrite ?length_app; cbn [length];
      split_and!; lia || assumption.
Qed.

Lemma languages_counts CONFIG r problemSlug available (n : Z) langs :
  forall tpl com k,
    (total tpl = n /\ 0 <= count tpl <= k /\ count tpl = Z.of_nat (length (languages tpl))
     /\ success_flag tpl = false)%Z ->
    (0 <= count com /\ count com + (n - total com) <= k /\ total com <= n
     /\ count com = Z.of_nat (length (languages com)) /\ success_flag com = false)%Z ->
    let acc := fold_left (language_step CONFIG r problemSlug available) langs (tpl, com) in
    (total (fst acc) = n /\ 0 <= count (fst acc) <= k + Z.of_nat (length langs)
     /\ count (fst acc) = Z.of_nat (length (languages (fst acc)))
     /\ success_flag (fst acc) = false)%Z
    /\ (0 <= count (snd acc)
        /\ count (snd acc) + (n - total (snd acc)) <= k + Z.of_nat (length langs)
        /\ total (snd acc) <= n
        /\ count (snd acc) = Z.of_nat (length (languages (snd acc)))
        /\ success_flag (snd acc) = false)%Z.
Proof.
  induction langs as [|lang langs IH]; intros tpl com k Htpl Hcom.
  - cbn [fold_left fst snd length]. split; split_and!; lia || tauto.
  - cbn [fold_left].
    pose proof (language_step_counts CONFIG r problemSlug available n lang tpl com k Htpl Hcom)
      as [H1 H2].
    destruct (language_step CONFIG r problemSlug available (tpl, com) lang) as [tpl1 com1].
    cbn [fst snd] in H1, H2. specialize (IH tpl1 com1 (k + 1)%Z H1 H2).
    cbn zeta in IH. cbn [length]. rewrite Nat2Z.inj_succ.
    replace (k + Z.succ (Z.of_nat (length langs)))%Z
      with (k + 1 + Z.of_nat (length langs))%Z by lia.
    exact IH.
Qed.

(** The status that [downloadProblem] returns. *)
Lemma downloadProblem_counts r problem CONFIG status :
  downloadProblem r problem CONFIG = inr status ->
  description_success status = true
  /\ description_formats status = Args.formats CONFIG
  /\ (0 <= count (templates status) <= total (templates status))%Z
  /\ (0 <= count (communitySolutions status) <= total (communitySolutions status))%Z
  /\ (total (communitySolutions status) <= total (templates status))%Z
  /\ (officialSolution status = Tally true 1 1 [] \/ officialSolution status = Tally false 0 0 [])
  /\ count (templates status) = Z.of_nat (length (languages (templates status)))
  /\ count (communitySolutions status)
     = Z.of_nat (length (languages (communitySolutions status)))
  /\ success_flag (templates status) = (0 <? count (templates status))%Z
  /\ success_flag (communitySolutions status) = (0 <? count (communitySolutions status))%Z.
Proof.
  unfold downloadProblem. intros Hstatus.
  destruct (retried (getProblemDescription r (slug problem))) as [e|q]; [discriminate|].
  destruct (decide (content q = [])) as [Hempty|Hcontent].
  { destruct (locked problem && _); [discriminate|]. destruct (locked problem); discriminate. }
  destruct (Transcoder.convertHtmlToMarkdown (content q) (images r)) as [markdownBody|];
    [|discriminate].
  set (n := Z.of_nat (length (map langSlug (codeSnippets q)))) in *.
  pose proof (languages_counts CONFIG r (slug problem) (codeSnippets q) n
                (map langSlug (codeSnippets q)) (Tally false 0 n []) (Tally false 0 n []) 0%Z)
    as Hfold.
  cbn [total count languages success_flag length] in Hfold.
  destruct Hfold as [(Ht & Hc & Hl & Hf) (Hc' & Hk' & Ht' & Hl' & Hf')];
    [split_and!; lia || reflexivity|split_and!; lia || reflexivity|].
  destruct (fold_left _ _ _) as [tpl com]. cbn [fst snd] in *.
  injection Hstatus as <-.
  cbn [description_success description_formats templates communitySolutions officialSolution].
  unfold mark. cbn [count total languages success_flag]. rewrite Hf, Hf'.
  fold n in Hc, Hk'.
  split_and!; try reflexivity; try lia; try assumption.
  - destruct (Args.fetchOfficialSolution CONFIG && _); [|right; reflexivity].
    unfold retried, Retry.retryAsync, Retry.MAX_RETRIES, Retry.result_of. cbn.
    destruct (getOfficialSolution r (slug problem)); [left|right]; reflexivity.
  - destruct (0 <? count tpl)%Z; reflexivity.
  - destruct (0 <? count com)%Z; reflexivity.
Qed.

(** X12. In the status that [downloadProblem] returns the description
    has succeeded, every count lies between zero and its total, the total
    of the community solutions is at most the number of languages, which
    the total of the templates is, the official solution is one of one or
    none of none, and every count is the number of languages listed
    beside it. *)
Theorem status_counts_are_within_totals r problem CONFIG status :
  downloadProblem r problem CONFIG = inr status ->
  description_success status = true
  /\ (0 <= count (templates status) <= total (templates status))%Z
  /\ (0 <= count (communitySolutions status) <= total (communitySolutions status))%Z
  /\ (total (communitySolutions status) <= total (templates status))%Z
  /\ (officialSolution status = Tally true 1 1 [] \/ officialSolution status = Tally false 0 0 [])
  /\ count (templates status) = Z.of_nat (length (languages (templates status)))
  /\ count (communitySolutions status)
     = Z.of_nat (length (languages (communitySolutions status))).
Proof.
  intros H. apply downloadProblem_counts in H.
  destruct H as (H1 & _ & [H3 H3'] & [H4 H4'] & H5 & H6 & H7 & H8 & _).
  split_and!; assumption.
Qed.

(** X13. An item that [downloadProblem] returns and that is not judged
    fully complete is recorded with at least one reason, and one that is
    judged fully complete has none: the reasons of a returned status are
    empty exactly when the item is complete. *)
Theorem incomplete_items_have_a_reason r problem CONFIG status :
  downloadProblem r problem CONFIG = inr status ->
  isFullyComplete CONFIG status = true <-> failureReasons CONFIG status = [].
Proof.
  intros H. apply downloadProblem_counts in H.
  destruct H as (Hd & _ & Ht & Hc & _ & Ho & _).
  unfold isFullyComplete, failureReasons. rewrite Hd. cbn [negb andb app].
  assert (Hoff : (count (officialSolution status) = total (officialSolution status))%Z)
    by (destruct Ho as [-> | ->]; reflexivity).
  destruct (Args.fetchTemplates CONFIG), (Args.fetchOfficialSolution CONFIG),
    (Args.fetchSolutions CONFIG); cbn [negb andb orb];
    repeat match goal with
           | |- context [(?a =? ?b)%Z] => destruct (Z.eqb_spec a b)
           | |- context [(?a <? ?b)%Z] => destruct (Z.ltb_spec a b)
           end; cbn [andb app]; split; intros; try reflexivity; try discriminate; lia.
Qed.

(** The errors of a call under [retryAsync] are errors of the call. *)
Lemma retried_error {A} (f : nat -> str + A) e :
  retried f = inl e -> exists w, f w = inl e.
Proof.
  unfold retried, Retry.retryAsync, Retry.MAX_RETRIES, Retry.result_of.
  cbn [Retry.attempts].
  destruct (f 0) as [e0|v0] eqn:H0; cbn; [|discriminate].
  destruct (f 1) as [e1|v1] eqn:H1; cbn; [|discriminate].
  destruct (f 2) as [e2|v2] eqn:H2; cbn; [|discriminate].
  intros [= <-]. exists 2. exact H2.
Qed.

(** X14. In a batch run no item fails for want of a premium account,
    as long as the user read when the item is downloaded is the one read
    when the run began: the items dispatched are unlocked or the user has
    premium, and [downloadProblem] never throws the error of the locked
    item for them; a dispatched item whose document comes back empty is
    taken for an expired session instead, locked or not. *)
Theorem batch_has_no_premium_failure (premium : bool) (done : gset str)
    (problems : list problem) problem r CONFIG :
  In problem (problemsToDownload premium done problems) ->
  isPremiumUser r = premium ->
  (locked problem = true -> premium = true)
  /\ downloadProblem r problem CONFIG <> inl premium_required
  /\ (forall q,
        retried (getProblemDescription r (slug problem)) = inr q ->
        content q = [] ->
        downloadProblem r problem CONFIG
        = inl (if locked problem then session_expired_premium else session_expired)
        /\ is_session_expired
             (if locked problem then session_expired_premium else session_expired) = true).
Proof.
  intros Hin Hr. unfold problemsToDownload in Hin. apply filter_In in Hin as [_ Hf].
  apply andb_true_iff in Hf as [Hlock _].
  assert (Hprem : locked problem = true -> premium = true).
  { intros Hl. rewrite Hl in Hlock. destruct premium; [reflexivity|discriminate]. }
  split; [exact Hprem|]. split; [|intros q Hq Hc; split].
  2:{ unfold downloadProblem. rewrite Hq.
      destruct (decide (content q = [])); [|contradiction]. rewrite Hr.
      destruct (locked problem); [rewrite (Hprem eq_refl)|]; reflexivity. }
  2:{ destruct (locked problem); reflexivity. }
  unfold downloadProblem.
  destruct (retried (getProblemDescription r (slug problem))) as [e|q] eqn:Hq.
  - apply retried_error in Hq as [w Hw]. intros [= ->].
    unfold getProblemDescription, fetchFromLeetCodeAPI in Hw.
    destruct (negb (cookies r)); [discriminate|].
    destruct (detail r w) as [message|[q|]]; discriminate.
  - destruct (decide (content q = [])).
    + rewrite Hr. destruct (locked problem) eqn:Hl.
      * rewrite (Hprem eq_refl). discriminate.
      * discriminate.
    + destruct (Transcoder.convertHtmlToMarkdown _ _); [|discriminate].
      destruct (fold_left _ _ _). discriminate.
Qed.

(** X15. A description that holds an empty code block, before which no
    tag opens, cannot be converted: [downloadProblem] throws the TypeError
    of the conversion, which is no session error; the worker records the
    item as failed with the message as its reason, and neither completes
    the item nor stops the run. *)
Theorem empty_code_block_fails_the_item r problem CONFIG q (a b : str) st :
  cookies r = true ->
  detail r 0 = Data (Some q) ->
  content q = a ++ Transcoder.pre_code_block [] ++ b ->
  Forall (fun c => c <> "<"%char) a ->
  downloadProblem r problem CONFIG = inl type_error
  /\ failedProblems (fst (settle CONFIG problem (inl type_error) st)) !! id problem
     = Some (Failure (name problem) (slug problem) [txt "Exception: " ++ type_error] None)
  /\ completedProblems (fst (settle CONFIG problem (inl type_error) st)) = completedProblems st
  /\ shouldStop (fst (settle CONFIG problem (inl type_error) st)) = shouldStop st
  /\ failed (fst (settle CONFIG problem (inl type_error) st)) = S (failed st).
Proof.
  intros Hcookies Hdata Hcontent Ha.
  assert (Hq : retried (getProblemDescription r (slug problem)) = inr q).
  { apply (retried_first_success _ 0 q).
    - unfold Retry.MAX_RETRIES. lia.
    - intros j Hj. lia.
    - unfold getProblemDescription, fetchFromLeetCodeAPI. rewrite Hcookies, Hdata.
      reflexivity. }
  split.
  - unfold downloadProblem. rewrite Hq.
    destruct (decide (content q = [])) as [Hempty|_].
    + rewrite Hcontent in Hempty. destruct a; discriminate.
    + rewrite Hcontent, (convert_empty_block a b (images r) Ha). reflexivity.
  - unfold settle.
    replace (is_session_expired type_error) with false by reflexivity.
    cbn [fst failedProblems completedProblems shouldStop failed].
    split_and!; try reflexivity. unfold failure_of_exception.
    apply lookup_insert_eq.
Qed.

End status_facts.

(** ** The counters of a run *)

Section count_facts.
Import Layout Download Scheduler Summary.
Variable CONFIG : Args.config.
Variable outside : problem -> remote.

(** *** The selection of the items *)

Lemma select_spec (premium : bool) (done : gset str) (problems : list problem) :
  forall acc : selection,
    let sel := fold_left (Summary.select premium done) problems acc in
    toDownload sel = toDownload acc ++ problemsToDownload premium done problems
    /\ skipped sel + alreadyDownloaded sel + length (toDownload sel)
       = skipped acc + alreadyDownloaded acc + length (toDownload acc) + length problems.
Proof.
  induction problems as [|problem problems IH]; intros acc; cbn [fold_left].
  - cbn. rewrite app_nil_r. split; [reflexivity|lia].
  - specialize (IH (Summary.select premium done acc problem)). cbn zeta in IH.
    destruct IH as [Hto Hsum]. rewrite Hsum, Hto. clear Hto Hsum.
    unfold Summary.select, problemsToDownload. cbn [List.filter length].
    destruct (locked problem && negb premium); cbn [negb andb skipped alreadyDownloaded toDownload].
    + split; [reflexivity|lia].
    + destruct (decide (id problem ∈ done));
        cbn [negb skipped alreadyDownloaded toDownload].
      * split; [reflexivity|lia].
      * rewrite <- app_assoc, length_app. cbn [app length]. split; [reflexivity|lia].
Qed.

(** *** The chunks *)

Lemma chunks_upto_all {A} (n : nat) :
  0 < n ->
  forall fuel (l : list A),
    length l <= fuel ->
    concat (chunks_upto fuel n l) = l
    /\ Forall (fun batch => 1 <= length batch <= n) (chunks_upto fuel n l).
Proof.
  intros Hn. induction fuel as [|fuel IH]; intros l Hlen.
  - destruct l; [|simpl in Hlen; lia]. split; [reflexivity|constructor].
  - destruct l as [|x l]; [split; [reflexivity|constructor]|].
    cbn [chunks_upto]. destruct (IH (skipn n (x :: l))) as [Hcat Hall].
    + rewrite length_skipn. simpl in *. lia.
    + split.
      * cbn [concat]. rewrite Hcat. apply firstn_skipn.
      * constructor; [|exact Hall]. rewrite length_firstn. simpl. lia.
Qed.

(** *** The counters *)

Lemma in_flight_settled phases i ph :
  phases !! i = Some Downloading ->
  match ph with Downloading => False | _ => True end ->
  in_flight phases = S (in_flight (<[ i := ph ]> phases)).
Proof.
  unfold in_flight. revert i. induction phases as [|p phases IH]; intros i Hi Hph.
  - rewrite lookup_nil in Hi. discriminate.
  - destruct i as [|i].
    + cbn in Hi. injection Hi as ->. cbn. destruct ph; try contradiction; reflexivity.
    + cbn in Hi. specialize (IH i Hi Hph).
      change (<[S i := ph]> (p :: phases)) with (p :: <[i := ph]> phases).
      cbn [List.filter]. destruct p; cbn [length]; rewrite IH; reflexivity.
Qed.

Lemma in_flight_written phases i p fatal :
  phases !! i = Some (Writing p fatal) ->
  in_flight (<[ i := Finished ]> phases) = in_flight phases.
Proof.
  unfold in_flight. revert i. induction phases as [|q phases IH]; intros i Hi.
  - rewrite lookup_nil in Hi. discriminate.
  - destruct i as [|i].
    + cbn in Hi. injection Hi as ->. reflexivity.
    + cbn in Hi. specialize (IH i Hi).
      change (<[S i := Finished]> (q :: phases)) with (q :: <[i := Finished]> phases).
      cbn [List.filter]. destruct q; cbn [length]; rewrite IH; reflexivity.
Qed.

Lemma merged_cons o tr :
  merged (o :: tr) = match o with Merged i => i :: merged tr | _ => merged tr end.
Proof. unfold merged. destruct o; reflexivity. Qed.

Lemma dispatched_cons o tr :
  dispatched (o :: tr)
  = match o with Dispatched i => i :: dispatched tr | _ => dispatched tr end.
Proof. unfold dispatched. destruct o; reflexivity. Qed.

Lemma counted_step batch st phases st' phases' :
  counted st phases ->
  stepped CONFIG outside batch st phases st' phases' ->
  counted st' phases'
  /\ length (dispatched (trace st')) = length (dispatched (trace st)).
Proof.
  intros [Hsum Hle] Hstep.
  destruct Hstep as [|i problem st' ph Hex Hb Hp Hs|i problem p fatal Hex Hb Hp].
  - split; [split; assumption|reflexivity].
  - rewrite (in_flight_settled phases i ph Hp) in Hle.
    2:{ unfold settle in Hs. destruct (downloadProblem _ _ _) as [message|status].
        - destruct (is_session_expired message); injection Hs as <- <-; exact I.
        - destruct (isFullyComplete CONFIG status); injection Hs as <- <-; exact I. }
    unfold settle in Hs. unfold counted.
    destruct (downloadProblem _ _ _) as [message|status].
    + destruct (is_session_expired message); injection Hs as <- <-;
        cbn [completed failed trace]; rewrite merged_cons, dispatched_cons; cbn [length];
        split; try reflexivity; split; lia.
    + destruct (isFullyComplete CONFIG status); injection Hs as <- <-;
        cbn [completed failed trace]; rewrite merged_cons, dispatched_cons; cbn [length];
        split; try reflexivity; split; lia.
  - unfold counted, written. cbn [fst completed failed trace].
    rewrite (in_flight_written phases i p fatal Hp).
    destruct fatal; rewrite ?merged_cons, ?dispatched_cons; split; try reflexivity;
      split; assumption.
Qed.

Lemma dispatch_counted batch :
  forall st,
    let '(st', phases) := dispatch batch st in
    completed st' = completed st /\ failed st' = failed st
    /\ merged (trace st') = merged (trace st)
    /\ length (dispatched (trace st')) = length (dispatched (trace st)) + in_flight phases
    /\ in_flight phases <= length batch.
Proof.
  induction batch as [|problem batch IH]; intros st; cbn [dispatch].
  - cbn. split_and!; try reflexivity; lia.
  - destruct (shouldStop st).
    + specialize (IH st). destruct (dispatch batch st) as [st' phases].
      destruct IH as (H1 & H2 & H3 & H4 & H5). unfold in_flight in *. cbn [List.filter length].
      split_and!; try assumption. lia.
    + match goal with |- context [dispatch batch ?s] => specialize (IH s) end.
      destruct (dispatch batch _) as [st' phases]. cbn [completed failed trace] in IH.
      rewrite merged_cons, dispatched_cons in IH.
      destruct IH as (H1 & H2 & H3 & H4 & H5). unfold in_flight in *.
      cbn [List.filter length] in *. split_and!; try assumption; lia.
Qed.

Lemma run_events_counted batch schedule :
  forall st phases,
    counted st phases ->
    let '(st', phases') := run_events CONFIG outside batch st phases schedule in
    counted st' phases'
    /\ length (dispatched (trace st')) = length (dispatched (trace st)).
Proof.
  induction schedule as [|e schedule IH]; intros st phases Hc; cbn [run_events].
  - split; [exact Hc|reflexivity].
  - pose proof (step_stepped CONFIG outside batch st phases e) as Hstep.
    destruct (step CONFIG outside batch st phases e) as [st1 phases1].
    destruct (counted_step batch st phases st1 phases1 Hc Hstep) as [Hc1 Hd1].
    specialize (IH st1 phases1 Hc1).
    destruct (run_events CONFIG outside batch st1 phases1 schedule) as [st2 phases2].
    destruct IH as [Hc2 Hd2]. split; [exact Hc2|]. rewrite Hd2, Hd1. reflexivity.
Qed.

Lemma run_chunks_counted batches :
  forall schedules st,
    completed st + failed st = length (merged (trace st)) ->
    length (merged (trace st)) <= length (dispatched (trace st)) ->
    let st' := run_chunks CONFIG outside batches schedules st in
    completed st' + failed st' = length (merged (trace st'))
    /\ length (merged (trace st')) <= length (dispatched (trace st'))
    /\ length (dispatched (trace st'))
       <= length (dispatched (trace st)) + length (concat batches).
Proof.
  induction batches as [|batch batches IH]; intros schedules st Hsum Hle; cbn [run_chunks].
  - cbn. split_and!; try assumption. lia.
  - pose proof (dispatch_counted batch st) as Hd.
    destruct (dispatch batch st) as [st1 phases].
    destruct Hd as (H1 & H2 & H3 & H4 & H5).
    assert (Hc1 : counted st1 phases).
    { unfold counted. rewrite H1, H2, H3, H4. split; [exact Hsum|lia]. }
    pose proof (run_events_counted batch (hd [] schedules) st1 phases Hc1) as Hrun.
    destruct (run_events CONFIG outside batch st1 phases (hd [] schedules)) as [st2 phases2].
    destruct Hrun as [[Hsum2 Hle2] Hd2].
    assert (Hhere : completed st2 + failed st2 = length (merged (trace st2))
                    /\ length (merged (trace st2)) <= length (dispatched (trace st2))
                    /\ length (dispatched (trace st2))
                       <= length (dispatched (trace st)) + length (concat (batch :: batches))).
    { cbn [concat]. rewrite length_app. split_and!; [exact Hsum2|lia|lia]. }
    destruct (exited st2); [exact Hhere|].
    destruct (forallb ended phases2); [|exact Hhere].
    destruct (shouldStop st2); [exact Hhere|].
    specialize (IH (tl schedules) st2 Hsum2 ltac:(lia)). cbn zeta in IH.
    destruct IH as (I1 & I2 & I3). cbn [concat]. rewrite length_app.
    split_and!; [exact I1|exact I2|lia].
Qed.


(** X17. For a concurrency above zero, the chunks are the list of the
    items to download cut into consecutive pieces: together they are the
    whole list, in order, and each holds at least one item and at most as
    many as the concurrency. *)
Theorem chunks_cover_the_list (concurrency : nat) (l : list problem) :
  0 < concurrency ->
  concat (chunks concurrency l) = l
  /\ Forall (fun batch => 1 <= length batch <= concurrency) (chunks concurrency l).
Proof.
  intros Hn. unfold chunks. apply chunks_upto_all; [exact Hn|lia].
Qed.

(** *** A run without session error *)

Lemma calm_step batch st phases st' phases' :
  (forall problem message,
      In problem batch ->
      downloadProblem (outside problem) problem CONFIG = inl message ->
      is_session_expired message = false) ->
  calm st phases ->
  stepped CONFIG outside batch st phases st' phases' ->
  calm st' phases'.
Proof.
  intros Hok (Hex & Hstop & Hph & Htr) Hstep.
  destruct Hstep as [|i problem st' ph _ Hb Hp Hs|i problem p fatal _ Hb Hp].
  - split_and!; assumption.
  - assert (Hin : In problem batch)
      by (apply list_elem_of_In; eapply list_elem_of_lookup_2; exact Hb).
    assert (Hsettled : exited st' = false /\ shouldStop st' = false
                       /\ trace st' = Merged (id problem) :: trace st
                       /\ exists p, ph = Writing p false).
    { unfold settle in Hs.
      destruct (downloadProblem (outside problem) problem CONFIG) as [message|status] eqn:Hd.
      - rewrite (Hok problem message Hin Hd) in Hs. injection Hs as <- <-.
        cbn. split_and!; try assumption; try reflexivity. eexists; reflexivity.
      - destruct (isFullyComplete CONFIG status); injection Hs as <- <-;
          cbn; split_and!; try assumption; try reflexivity; eexists; reflexivity. }
    destruct Hsettled as (He' & Hs' & Ht' & p & ->).
    split_and!; [exact He'|exact Hs'| |].
    + intros k q fatal Hk. apply list_lookup_insert_Some in Hk as [(_ & Heq & _)|[_ Hk]].
      * congruence.
      * eapply Hph. exact Hk.
    + intros o Ho. rewrite Ht' in Ho. destruct Ho as [<-|Ho]; [|apply Htr; exact Ho].
      split; [discriminate|intros j; discriminate].
  - assert (fatal = false) as -> by (eapply Hph; exact Hp).
    unfold written, calm. cbn [fst exited shouldStop trace].
    split_and!; [reflexivity|exact Hstop| |].
    + intros k q fatal Hk. apply list_lookup_insert_Some in Hk as [(_ & Heq & _)|[_ Hk]].
      * discriminate.
      * eapply Hph. exact Hk.
    + intros o [<-|Ho]; [|apply Htr; exact Ho].
      split; [discriminate|intros j; discriminate].
Qed.

Lemma run_chunks_calm batches :
  forall schedules st,
    (forall problem message,
        In problem (concat batches) ->
        downloadProblem (outside problem) problem CONFIG = inl message ->
        is_session_expired message = false) ->
    calm st [] ->
    calm (run_chunks CONFIG outside batches schedules st) [].
Proof.
  induction batches as [|batch batches IH]; intros schedules st Hok Hc; cbn [run_chunks].
  - exact Hc.
  - destruct Hc as (Hex & Hstop & _ & Htr).
    pose proof (dispatch_spec batch st) as Hd.
    destruct (dispatch batch st) as [st1 phases].
    destruct Hd as (_ & _ & Hs & _ & He & _ & Hph & added & Ht & _ & Ha).
    assert (Hc1 : calm st1 phases).
    { split_and!; [congruence|congruence| |].
      - intros i p fatal Hi. destruct (Hph i _ Hi); discriminate.
      - intros o Ho. rewrite Ht in Ho. apply in_app_iff in Ho as [Ho|Ho]; [|apply Htr; exact Ho].
        destruct (Ha o Ho) as (q & _ & ->). split; [discriminate|intros j; discriminate]. }
    assert (Hok1 : forall problem message,
               In problem batch ->
               downloadProblem (outside problem) problem CONFIG = inl message ->
               is_session_expired message = false).
    { intros problem message Hin. apply Hok. cbn [concat]. apply in_app_iff. left. exact Hin. }
    pose proof (run_events_invariant CONFIG outside batch calm
                  (fun s ps s' ps' Hs' Hst => calm_step batch s ps s' ps' Hok1 Hs' Hst)
                  (hd [] schedules) st1 phases Hc1) as Hrun.
    destruct (run_events CONFIG outside batch st1 phases (hd [] schedules)) as [st2 phases2].
    assert (Hc2 : calm st2 []).
    { destruct Hrun as (H1 & H2 & _ & H4). split_and!; try assumption.
      intros i p fatal Hi. rewrite lookup_nil in Hi. discriminate. }
    destruct (exited st2); [exact Hc2|].
    destruct (forallb ended phases2); [|exact Hc2].
    destruct (shouldStop st2); [exact Hc2|].
    apply IH; [|exact Hc2].
    intros problem message Hin. apply Hok. cbn [concat]. apply in_app_iff. right. exact Hin.
Qed.

(** X18. A run in which no item throws a session error is never cut
    short: whatever else the items throw or return, under every schedule
    no worker leaves the process, the stop flag stays down, and neither a
    fatal error nor an exit is observed. *)
Theorem run_without_session_error_goes_on (premium : bool) (problems : list problem)
    (read : progress) (schedules : list (list event)) :
  (forall problem message,
      In problem problems ->
      downloadProblem (outside problem) problem CONFIG = inl message ->
      is_session_expired message = false) ->
  let st := main CONFIG outside premium problems read schedules in
  exited st = false
  /\ shouldStop st = false
  /\ ~ In Exit (trace st)
  /\ (forall j, ~ In (Fatal j) (trace st)).
Proof.
  intros Hok st. subst st. unfold main.
  set (todo := problemsToDownload premium (p_completed read) problems).
  destruct (chunks_upto_prefix (length todo) (Z.to_nat (Args.concurrency CONFIG)) todo)
    as [rest Hrest].
  destruct (run_chunks_calm (chunks (Z.to_nat (Args.concurrency CONFIG)) todo) schedules
              (initial read)) as (H1 & H2 & _ & H4).
  - intros problem message Hin. apply Hok.
    assert (Htodo : In problem todo).
    { rewrite <- Hrest. apply in_app_iff. left. exact Hin. }
    unfold todo, problemsToDownload in Htodo. apply filter_In in Htodo as [Hp _]. exact Hp.
  - split_and!; try reflexivity.
    + intros i p fatal Hi. rewrite lookup_nil in Hi. discriminate.
    + intros o [].
  - split_and!; [exact H1|exact H2| |].
    + intros Hin. destruct (H4 _ Hin) as [Hne _]. contradiction.
    + intros j Hin. destruct (H4 _ Hin) as [_ Hne]. exact (Hne j eq_refl).
Qed.

End count_facts.

(** ** The command line *)

Section number_facts.
Import Js.

(** *** Numbers written and read back *)

Lemma read_digits_step radix isd val acc c s :
  isd c = true ->
  read_digits radix isd val acc (c :: s)
  = read_digits radix isd val
      (Some (radix * (match acc with Some a => a | None => 0 end) + val c)%Z) s.
Proof. intros H. cbn [read_digits]. rewrite H. reflexivity. Qed.

Lemma read_digits_acc d :
  forall acc : positive,
    read_digits 10 is_digit dec_val (Some (Zpos acc)) (txt (NilEmpty.string_of_uint d))
    = Some (Zpos (Pos.of_uint_acc d acc)).
Proof.
  induction d as [|d IHd|d IHd|d IHd|d IHd|d IHd|d IHd|d IHd|d IHd|d IHd|d IHd]; intros acc;
    cbn [NilEmpty.string_of_uint txt list_ascii_of_string];
    try fold (txt (NilEmpty.string_of_uint d)); [reflexivity|..];
    rewrite read_digits_step by reflexivity; cbn [Pos.of_uint_acc];
    rewrite <- IHd; f_equal; f_equal;
    match goal with
    | |- context [dec_val ?c] =>
      let v := eval vm_compute in (dec_val c) in change (dec_val c) with v
    end; lia.
Qed.

Lemma read_digits_zero d :
  read_digits 10 is_digit dec_val (Some 0%Z) (txt (NilEmpty.string_of_uint d))
  = Some (Z.of_N (Pos.of_uint d)).
Proof.
  induction d as [|d IHd|d IHd|d IHd|d IHd|d IHd|d IHd|d IHd|d IHd|d IHd|d IHd];
    cbn [NilEmpty.string_of_uint txt list_ascii_of_string];
    try fold (txt (NilEmpty.string_of_uint d)); [reflexivity|..];
    rewrite read_digits_step by reflexivity; cbn [Pos.of_uint];
    first [exact IHd | apply (read_digits_acc d)].
Qed.

Lemma read_digits_start d :
  d <> Decimal.Nil ->
  read_digits 10 is_digit dec_val None (txt (NilEmpty.string_of_uint d))
  = read_digits 10 is_digit dec_val (Some 0%Z) (txt (NilEmpty.string_of_uint d)).
Proof. destruct d; intros H; try reflexivity. contradiction. Qed.

Lemma read_positive p :
  read_digits 10 is_digit dec_val None (txt (NilEmpty.string_of_uint (Pos.to_uint p)))
  = Some (Zpos p).
Proof.
  rewrite read_digits_start by apply DecimalPos.Unsigned.to_uint_nonnil.
  rewrite read_digits_zero, DecimalPos.Unsigned.of_to. reflexivity.
Qed.

(** A number that is not zero starts with a digit, after its sign. *)
Lemma uint_head p :
  exists d ds,
    txt (NilEmpty.string_of_uint (Pos.to_uint p)) = d :: ds /\ is_digit d = true.
Proof.
  pose proof (DecimalPos.Unsigned.to_uint_nonnil p) as Hne.
  destruct (Pos.to_uint p); try contradiction; eexists _, _; split; reflexivity.
Qed.

Lemma of_Z_positive p :
  exists d ds, of_Z (Zpos p) = d :: ds /\ is_digit d = true.
Proof. apply uint_head. Qed.

Lemma of_Z_negative p :
  exists d ds, of_Z (Zneg p) = "-"%char :: d :: ds /\ is_digit d = true.
Proof.
  destruct (uint_head p) as (d & ds & Hs & Hd). exists d, ds. split; [|exact Hd].
  unfold of_Z. cbn [Z.to_int NilEmpty.string_of_int txt list_ascii_of_string].
  fold (txt (NilEmpty.string_of_uint (Pos.to_uint p))). rewrite Hs. reflexivity.
Qed.

Lemma digit_not_space d : is_digit d = true -> is_space d = false.
Proof.
  revert d. intros [[] [] [] [] [] [] [] []]; intros H; try discriminate H; reflexivity.
Qed.

Lemma digit_not_sign d : is_digit d = true -> d <> "-"%char /\ d <> "+"%char.
Proof.
  revert d. intros [[] [] [] [] [] [] [] []]; intros H; try discriminate H;
    split; discriminate.
Qed.

Lemma parseInt10_digits d ds :
  is_digit d = true ->
  parseInt10 (d :: ds) = read_digits 10 is_digit dec_val None (d :: ds).
Proof.
  intros Hd. unfold parseInt10. cbn [trim_start]. rewrite (digit_not_space d Hd).
  destruct d as [[] [] [] [] [] [] [] []]; try discriminate Hd;
    destruct (read_digits 10 is_digit dec_val None _); reflexivity.
Qed.

Lemma parseInt10_minus t :
  parseInt10 ("-"%char :: t)
  = match read_digits 10 is_digit dec_val None t with
    | Some n => Some (- n)%Z
    | None => None
    end.
Proof. reflexivity. Qed.

(** What [toString] writes of a number that is not zero, [parseInt]
    reads back. *)
Lemma parseInt10_of_Z z : z <> 0%Z -> parseInt10 (of_Z z) = Some z.
Proof.
  destruct z as [|p|p]; intros Hz; [contradiction| |].
  - destruct (of_Z_positive p) as (d & ds & Hs & Hd).
    rewrite Hs, (parseInt10_digits d ds Hd), <- Hs. apply read_positive.
  - change (of_Z (Zneg p)) with ("-"%char :: txt (NilEmpty.string_of_uint (Pos.to_uint p))).
    rewrite parseInt10_minus, read_positive. reflexivity.
Qed.

End number_facts.

Section cli_facts.
Import Js Cli.

(** *** The second parser on the list that the handler builds *)

Lemma arg_is_plain (name : string) arg :
  startsWith (txt "-") (txt name) = true ->
  startsWith (txt "-") arg = false ->
  Args.arg_is name arg = false.
Proof.
  intros Hname Harg. unfold Args.arg_is.
  destruct (decide (arg = txt name)) as [->|]; [congruence|reflexivity].
Qed.

Lemma arg_is_number (name : string) d ds :
  is_digit d = true ->
  match txt name with _ :: c :: _ => is_digit c = false | _ => True end ->
  Args.arg_is name ("-"%char :: d :: ds) = false.
Proof.
  intros Hd Hname. unfold Args.arg_is.
  destruct (decide _) as [Heq|]; [|reflexivity].
  rewrite <- Heq in Hname. congruence.
Qed.

Lemma parse_positional c arg rest :
  startsWith (txt "-") arg = false ->
  Args.parse_loop c (arg :: rest) = Args.parse_loop (Args.set_problemId c arg) rest.
Proof.
  intros Harg. cbn [Args.parse_loop].
  rewrite !(arg_is_plain _ arg) by (reflexivity || exact Harg).
  rewrite Harg. reflexivity.
Qed.

Lemma parse_negative c d ds rest :
  is_digit d = true ->
  Args.parse_loop c (("-"%char :: d :: ds) :: rest) = Args.parse_loop c rest.
Proof.
  intros Hd. cbn [Args.parse_loop].
  rewrite !(arg_is_number _ d ds Hd) by reflexivity. reflexivity.
Qed.

Lemma parse_id c (n : option Z) rest :
  Args.parse_loop c (number_arg [] n ++ rest)
  = Args.parse_loop (match positive n with
                     | Some z => Args.set_problemId c (of_Z z)
                     | None => c
                     end) rest.
Proof.
  unfold number_arg, positive. destruct n as [[|p|p]|]; cbn [Z.eqb Z.ltb Z.compare app];
    try reflexivity.
  - destruct (of_Z_positive p) as (d & ds & Hs & Hd). rewrite parse_positional; [reflexivity|].
    rewrite Hs. destruct (digit_not_sign d Hd) as [Hm _].
    unfold startsWith. cbn [txt list_ascii_of_string strip_prefix].
    apply not_eq_sym, Ascii.eqb_neq in Hm. rewrite Hm. reflexivity.
  - destruct (of_Z_negative p) as (d & ds & Hs & Hd). rewrite Hs.
    apply parse_negative. exact Hd.
Qed.

Lemma parse_formats c (f : option str) rest :
  Args.parse_loop c ((match f with
                      | Some v => if decide (v = []) then [] else [txt "-f"; v]
                      | None => []
                      end) ++ rest)
  = Args.parse_loop (match f with
                     | Some v =>
                       if decide (v = []) then c
                       else Args.set_formats c (map (fun x => toLowerCase (trim x)) (split "," v))
                     | None => c
                     end) rest.
Proof.
  destruct f as [v|]; [|reflexivity]. destruct (decide (v = [])); reflexivity.
Qed.

Lemma parse_concurrency c (n : option Z) rest :
  Args.parse_loop c (number_arg [txt "-c"] n ++ rest)
  = Args.parse_loop (match positive n with
                     | Some z => Args.set_concurrency c z
                     | None => c
                     end) rest.
Proof.
  unfold number_arg, positive. destruct n as [z|]; [|reflexivity].
  destruct (Z.eqb_spec z 0) as [->|Hz]; [reflexivity|].
  cbn [app]. change (Args.parse_loop c (txt "-c" :: of_Z z :: rest))
    with (match parseInt10 (of_Z z) with
          | Some concurrency =>
            if (0 <? concurrency)%Z
            then Args.parse_loop (Args.set_concurrency c concurrency) rest
            else Args.parse_loop c rest
          | None => Args.parse_loop c rest
          end).
  rewrite (parseInt10_of_Z z Hz). destruct (0 <? z)%Z; reflexivity.
Qed.

(** The configuration that the handler of [download] reaches. *)
Lemma download_config r :
  Args.parseArgs (downloadArgs r)
  = Args.Returned
      (Args.Config
         (option_map of_Z (positive (problemId r)))
         (match formats r with
          | Some v =>
            if decide (v = []) then Args.formats Args.default_config
            else map (fun x => toLowerCase (trim x)) (split "," v)
          | None => Args.formats Args.default_config
          end)
         (negb (skipTemplates r)) (negb (skipSolutions r)) (negb (skipOfficial r))
         (match positive (concurrency r) with Some z => z | None => 5%Z end)).
Proof.
  unfold Args.parseArgs, downloadArgs.
  rewrite parse_id, parse_formats, parse_concurrency.
  destruct (positive (problemId r)), (formats r) as [v|], (positive (concurrency r)),
    (skipTemplates r), (skipSolutions r), (skipOfficial r);
    try destruct (decide (v = [])); reflexivity.
Qed.

Lemma positive_spec n z : positive n = Some z -> (0 < z)%Z.
Proof.
  unfold positive. destruct n as [y|]; [|discriminate].
  destruct (Z.ltb_spec 0 y); [|discriminate]. intros [= <-]. assumption.
Qed.

(** X19. Through the command line the second parser always returns: the
    list that the handler builds never stops it on a help flag nor
    breaks it on a missing value. The configuration it returns holds the
    three switches as read, a concurrency above zero (the number read when
    it is above zero, else 5) and, as item to download, only the decimal
    writing of a number above zero. *)
Theorem download_command_configuration (args : list str) (r : parsed) :
  (forall a, In a args -> length a <= 15) ->
  parseDownloadArgs args = Returned r ->
  exists CONFIG,
    download args = Args.Returned CONFIG
    /\ Args.problemId CONFIG = option_map of_Z (positive (problemId r))
    /\ Args.concurrency CONFIG
       = match positive (concurrency r) with Some z => z | None => 5%Z end
    /\ (0 < Args.concurrency CONFIG)%Z
    /\ Args.fetchTemplates CONFIG = negb (skipTemplates r)
    /\ Args.fetchSolutions CONFIG = negb (skipSolutions r)
    /\ Args.fetchOfficialSolution CONFIG = negb (skipOfficial r).
Proof.
  intros _ Hr. unfold download. rewrite Hr, download_config.
  eexists. split; [reflexivity|]. cbn [Args.problemId Args.concurrency Args.fetchTemplates
    Args.fetchSolutions Args.fetchOfficialSolution].
  split_and!; try reflexivity.
  destruct (positive (concurrency r)) as [z|] eqn:Hz; [|lia].
  apply (positive_spec _ _ Hz).
Qed.

(** X20. An item named on the command line otherwise than by a number
    above zero is dropped without a word: the run is a batch run of the
    whole catalogue with the default configuration, whereas [parseArgs]
    given the same argument would have kept it as the item to search. *)
Theorem item_named_without_number_is_dropped (arg : str) :
  length arg <= 15 ->
  startsWith (txt "-") arg = false ->
  positive (parseInt10 arg) = None ->
  download [arg] = Args.Returned Args.default_config
  /\ Args.parseArgs [arg] = Args.Returned (Args.set_problemId Args.default_config arg).
Proof.
  intros _ Harg Hnum. split.
  - unfold download, parseDownloadArgs. cbn [parse_loop].
    rewrite !(arg_is_plain _ arg) by (reflexivity || exact Harg).
    rewrite Harg. cbn [orb negb]. rewrite download_config.
    cbn [problemId formats skipTemplates skipSolutions skipOfficial concurrency
         set_problemId initial positive option_map negb].
    rewrite Hnum. reflexivity.
  - unfold Args.parseArgs. rewrite parse_positional by exact Harg. reflexivity.
Qed.

End cli_facts.

(** ** The catalogue *)

Section catalogue_facts.
Import Layout Download Catalogue.
Variable r : remote.
Variable answer : Z -> reply (option page).
Hypothesis logged_in : cookies r = true.

(** *** A catalogue that does not change while it is listed *)

Lemma pages_of_constant_total (T : Z) (qs : nat -> list entry) :
  (forall k : nat, answer (100 * Z.of_nat k) = Data (Some (Page T (qs k)))) ->
  forall n k fuel problems,
    k + n = page_count T -> 1 <= n -> n <= fuel ->
    pages fuel r answer (100 * Z.of_nat k) problems
    = Some (inr (problems ++ flat_map (fun j => map problem_of (qs j)) (seq k n))).
Proof.
  intros Hanswer. induction n as [|n IH]; intros k fuel problems Hk Hn Hfuel; [lia|].
  destruct fuel as [|fuel]; [lia|]. cbn [pages].
  unfold fetchFromLeetCodeAPI. rewrite logged_in, Hanswer. cbn [negb total questions].
  unfold limit, page_count in *.
  destruct n as [|n].
  - assert (Hlast : (100 * Z.of_nat k + 100 <? T)%Z = false).
    { apply Z.ltb_ge. pose proof (Z.div_mod (T + 99) 100 ltac:(lia)) as Hdiv.
      pose proof (Z.mod_pos_bound (T + 99) 100 ltac:(lia)) as Hmod. lia. }
    rewrite Hlast. cbn [seq flat_map]. rewrite app_nil_r. reflexivity.
  - assert (Hmore : (100 * Z.of_nat k + 100 <? T)%Z = true).
    { apply Z.ltb_lt. pose proof (Z.div_mod (T + 99) 100 ltac:(lia)) as Hdiv.
      pose proof (Z.mod_pos_bound (T + 99) 100 ltac:(lia)) as Hmod. lia. }
    rewrite Hmore.
    replace (100 * Z.of_nat k + 100)%Z with (100 * Z.of_nat (S k))%Z by lia.
    rewrite (IH (S k) fuel); [|lia|lia|lia].
    cbn [seq flat_map]. rewrite <- app_assoc. reflexivity.
Qed.

(** X21. When every page announces the same total, [listProblems] reads
    the pages of a hundred entries that the total calls for, one page at
    least, and returns their entries in the order read, as they came: it
    removes no entry and no duplicate. *)
Theorem listProblems_reads_every_page (T : Z) (qs : nat -> list entry) (fuel : nat) :
  (forall k : nat, answer (100 * Z.of_nat k) = Data (Some (Page T (qs k)))) ->
  page_count T <= fuel ->
  listProblems fuel r answer
  = Some (inr (flat_map (fun k => map problem_of (qs k)) (seq 0 (page_count T)))).
Proof.
  intros Hanswer Hfuel. unfold listProblems.
  change 0%Z with (100 * Z.of_nat 0)%Z.
  rewrite (pages_of_constant_total T qs Hanswer (page_count T) 0 fuel []);
    [reflexivity|reflexivity| |exact Hfuel].
  unfold page_count. lia.
Qed.

(** *** A page that cannot be read *)

Lemma pages_until_failure (j : nat) (message : str) (T : nat -> Z) (qs : nat -> list entry) :
  (forall k : nat, k < j ->
     answer (100 * Z.of_nat k) = Data (Some (Page (T k) (qs k)))
     /\ (100 * Z.of_nat (S k) < T k)%Z) ->
  answer (100 * Z.of_nat j) = Unreachable message ->
  forall n k fuel problems,
    k + n = j -> n < fuel ->
    pages fuel r answer (100 * Z.of_nat k) problems
    = Some (inl (txt "LeetCode API request failed: " ++ message)).
Proof.
  intros Hbefore Hfail. induction n as [|n IH]; intros k fuel problems Hk Hfuel.
  - destruct fuel as [|fuel]; [lia|]. cbn [pages].
    replace k with j by lia. unfold fetchFromLeetCodeAPI. rewrite logged_in, Hfail.
    reflexivity.
  - destruct fuel as [|fuel]; [lia|]. cbn [pages].
    destruct (Hbefore k ltac:(lia)) as [Hpage Hmore].
    unfold fetchFromLeetCodeAPI. rewrite logged_in, Hpage. cbn [negb total questions].
    unfold limit.
    replace (100 * Z.of_nat k + 100)%Z with (100 * Z.of_nat (S k))%Z by lia.
    apply Z.ltb_lt in Hmore. rewrite Hmore. apply IH; lia.
Qed.

(** X22. A page that cannot be fetched fails the whole listing: when the
    pages before it came and called for more, [listProblems] throws the
    error of the request and returns nothing of what it had read. *)
Theorem listProblems_is_all_or_nothing (j : nat) (message : str) (T : nat -> Z)
    (qs : nat -> list entry) (fuel : nat) :
  (forall k : nat, k < j ->
     answer (100 * Z.of_nat k) = Data (Some (Page (T k) (qs k)))
     /\ (100 * Z.of_nat (S k) < T k)%Z) ->
  answer (100 * Z.of_nat j) = Unreachable message ->
  j < fuel ->
  listProblems fuel r answer = Some (inl (txt "LeetCode API request failed: " ++ message)).
Proof.
  intros Hbefore Hfail Hfuel. unfold listProblems.
  change 0%Z with (100 * Z.of_nat 0)%Z.
  apply (pages_until_failure j message T qs Hbefore Hfail j 0 fuel []); lia.
Qed.

End catalogue_facts.

(** ** The session file and what the download sees of it *)

Section session_facts.
Import Session.


End session_facts.

Section missing_cookies.
Import Layout Download Scheduler.

(** X24. An item downloaded while the session cookies cannot be found
    fails at its first query with the error of the missing cookies. That
    error is no session error: the worker records the item as failed,
    with the message as its reason, and does not stop the run. *)
Theorem missing_cookies_fail_the_item r problem CONFIG st :
  cookies r = false ->
  downloadProblem r problem CONFIG = inl (txt "No session cookies found. Please login first.")
  /\ is_session_expired (txt "No session cookies found. Please login first.") = false
  /\ shouldStop (fst (settle CONFIG problem
                        (inl (txt "No session cookies found. Please login first.")) st))
     = shouldStop st
  /\ failedProblems (fst (settle CONFIG problem
                            (inl (txt "No session cookies found. Please login first.")) st))
       !! id problem
     = Some (Failure (name problem) (slug problem)
                     [txt "Exception: No session cookies found. Please login first."] None).
Proof.
  intros Hcookies.
  assert (Hq : retried (getProblemDescription r (slug problem))
               = inl (txt "No session cookies found. Please login first.")).
  { unfold retried, Retry.retryAsync, Retry.MAX_RETRIES, Retry.result_of,
      getProblemDescription, fetchFromLeetCodeAPI.
    cbn [Retry.attempts]. rewrite Hcookies. reflexivity. }
  split; [unfold downloadProblem; rewrite Hq; reflexivity|].
  split; [reflexivity|]. unfold settle.
  replace (is_session_expired (txt "No session cookies found. Please login first."))
    with false by reflexivity.
  cbn [fst shouldStop failedProblems]. split; [reflexivity|].
  unfold failure_of_exception. apply lookup_insert_eq.
Qed.

End missing_cookies.

(** ** The line printed for an item *)

Section display_facts.
Import Layout Download Scheduler Display.

Lemma templates_untouched CONFIG r problemSlug available langs :
  Args.fetchTemplates CONFIG = false ->
  forall tpl com,
    fst (fold_left (language_step CONFIG r problemSlug available) langs (tpl, com)) = tpl.
Proof.
  intros Hoff. induction langs as [|lang langs IH]; intros tpl com; [reflexivity|].
  cbn [fold_left]. unfold language_step at 2. rewrite Hoff. apply IH.
Qed.

Lemma community_untouched CONFIG r problemSlug available langs :
  Args.fetchSolutions CONFIG = false ->
  forall tpl com,
    snd (fold_left (language_step CONFIG r problemSlug available) langs (tpl, com)) = com.
Proof.
  intros Hoff. induction langs as [|lang langs IH]; intros tpl com; [reflexivity|].
  cbn [fold_left]. unfold language_step at 2. rewrite Hoff. cbn [andb]. apply IH.
Qed.

(** The status of an item with languages, of which a kind was not asked
    for. *)
Lemma not_requested_counts r problem CONFIG status :
  downloadProblem r problem CONFIG = inr status ->
  (Args.fetchTemplates CONFIG = false -> count (templates status) = 0%Z)
  /\ (Args.fetchSolutions CONFIG = false ->
      count (communitySolutions status) = 0%Z
      /\ total (communitySolutions status) = total (templates status)).
Proof.
  unfold downloadProblem. intros Hstatus.
  destruct (retried (getProblemDescription r (slug problem))) as [e|q]; [discriminate|].
  destruct (decide (content q = [])) as [Hempty|Hcontent].
  { destruct (locked problem && _); [discriminate|]. destruct (locked problem); discriminate. }
  destruct (Transcoder.convertHtmlToMarkdown (content q) (images r)) as [markdownBody|];
    [|discriminate].
  set (n := Z.of_nat (length (map langSlug (codeSnippets q)))) in *.
  pose proof (templates_untouched CONFIG r (slug problem) (codeSnippets q)
                (map langSlug (codeSnippets q))) as Htpl.
  pose proof (community_untouched CONFIG r (slug problem) (codeSnippets q)
                (map langSlug (codeSnippets q))) as Hcom.
  pose proof (languages_counts CONFIG r (slug problem) (codeSnippets q) n
                (map langSlug (codeSnippets q)) (Tally false 0 n []) (Tally false 0 n []) 0%Z)
    as Hfold.
  cbn [total count languages success_flag length] in Hfold.
  destruct Hfold as [(Ht & _) _];
    [split_and!; lia || reflexivity|split_and!; lia || reflexivity|].
  specialize (fun H => Htpl H (Tally false 0 n []) (Tally false 0 n [])).
  specialize (fun H => Hcom H (Tally false 0 n []) (Tally false 0 n [])).
  destruct (fold_left _ _ _) as [tpl com]. cbn [fst snd] in *.
  injection Hstatus as <-. cbn [templates communitySolutions mark count total].
  split.
  - intros Hoff. rewrite (Htpl Hoff). reflexivity.
  - intros Hoff. rewrite (Hcom Hoff). cbn [count total]. split; [reflexivity|].
    symmetry. exact Ht.
Qed.

(** X25. The mark at the head of the line is stricter than the verdict
    recorded: the check mark is shown only for a status that is judged
    fully complete under every configuration, and a kind that was not
    asked for still counts against it. With the templates or the
    community solutions switched off, an item that has languages is shown
    with the warning sign, whatever its verdict. *)
Theorem check_mark_is_stricter_than_the_verdict r problem CONFIG status :
  downloadProblem r problem CONFIG = inr status ->
  (allSuccess status = true -> isFullyComplete CONFIG status = true)
  /\ (Args.fetchTemplates CONFIG = false \/ Args.fetchSolutions CONFIG = false ->
      (0 < total (templates status))%Z ->
      allSuccess status = false).
Proof.
  intros Hstatus. split.
  - unfold allSuccess, descSuccess, templatesSuccess, officialSuccess, communitySuccess,
      isFullyComplete.
    intros H. apply andb_true_iff in H as [H H4]. apply andb_true_iff in H as [H H3].
    apply andb_true_iff in H as [H1 H2]. rewrite H1, H2, H3, H4, !orb_true_r. reflexivity.
  - intros Hoff Hlangs. destruct (not_requested_counts r problem CONFIG status Hstatus)
      as [Htpl Hcom].
    unfold allSuccess, templatesSuccess, communitySuccess.
    destruct Hoff as [Hoff|Hoff].
    + rewrite (Htpl Hoff).
      replace (0 =? total (templates status))%Z with false by (symmetry; apply Z.eqb_neq; lia).
      rewrite andb_false_r. reflexivity.
    + destruct (Hcom Hoff) as [Hc Ht]. rewrite Hc, Ht.
      replace (0 =? total (templates status))%Z with false by (symmetry; apply Z.eqb_neq; lia).
      apply andb_false_r.
Qed.

(** X26. The path shown in the line of an item, and in the line of an
    item skipped as locked, is the folder that [downloadProblem] writes,
    taken from the working directory, unless the first tag of the item is
    the empty string: the line then shows the folder of the item right
    under [downloads], whereas the download writes it under
    [downloads/uncategorized]. *)
Theorem path_shown_is_path_written (problem : problem) :
  (hd_error (tags problem) <> Some [] ->
   relativePath problem = problemPath (txt "downloads") problem)
  /\ (hd_error (tags problem) = Some [] ->
      relativePath problem = txt "downloads/" ++ problemFolder problem
      /\ problemPath (txt "downloads") problem
         = txt "downloads/uncategorized/" ++ problemFolder problem).
Proof.
  unfold relativePath, problemPath, tagFolder, tag, first_tag. split.
  - intros Htag. destruct (tags problem) as [|t ts]; [reflexivity|].
    destruct (decide (t = [])) as [->|]; [|reflexivity]. contradiction.
  - intros Htag. destruct (tags problem) as [|t ts]; [discriminate|].
    injection Htag as ->.
    assert (Hfolder : exists c f, problemFolder problem = c :: f).
    { unfold problemFolder. destruct (id_component problem) as [|c f]; eauto. }
    destruct Hfolder as (c & f & ->).
    rewrite decide_True by reflexivity.
    split; reflexivity.
Qed.

End display_facts.

(** ** The description as HTML *)

Section html_facts.
Import Js Matching Transcoder Media Html.

Variable net : nat -> str -> bool.

(** *** A pattern whose first atom is a literal that does not occur *)

Lemma head_literal_scan_absent l r :
  forall s pos, includes l s = false -> scan [Alt false (Lit l :: r)] pos 0 s = map Keep s.
Proof.
  induction s as [|c s IH]; intros pos H; cbn [includes] in H.
  - cbn [scan match_here bol atoms rmatch].
    destruct (strip_prefix l []); [discriminate|reflexivity].
  - cbn [scan match_here bol atoms rmatch].
    destruct (strip_prefix l (c :: s)); [discriminate|].
    cbn [map]. rewrite IH by exact H. reflexivity.
Qed.

(** *** A literal across the end of a text *)

(** A literal that does not start a text can only start the text
    lengthened if the text is one of its heads. *)
Lemma strip_prefix_straddle l :
  forall z w,
    z <> [] ->
    strip_prefix l z = None ->
    (forall l1 l2, l = l1 ++ l2 -> l1 <> [] -> l2 <> [] -> strip_prefix l2 w = None) ->
    strip_prefix l (z ++ w) = None.
Proof.
  induction l as [|a l IH]; intros z w Hz Hnone Hw; [discriminate|].
  destruct z as [|c z]; [contradiction|]. cbn [strip_prefix app] in *.
  destruct (Ascii.eqb a c); [|reflexivity].
  destruct z as [|d z].
  - cbn [app]. destruct l as [|b l]; [discriminate|].
    apply (Hw [a] (b :: l)); [reflexivity|discriminate|discriminate].
  - apply IH; [discriminate|exact Hnone|].
    intros l1 l2 -> H1 H2. apply (Hw (a :: l1) l2); [reflexivity|discriminate|exact H2].
Qed.

Ltac split_tail :=
  match goal with
  | H : _ = ?l1 ++ ?l2 |- _ =>
    destruct l1;
    [first [contradiction
           |cbn in H; subst l2;
            first [contradiction
                  |eexists _, _; split_and!; [reflexivity|discriminate|reflexivity]]]
    |cbn in H; first [discriminate|injection H as <- H]]
  end.

Lemma tails_clear_img : tails_clear (txt "<img").
Proof. intros l1 l2 H H1 H2. do 5 split_tail. Qed.

Lemma tails_clear_close : tails_clear (txt "</pre>").
Proof. intros l1 l2 H H1 H2. do 7 split_tail. Qed.

(** What comes after the content of a block: line breaks, then a closing
    tag. *)
Lemma tail_after_breaks l2 trail w h t :
  l2 = h :: t -> h <> "<"%char -> is_break h = false ->
  Forall (fun c => is_break c = true) trail ->
  strip_prefix l2 (trail ++ "<"%char :: w) = None.
Proof.
  intros -> Hh Hb Htrail. destruct Htrail as [|c trail Hc _]; cbn [app].
  - apply strip_prefix_head. exact Hh.
  - apply strip_prefix_head. intros ->. congruence.
Qed.

Lemma straddle_none l z trail w :
  tails_clear l ->
  z <> [] ->
  strip_prefix l z = None ->
  Forall (fun c => is_break c = true) trail ->
  strip_prefix l (z ++ trail ++ "<"%char :: w) = None.
Proof.
  intros Hl Hz Hnone Htrail. apply strip_prefix_straddle; [exact Hz|exact Hnone|].
  intros l1 l2 Heq H1 H2. destruct (Hl l1 l2 Heq H1 H2) as (h & t & H2' & Hh & Hb).
  eapply tail_after_breaks; eassumption.
Qed.

Lemma includes_app_after l x trail w :
  tails_clear l ->
  includes l x = false ->
  includes l (trail ++ "<"%char :: w) = false ->
  Forall (fun c => is_break c = true) trail ->
  includes l (x ++ trail ++ "<"%char :: w) = false.
Proof.
  intros Hl Hx Hw Htrail. induction x as [|c x IH]; [exact Hw|].
  cbn [includes] in Hx.
  destruct (strip_prefix l (c :: x)) eqn:Hs; [discriminate|].
  cbn [app]. rewrite includes_step; [apply IH; exact Hx|].
  change (c :: x ++ trail ++ "<"%char :: w) with ((c :: x) ++ trail ++ "<"%char :: w).
  apply straddle_none; [exact Hl|discriminate|exact Hs|exact Htrail].
Qed.

(** *** Repetitions *)

(** A lazy repetition goes on while the rest of the pattern fails, and
    stops as soon as it has what it needs and the rest goes through. *)
Lemma lazy_stretch p (k : cont) r :
  forall pre need t,
    Forall (fun c => p c = true) pre ->
    need <= length pre ->
    (forall pre1 pre2, pre = pre1 ++ pre2 -> pre2 <> [] -> need <= length pre1 ->
       k (pre2 ++ t) = None) ->
    k t = Some r ->
    lazy p k need (pre ++ t) = Some (pre, r).
Proof.
  induction pre as [|c pre IH]; intros need t Hp Hneed Hnone Hk.
  - cbn [length] in Hneed. assert (need = 0) as -> by lia.
    cbn [app]. destruct t; cbn [lazy stop]; rewrite Hk; reflexivity.
  - inversion Hp as [|? ? Hc Hp']; subst. cbn [app lazy].
    assert (Hstop : stop k need (c :: pre ++ t) = None).
    { destruct need; [|reflexivity]. cbn [stop].
      change (c :: pre ++ t) with ((c :: pre) ++ t).
      rewrite (Hnone [] (c :: pre) eq_refl); [reflexivity|discriminate|cbn; lia]. }
    rewrite Hstop, Hc.
    rewrite (IH (pred need) t Hp'); [reflexivity| | |exact Hk].
    + cbn [length] in Hneed. lia.
    + intros pre1 pre2 -> Hne Hlen.
      apply (Hnone (c :: pre1) pre2); [reflexivity|exact Hne|cbn [length]; lia].
Qed.

(** Line breaks, then a literal that is not there. *)
Lemma breaks_then_literal_none a l r :
  is_break a = false ->
  forall nl z,
    Forall (fun c => is_break c = true) nl ->
    match z with c :: _ => is_break c = false | [] => True end ->
    strip_prefix (a :: l) z = None ->
    greedy is_break (rmatch (Lit (a :: l) :: r)) 0 (nl ++ z) = None.
Proof.
  intros Ha. induction nl as [|c nl IH]; intros z Hnl Hz Hnone.
  - cbn [app]. destruct z as [|c z]; cbn [greedy stop rmatch].
    + reflexivity.
    + rewrite Hz, Hnone. reflexivity.
  - inversion Hnl as [|? ? Hc Hnl']; subst. cbn [app greedy]. rewrite Hc.
    cbn [pred]. rewrite (IH z Hnl' Hz Hnone). cbn [grow stop].
    rewrite rmatch_Lit_head; [reflexivity|]. intros ->. congruence.
Qed.

(** A text is a run of line breaks followed by a text that does not
    start with one. *)
Lemma break_split (s : str) :
  exists nl z,
    s = nl ++ z
    /\ Forall (fun c => is_break c = true) nl
    /\ match z with c :: _ => is_break c = false | [] => True end.
Proof.
  induction s as [|c s (nl & z & -> & Hnl & Hz)].
  - exists [], []. split_and!; [reflexivity|constructor|exact I].
  - destruct (is_break c) eqn:Hc.
    + exists (c :: nl), z. split_and!; [reflexivity|constructor; assumption|exact Hz].
    + exists [], (c :: nl ++ z). split_and!; [reflexivity|constructor|exact Hc].
Qed.

Lemma last_breaks (s : str) d :
  Forall (fun c => is_break c = true) s -> s <> [] -> is_break (List.last s d) = true.
Proof.
  induction 1 as [|c s Hc Hs IH]; intros Hne; [contradiction|].
  destruct s as [|c' s]; [exact Hc|]. apply IH. discriminate.
Qed.

Lemma last_app_right (x y : str) d : y <> [] -> List.last (x ++ y) d = List.last y d.
Proof.
  intros Hy. induction x as [|c x IH]; [reflexivity|].
  cbn [app]. destruct (x ++ y) eqn:Hxy; [|exact IH].
  destruct x, y; try discriminate. contradiction.
Qed.

(** *** The pattern of the blocks *)

(** After a part of the content, the closing tag is not yet there. *)
Lemma block_goes_on core trail b pre1 pre2 :
  trimmed core ->
  includes (txt "</pre>") core = false ->
  Forall (fun c => is_break c = true) trail ->
  core = pre1 ++ pre2 -> pre2 <> [] ->
  rmatch [Greedy is_break 0; Lit (txt "</pre>")] (pre2 ++ trail ++ txt "</pre>" ++ b) = None.
Proof.
  intros [_ Hlast] Hinc Htrail -> Hne.
  destruct (break_split pre2) as (nl & z & -> & Hnl & Hz).
  assert (Hznil : z <> []).
  { intros ->. rewrite app_nil_r in *. rewrite last_app_right in Hlast by exact Hne.
    rewrite (last_breaks nl _ Hnl Hne) in Hlast. discriminate. }
  cbn [rmatch]. rewrite <- app_assoc.
  rewrite (breaks_then_literal_none "<" (txt "/pre>") []); [reflexivity|reflexivity|exact Hnl| |].
  - destruct z; [contradiction|exact Hz].
  - change ("<"%char :: txt "/pre>") with (txt "</pre>").
    change (txt "</pre>" ++ b) with ("<"%char :: txt "/pre>" ++ b).
    apply straddle_none; [apply tails_clear_close|exact Hznil| |exact Htrail].
    apply (includes_false_suffix _ (pre1 ++ nl)). rewrite <- app_assoc. exact Hinc.
Qed.

(** The pattern matches a block from its opening tag to its closing
    tag; the line breaks around the content are not in group 1. *)
Lemma re_block_finds lead core trail b pos :
  Forall (fun c => is_break c = true) lead ->
  Forall (fun c => is_break c = true) trail ->
  trimmed core ->
  includes (txt "</pre>") core = false ->
  match_here re_block 0 pos (txt "<pre>" ++ lead ++ core ++ trail ++ txt "</pre>" ++ b)
  = Some (0, [txt "<pre>"; lead; core; trail; txt "</pre>"], b).
Proof.
  intros Hlead Htrail Hcore Hinc. unfold re_block, one. cbn [match_here bol atoms].
  rewrite rmatch_Lit.
  assert (Hrest : rmatch [Greedy is_break 0; Lit (txt "</pre>")] (trail ++ txt "</pre>" ++ b)
                  = Some ([trail; txt "</pre>"], b)).
  { apply rmatch_Greedy; [exact Htrail|lia|reflexivity|].
    rewrite rmatch_Lit. reflexivity. }
  assert (Hlazy : rmatch [Lazy any_char 1; Greedy is_break 0; Lit (txt "</pre>")]
                         (core ++ trail ++ txt "</pre>" ++ b)
                  = Some ([core; trail; txt "</pre>"], b)).
  { cbn [rmatch].
    rewrite (lazy_stretch any_char _ ([trail; txt "</pre>"], b) core 1).
    - reflexivity.
    - apply Forall_forall. intros; reflexivity.
    - destruct Hcore as [Hhd _]. destruct core; [contradiction|cbn [length]; lia].
    - intros pre1 pre2 Heq Hne _.
      exact (block_goes_on core trail b pre1 pre2 Hcore Hinc Htrail Heq Hne).
    - exact Hrest. }
  rewrite (rmatch_Greedy is_break 0 _ lead _ [core; trail; txt "</pre>"] b);
    [reflexivity|exact Hlead|lia| |exact Hlazy].
  destruct Hcore as [Hhd _]. destruct core; [contradiction|exact Hhd].
Qed.

Lemma template_block text before after g :
  GetSubstitution text before after [Some g] (txt "<pre><code>$1</code></pre>")
  = txt "<pre><code>" ++ g ++ txt "</code></pre>".
Proof. reflexivity. Qed.

(** One block, in a text that holds no other opening bracket. *)
Lemma block_once a lead core trail b :
  Forall (fun c => c <> "<"%char) a ->
  Forall (fun c => c <> "<"%char) b ->
  Forall (fun c => is_break c = true) lead ->
  Forall (fun c => is_break c = true) trail ->
  trimmed core ->
  includes (txt "</pre>") core = false ->
  sub1 re_block 2 (txt "<pre><code>$1</code></pre>")
       (a ++ txt "<pre>" ++ lead ++ core ++ trail ++ txt "</pre>" ++ b)
  = a ++ txt "<pre><code>" ++ core ++ txt "</code></pre>" ++ b.
Proof.
  intros Ha Hb Hlead Htrail Hcore Hinc.
  assert (Hre : Forall (fun al => exists l r, atoms al = Lit ("<"%char :: l) :: r) re_block).
  { repeat constructor. eexists _, _. reflexivity. }
  unfold sub1, replace_tpl, replace_fn.
  rewrite scan_keep.
  2:{ intros c s p Hin. apply (match_here_absent "<" re_block Hre).
      rewrite Forall_forall in Ha. apply Ha, list_elem_of_In, Hin. }
  replace (txt "<pre>" ++ lead ++ core ++ trail ++ txt "</pre>" ++ b)
    with ((txt "<pre>" ++ lead ++ core ++ trail ++ txt "</pre>") ++ b)
    by (rewrite <- !app_assoc; reflexivity).
  rewrite (scan_found re_block _ _ b 0 [txt "<pre>"; lead; core; trail; txt "</pre>"]).
  - rewrite (scan_absent "<" re_block b Hre Hb).
    rewrite splice_app, splice_keep. cbn [splice]. rewrite splice_keep.
    unfold group. cbn [h_slices skipn firstn concat]. rewrite app_nil_r.
    rewrite template_block. rewrite <- !app_assoc. reflexivity.
  - discriminate.
  - rewrite <- !app_assoc. apply re_block_finds; assumption.
  - cbn [concat]. rewrite app_nil_r. reflexivity.
Qed.

(** *** A document without images *)

Lemma no_image_found s :
  includes (txt "<img") s = false ->
  found s = [] /\ forall f, replace_fn imgRegex f s = s.
Proof.
  intros H. unfold found, exec_all, replace_fn, imgRegex, re_img, one.
  rewrite head_literal_scan_absent by exact H. split.
  - rewrite hits_keep. reflexivity.
  - intros f. apply splice_keep.
Qed.

(** X27. A code block of the description is saved, in the HTML
    document, with its content wrapped in a [code] element, without the
    line breaks that stood at the two ends of the content. The content is
    not looked at: a block that came with a [code] element has two of
    them afterwards. *)
Theorem blocks_are_wrapped (a lead core trail b : str) :
  Forall (fun c => c <> "<"%char) a ->
  Forall (fun c => c <> "<"%char) b ->
  Forall (fun c => is_break c = true) lead ->
  Forall (fun c => is_break c = true) trail ->
  trimmed core ->
  includes (txt "</pre>") core = false ->
  includes (txt "<img") core = false ->
  processHtmlBody net (a ++ txt "<pre>" ++ lead ++ core ++ trail ++ txt "</pre>" ++ b)
  = (a ++ txt "<pre><code>" ++ core ++ txt "</code></pre>" ++ b, []).
Proof.
  intros Ha Hb Hlead Htrail Hcore Hclose Himg.
  set (html := a ++ txt "<pre>" ++ lead ++ core ++ trail ++ txt "</pre>" ++ b).
  assert (Hnone : includes (txt "<img") html = false).
  { unfold html. change (txt "<img") with ("<"%char :: txt "img").
    rewrite includes_free by exact Ha.
    change (txt "<pre>" ++ lead ++ core ++ trail ++ txt "</pre>" ++ b)
      with ("<"%char :: txt "pre>" ++ lead ++ core ++ trail ++ txt "</pre>" ++ b).
    rewrite includes_step by reflexivity.
    rewrite includes_free by (repeat constructor; discriminate).
    rewrite includes_free.
    2:{ eapply Forall_impl; [exact Hlead|]. intros c Hc ->. discriminate. }
    change (txt "</pre>" ++ b) with ("<"%char :: txt "/pre>" ++ b).
    apply includes_app_after; [apply tails_clear_img|exact Himg| |exact Htrail].
    rewrite includes_free.
    2:{ eapply Forall_impl; [exact Htrail|]. intros c Hc ->. discriminate. }
    rewrite includes_step by reflexivity.
    rewrite includes_free by (repeat constructor; discriminate).
    apply includes_none. exact Hb. }
  destruct (no_image_found html Hnone) as [Hfound Hsame].
  unfold processHtmlBody, scanned. rewrite Hfound, Hsame. cbn [fold_left imageMap].
  unfold html. rewrite block_once by assumption. reflexivity.
Qed.

(** *** The map of the images *)

Lemma map_get_set k k' v m :
  map_get k (map_set k' v m) = if decide (k = k') then Some v else map_get k m.
Proof.
  induction m as [|[k0 v0] m IH]; cbn [map_set map_get].
  - destruct (decide (k = k')); reflexivity.
  - destruct (decide (k' = k0)) as [->|Hne]; cbn [map_get].
    + destruct (decide (k = k0)); reflexivity.
    + destruct (decide (k = k0)) as [->|Hk].
      * destruct (decide (k0 = k')); [congruence|reflexivity].
      * exact IH.
Qed.

Lemma visit_map st u :
  exists v,
    imageMap (visit net st u) = map_set u v (imageMap st)
    /\ imageIndex st <= imageIndex (visit net st u)
    /\ resolved (imageIndex (visit net st u)) u v.
Proof.
  unfold visit. destruct (download net (fullUrl u) (requests st)) as [[c w] tr].
  destruct c; cbn [imageMap imageIndex]; eexists; split_and!;
    try reflexivity; try lia; unfold resolved; eauto.
Qed.

Lemma resolved_mono i j u v : i <= j -> resolved i u v -> resolved j u v.
Proof.
  intros Hij [H|(n & Hn & H)]; [left; exact H|right; exists n; split; [lia|exact H]].
Qed.

Lemma scanned_resolved urls :
  forall st,
    (forall k v, map_get k (imageMap st) = Some v -> resolved (imageIndex st) k v) ->
    (forall k v, map_get k (imageMap (fold_left (visit net) urls st)) = Some v ->
       resolved (imageIndex (fold_left (visit net) urls st)) k v)
    /\ (forall k, In k urls \/ map_get k (imageMap st) <> None ->
          map_get k (imageMap (fold_left (visit net) urls st)) <> None).
Proof.
  induction urls as [|u urls IH]; intros st Hst; cbn [fold_left].
  - split; [exact Hst|]. intros k [[]|H]. exact H.
  - destruct (visit_map st u) as (v & Hmap & Hidx & Hres).
    destruct (IH (visit net st u)) as [IH1 IH2].
    { intros k v0. rewrite Hmap, map_get_set.
      destruct (decide (k = u)) as [->|_].
      - intros [= <-]. exact Hres.
      - intros Hk. eapply resolved_mono; [exact Hidx|]. apply Hst, Hk. }
    split; [exact IH1|]. intros k Hk. apply IH2.
    rewrite Hmap, map_get_set. destruct (decide (k = u)) as [->|Hne].
    + right. discriminate.
    + destruct Hk as [[->|Hin]|Hk]; [contradiction|left; exact Hin|right; exact Hk].
Qed.

Lemma hits_In h ps : In h (hits ps) <-> In (Found h) ps.
Proof.
  induction ps as [|[c|h'] ps IH]; cbn [hits In].
  - reflexivity.
  - rewrite IH. split; [intros H; right; exact H|intros [H|H]; [discriminate|exact H]].
  - rewrite IH. split; intros [H|H]; [left; congruence|right; exact H| |right; exact H].
    left. injection H as ->. reflexivity.
Qed.

(** The source of an image found is not empty. *)
Lemma found_nonempty html src : In src (found html) -> src <> [].
Proof.
  unfold found, exec_all. intros Hin. apply in_map_iff in Hin as (h & <- & Hh).
  apply hits_In, replace_occurs in Hh.
  destruct h as [i sls idx aft]. unfold occurs in Hh.
  cbn [h_alt h_slices h_index h_after] in Hh.
  destruct Hh as (pre & al & _ & _ & Hal & Hall & _ & _).
  destruct i as [|n]; [|destruct n; discriminate]. injection Hal as <-.
  cbn [atoms] in Hall.
  repeat match goal with
         | H : Forall2 consumes (_ :: _) _ |- _ => inversion H; clear H; subst
         | H : Forall2 consumes [] _ |- _ => inversion H; clear H; subst
         end.
  unfold src_of, slice. cbn [h_slices nth].
  match goal with
  | H : consumes (Greedy (not_char "034") 1) ?sl |- ?sl <> [] =>
    cbn [consumes] in H; destruct H as [_ Hlen]; destruct sl; [cbn in Hlen; lia|discriminate]
  end.
Qed.

(** X28. Every image found in the description has an address in the
    map that the two saved documents are written with: the path of the
    file saved, or, when the download failed, the address of the image on
    the site. A source that starts with a slash is thus never written as
    it came. *)
Theorem sources_are_resolved (html src : str) :
  In src (found html) ->
  exists v,
    map_get src (imageMap (scanned net html)) = Some v
    /\ local_path (imageMap (scanned net html)) src = v
    /\ resolved (imageIndex (scanned net html)) src v
    /\ (startsWith (txt "/") src = true -> startsWith (txt "/") v = false).
Proof.
  intros Hin. unfold scanned.
  destruct (scanned_resolved (found html) (Progress [] 0 0 [])) as [Hres Hkeys].
  { intros k v. discriminate. }
  specialize (Hkeys src (or_introl Hin)).
  destruct (map_get src _) as [v|] eqn:Hget; [|contradiction].
  specialize (Hres src v Hget). pose proof (found_nonempty html src Hin) as Hne.
  assert (Hv : v <> [] /\ (startsWith (txt "/") src = true -> startsWith (txt "/") v = false)).
  { destruct Hres as [->|(n & _ & ->)].
    - unfold fullUrl. destruct (startsWith (txt "/") src) eqn:Hs.
      + split; [discriminate|reflexivity].
      + split; [exact Hne|discriminate].
    - split; [discriminate|reflexivity]. }
  exists v. split_and!; [reflexivity| |exact Hres|apply Hv].
  unfold local_path. rewrite Hget. destruct (decide (v = [])) as [Hnil|_]; [|reflexivity].
  destruct Hv as [Hv _]. contradiction.
Qed.

End html_facts.

(** ** The properties on concrete cases *)

Lemma text_is_kept_witness :
  Transcoder.convertHtmlToMarkdown (txt "  Return the sum.  ") []
  = Some (txt "Return the sum.").
Proof.
  apply (text_is_kept (txt "  Return the sum.  ") []).
  repeat constructor; discriminate.
Defined.

Lemma dollar_signs_in_a_block_witness :
  Transcoder.convertHtmlToMarkdown
    (Transcoder.pre_block (txt "echo " ++ txt "$$" ++ txt " > pid")) []
  = Some (Transcoder.fence (txt "echo " ++ txt "$" ++ txt " > pid")).
Proof.
  apply (dollar_signs_in_a_block (txt "echo ") (txt " > pid") []);
    repeat constructor; discriminate.
Defined.

Lemma conversion_fails_only_on_an_empty_block_witness :
  exists before after,
    txt "Run it: <pre><code></code></pre> and see."
    = before ++ Transcoder.pre_code_block [] ++ after.
Proof.
  apply (conversion_fails_only_on_an_empty_block
           (txt "Run it: <pre><code></code></pre> and see.") []).
  vm_compute. reflexivity.
Defined.

Lemma text_between_escaped_brackets_is_lost_witness :
  Transcoder.convertHtmlToMarkdown
    (txt "if x " ++ txt "&lt;" ++ txt " y and y " ++ txt "&gt;" ++ txt " z then") []
  = Some (Js.trim (txt "if x " ++ txt " z then")).
Proof.
  apply (text_between_escaped_brackets_is_lost (txt "if x ") (txt " y and y ") (txt " z then") []);
    first [discriminate | repeat constructor; discriminate].
Defined.

Section case_facts.
Import Layout Download Scheduler Scenario Cases.

Lemma status_counts_are_within_totals_witness :
  (0 <= count (communitySolutions add_two_status)
     <= total (communitySolutions add_two_status))%Z
  /\ (total (communitySolutions add_two_status) <= total (templates add_two_status))%Z.
Proof.
  destruct (status_counts_are_within_totals healthy add_two Args.default_config add_two_status)
    as (_ & _ & H3 & H4 & _).
  - vm_compute. reflexivity.
  - split; assumption.
Defined.

Lemma incomplete_items_have_a_reason_witness :
  isFullyComplete Args.default_config add_two_status = true
  <-> failureReasons Args.default_config add_two_status = [].
Proof.
  apply (incomplete_items_have_a_reason healthy add_two Args.default_config add_two_status).
  vm_compute. reflexivity.
Defined.

Lemma batch_has_no_premium_failure_witness :
  downloadProblem expired two_sum Args.default_config <> inl premium_required.
Proof.
  apply (batch_has_no_premium_failure false ∅ [two_sum; add_two] two_sum expired
           Args.default_config).
  - left. reflexivity.
  - reflexivity.
Defined.

Lemma empty_code_block_fails_the_item_witness :
  downloadProblem with_empty_block two_sum Args.default_config = inl type_error.
Proof.
  destruct (empty_code_block_fails_the_item with_empty_block two_sum Args.default_config
              empty_block (txt "Run it: ") (txt " and see.") (initial nothing_read))
    as [H _].
  - reflexivity.
  - reflexivity.
  - reflexivity.
  - repeat constructor; discriminate.
  - exact H.
Defined.

Lemma chunks_cover_the_list_witness :
  concat (chunks 2 [two_sum; add_two; longest]) = [two_sum; add_two; longest]
  /\ Forall (fun batch => 1 <= length batch <= 2) (chunks 2 [two_sum; add_two; longest]).
Proof. apply (chunks_cover_the_list 2 [two_sum; add_two; longest]). lia. Defined.

Lemma run_without_session_error_goes_on_witness :
  exited resumed = false /\ shouldStop resumed = false.
Proof.
  destruct (run_without_session_error_goes_on Args.default_config (fun _ => healthy) false
              [add_two; longest] earlier [[Settle 1; Settle 0; Done 0; Done 1]])
    as (H1 & H2 & _).
  - intros problem message [<-|[<-|[]]] H; vm_compute in H; discriminate H.
  - split; assumption.
Defined.

Lemma missing_cookies_fail_the_item_witness :
  downloadProblem logged_out two_sum Args.default_config
  = inl (txt "No session cookies found. Please login first.").
Proof.
  destruct (missing_cookies_fail_the_item logged_out two_sum Args.default_config
              (initial nothing_read)) as [H _].
  - reflexivity.
  - exact H.
Defined.

Lemma check_mark_is_stricter_than_the_verdict_witness :
  Display.allSuccess add_two_without_templates = false
  /\ isFullyComplete no_templates add_two_without_templates = true.
Proof.
  destruct (check_mark_is_stricter_than_the_verdict healthy add_two no_templates
              add_two_without_templates) as [_ H].
  - vm_compute. reflexivity.
  - split; [|reflexivity]. apply H; [left; reflexivity|reflexivity].
Defined.

Lemma path_shown_is_path_written_witness :
  Display.relativePath pow_x_n = problemPath (txt "downloads") pow_x_n.
Proof. apply (proj1 (path_shown_is_path_written pow_x_n)). discriminate. Defined.

Lemma listProblems_reads_every_page_witness :
  Catalogue.listProblems 2 healthy steady
  = Some (inr (flat_map (fun _ => map Catalogue.problem_of [two_sum_entry])
                        (seq 0 (Catalogue.page_count 150)))).
Proof.
  apply (listProblems_reads_every_page healthy steady eq_refl 150 (fun _ => [two_sum_entry]) 2).
  - intros k. reflexivity.
  - vm_compute. lia.
Defined.

Lemma listProblems_is_all_or_nothing_witness :
  Catalogue.listProblems 2 healthy broken
  = Some (inl (txt "LeetCode API request failed: " ++ txt "timeout")).
Proof.
  apply (listProblems_is_all_or_nothing healthy broken eq_refl 1 (txt "timeout")
           (fun _ => 150%Z) (fun _ => [two_sum_entry]) 2).
  - intros k Hk. assert (k = 0) as -> by lia. split; [reflexivity|lia].
  - reflexivity.
  - lia.
Defined.

End case_facts.

Lemma download_command_configuration_witness :
  exists CONFIG,
    Cli.download [txt "1"; txt "-c"; txt "0"; txt "--no-official"] = Args.Returned CONFIG
    /\ Args.problemId CONFIG = Some (txt "1")
    /\ Args.concurrency CONFIG = 5%Z.
Proof.
  destruct (download_command_configuration
              [txt "1"; txt "-c"; txt "0"; txt "--no-official"]
              (Cli.Parsed (Some 1%Z) None false false true (Some 0%Z)))
    as (CONFIG & H1 & H2 & H3 & _).
  - intros a [<-|[<-|[<-|[<-|[]]]]]; simpl; lia.
  - reflexivity.
  - exists CONFIG. split; [exact H1|]. split; [exact H2|exact H3].
Defined.

Lemma item_named_without_number_is_dropped_witness :
  Cli.download [txt "two-sum"] = Args.Returned Args.default_config
  /\ Args.parseArgs [txt "two-sum"]
     = Args.Returned (Args.set_problemId Args.default_config (txt "two-sum")).
Proof.
  apply (item_named_without_number_is_dropped (txt "two-sum")).
  - simpl. lia.
  - reflexivity.
  - reflexivity.
Defined.

Lemma blocks_are_wrapped_witness :
  Html.processHtmlBody (fun _ _ => false)
    (txt "Example: " ++ txt "<pre>" ++ ["010"%char] ++ txt "<code>x = 1</code>"
     ++ ["010"%char] ++ txt "</pre>" ++ txt " and so on.")
  = (txt "Example: " ++ txt "<pre><code>" ++ txt "<code>x = 1</code>"
     ++ txt "</code></pre>" ++ txt " and so on.", []).
Proof.
  apply (blocks_are_wrapped (fun _ _ => false) (txt "Example: ") ["010"%char]
           (txt "<code>x = 1</code>") ["010"%char] (txt " and so on."));
    first [reflexivity
          |split; reflexivity
          |repeat constructor; discriminate
          |repeat constructor].
Defined.

Lemma sources_are_resolved_witness :
  exists v,
    Media.map_get (txt "/static/tree.png")
                  (Media.imageMap (Html.scanned (fun _ _ => false) Cases.figure)) = Some v
    /\ Transcoder.local_path (Media.imageMap (Html.scanned (fun _ _ => false) Cases.figure))
                             (txt "/static/tree.png") = v
    /\ Html.resolved (Media.imageIndex (Html.scanned (fun _ _ => false) Cases.figure))
                     (txt "/static/tree.png") v
    /\ (Js.startsWith (txt "/") (txt "/static/tree.png") = true ->
        Js.startsWith (txt "/") v = false).
Proof.
  apply (sources_are_resolved (fun _ _ => false) Cases.figure (txt "/static/tree.png")).
  vm_compute. left. reflexivity.
Defined.
